(** * larcorealg: standard geometry sorter, AuxDet channel mapping and
      cryostat spatial queries

    A shallow embedding of
      - larcorealg/Geometry/GeoObjectSorterStandard.cxx
      - larcorealg/Geometry/AuxDetChannelMapAlg.cxx
      - larcorealg/Geometry/CryostatGeo.cxx
    and the properties of the canonical ordering and of the spatial
    queries that follow from the code.

    Conventions of the embedding.
      - A finite C++ [double] is the rational it holds ([Q]); the
        objects of the geometry store finite doubles, and a stored zero
        is the positive zero.  Arithmetic is that of binary64: an
        operation returns an [fp], the exact result rounded to the
        nearest double (ties to the even significand), an infinity on
        overflow, a signed zero, or NaN.  The literal [0.001] is the
        double nearest to it; [0.5] and [2] are doubles.
      - [size_t], [unsigned int] and [uint32_t] values are binary naturals
        ([N]); [int] is [Z] with the 32-bit wrap-around written out where
        a conversion happens ([atoi]).
      - Geometry classes whose headers are not part of the sources
        (PlaneGeo, WireGeo, TPCGeo, ...) are records of the accessors
        the code calls; a coordinate transformation is a function field.
      - A C++ exception is a value of [exception]; a function that may
        throw returns [result].  A [cet::exception] carries its category
        and the sequence of items streamed into it with [<<]. *)

From Stdlib Require Import QArith Qabs Qround Qpower ZArith NArith Lia Lqa.
From Stdlib Require Import List String Ascii Bool.
From Stdlib Require Import Sorted Permutation.
From Stdlib Require Import DecimalString DecimalN.
Import ListNotations.

Local Open Scope Q_scope.

(** ** Numbers

    A finite [double] is the rational it holds.  What an operation of
    binary64 returns is an [fp]: the exact result rounded to the nearest
    double, the one with the even significand when two are equally near,
    with the infinities, the negative zero and NaN. *)

Definition double := Q.

Definition Qltb (x y : double) : bool := negb (Qle_bool y x).

(** The floor of the binary logarithm of a positive rational. *)
Definition ilog2 (x : Q) : Z :=
  let e := (Z.log2 (Qnum x) - Z.log2 (Zpos (Qden x)))%Z in
  if Qle_bool (2 ^ e) x then e else (e - 1)%Z.

(** The integer nearest to [t], the even one when [t] is half way
    between two. *)
Definition round_half_even (t : Q) : Z :=
  let f := Qfloor t in
  match Qcompare (t - inject_Z f) (1 # 2) with
  | Lt => f
  | Gt => (f + 1)%Z
  | Eq => if Z.even f then f else (f + 1)%Z
  end.

(** The doubles around a positive [x] are the multiples of
    [2 ^ quantum x]: 53 significant bits, and no exponent below that of
    the subnormal numbers. *)
Definition quantum (x : Q) : Z := Z.max (ilog2 x - 52) (-1074).

Definition round_magnitude (x : Q) : Q :=
  inject_Z (round_half_even (x / 2 ^ quantum x)) * 2 ^ quantum x.

(** The double nearest to [x], were the exponent not bounded above. *)
Definition round_to_double (x : Q) : double :=
  match Qcompare x 0 with
  | Eq => 0
  | Gt => round_magnitude x
  | Lt => - round_magnitude (- x)
  end.

(** [std::numeric_limits<double>::max()], (2 - 2^-52) * 2^1023. *)
Definition DBL_MAX : double := inject_Z (2 ^ 1024 - 2 ^ 971).

(** A value of type [double]; [Num 0] is the positive zero. *)
Inductive fp :=
| Num (q : double)
| NegZero
| Inf (negative : bool)
| NaN.

Definition zero (negative : bool) : fp := if negative then NegZero else Num 0.

Definition value (a : fp) : Q :=
  match a with Num q => q | _ => 0 end.

Definition signbit (a : fp) : bool :=
  match a with
  | Num q => Qltb q 0
  | NegZero => true
  | Inf s => s
  | NaN => false
  end.

Definition is_zero (a : fp) : bool :=
  match a with
  | Num q => Qeq_bool q 0
  | NegZero => true
  | _ => false
  end.

(** The double that an operation returns for the exact result [x]:
    an infinity on overflow, a zero of the sign of [x] on underflow. *)
Definition fp_round (x : Q) : fp :=
  let r := round_to_double x in
  if Qltb DBL_MAX (Qabs r) then Inf (Qltb x 0)
  else if Qeq_bool r 0 then zero (Qltb x 0)
  else Num r.

Definition fp_neg (a : fp) : fp :=
  match a with
  | Num q => if Qeq_bool q 0 then NegZero else Num (- q)
  | NegZero => Num 0
  | Inf s => Inf (negb s)
  | NaN => NaN
  end.

(** [std::abs] *)
Definition fp_abs (a : fp) : fp :=
  match a with
  | Num q => Num (Qabs q)
  | NegZero => Num 0
  | Inf _ => Inf false
  | NaN => NaN
  end.

Definition fp_add (a b : fp) : fp :=
  match a, b with
  | NaN, _ | _, NaN => NaN
  | Inf s, Inf s' => if Bool.eqb s s' then Inf s else NaN
  | Inf s, _ | _, Inf s => Inf s
  | NegZero, NegZero => NegZero
  | _, _ => fp_round (value a + value b)
  end.

Definition fp_sub (a b : fp) : fp := fp_add a (fp_neg b).

Definition fp_mul (a b : fp) : fp :=
  match a, b with
  | NaN, _ | _, NaN => NaN
  | Inf s, c | c, Inf s =>
      if is_zero c then NaN else Inf (xorb s (signbit c))
  | _, _ =>
      if Qeq_bool (value a * value b) 0
      then zero (xorb (signbit a) (signbit b))
      else fp_round (value a * value b)
  end.

Definition fp_div (a b : fp) : fp :=
  match a, b with
  | NaN, _ | _, NaN => NaN
  | Inf _, Inf _ => NaN
  | Inf s, c => Inf (xorb s (signbit c))
  | c, Inf s => zero (xorb (signbit c) s)
  | _, _ =>
      if is_zero b
      then if is_zero a then NaN else Inf (xorb (signbit a) (signbit b))
      else if Qeq_bool (value a / value b) 0
           then zero (xorb (signbit a) (signbit b))
           else fp_round (value a / value b)
  end.

(** The comparisons are false as soon as an operand is NaN. *)
Definition fp_lt (a b : fp) : bool :=
  match a, b with
  | NaN, _ | _, NaN => false
  | Inf s, Inf s' => s && negb s'
  | Inf s, _ => s
  | _, Inf s => negb s
  | _, _ => Qltb (value a) (value b)
  end.

Definition fp_le (a b : fp) : bool :=
  match a, b with
  | NaN, _ | _, NaN => false
  | Inf s, Inf s' => s || negb s'
  | Inf s, _ => s
  | _, Inf s => negb s
  | _, _ => Qle_bool (value a) (value b)
  end.

Definition fp_gt (a b : fp) : bool := fp_lt b a.
Definition fp_ge (a b : fp) : bool := fp_le b a.

Declare Scope fp_scope.
Delimit Scope fp_scope with fp.
Bind Scope fp_scope with fp.
Notation "a + b" := (fp_add a b) : fp_scope.
Notation "a - b" := (fp_sub a b) : fp_scope.
Notation "a * b" := (fp_mul a b) : fp_scope.
Notation "a / b" := (fp_div a b) : fp_scope.
Notation "- a" := (fp_neg a) : fp_scope.
Notation "a <? b" := (fp_lt a b) (at level 70) : fp_scope.
Notation "a <=? b" := (fp_le a b) (at level 70) : fp_scope.
Notation "a >? b" := (fp_gt a b) (at level 70) : fp_scope.
Notation "a >=? b" := (fp_ge a b) (at level 70) : fp_scope.

(** [a[0]], [a[1]], [a[2]] of a [double[3]], also used for [geo::Point_t]. *)
Record Point := mkPoint { coord0 : double; coord1 : double; coord2 : double }.

Definition origin : Point := mkPoint 0 0 0.

(** ** Exceptions *)

Inductive item :=
| Text (s : string)
| Dbl (d : double)
| Unsigned (n : N)
| Pt (p : Point).

Inductive exception :=
| cet_exception (category : string) (message : list item)
| std_out_of_range.

Inductive result (A : Type) :=
| Ok (a : A)
| Throw (e : exception).
Arguments Ok {A} a.
Arguments Throw {A} e.

Definition bind {A B : Type} (r : result A) (k : A -> result B) : result B :=
  match r with
  | Ok a => k a
  | Throw e => Throw e
  end.

Notation "x <- r ;; k" := (bind r (fun x => k))
  (at level 61, r at next level, right associativity).

Definition newline : string := String (ascii_of_nat 10) EmptyString.

(** ** std::sort

    [std::sort] is embedded as the insertion sort that libstdc++ runs on a
    range of at most 16 elements ([_S_threshold]): there the introsort
    loop does nothing and [__final_insertion_sort] is [__insertion_sort].
    The processed part of the range is kept as a list, front first. *)

Section StdSort.
Context {A : Type}.

Section Noexcept.
Variable comp : A -> A -> bool.

(** [__unguarded_linear_insert]: [val] moves towards the front past
    every element it compares less than.  [back] is the processed
    range read backwards from the position before [val]; so is the
    result. *)
Fixpoint unguarded_linear_insert (val : A) (back : list A) : list A :=
  match back with
  | [] => [val]
  | next :: rest =>
      if comp val next then next :: unguarded_linear_insert val rest
      else val :: back
  end.

(** One turn of the loop of [__insertion_sort]. *)
Definition insertion_step (sorted : list A) (val : A) : list A :=
  match sorted with
  | [] => [val]
  | first :: _ =>
      if comp val first then val :: sorted
      else rev (unguarded_linear_insert val (rev sorted))
  end.

Definition std_sort (l : list A) : list A :=
  match l with
  | [] => []
  | first :: rest => fold_left insertion_step rest [first]
  end.

(** [std::sort(v.rbegin(), v.rend(), comp)]. *)
Definition std_sort_reverse (l : list A) : list A :=
  rev (std_sort (rev l)).

(** [ordered l]: no element compares less than an element before
    it. *)
Definition ordered (l : list A) : Prop :=
  StronglySorted (fun a b => comp b a = false) l.
End Noexcept.

Section Throwing.
Variable comp : A -> A -> result bool.

Fixpoint unguarded_linear_insert_t (val : A) (back : list A)
  : result (list A) :=
  match back with
  | [] => Ok [val]
  | next :: rest =>
      c <- comp val next ;;
      if (c : bool) then
        r <- unguarded_linear_insert_t val rest ;; Ok (next :: r)
      else Ok (val :: back)
  end.

Definition insertion_step_t (sorted : list A) (val : A)
  : result (list A) :=
  match sorted with
  | [] => Ok [val]
  | first :: _ =>
      c <- comp val first ;;
      if (c : bool) then Ok (val :: sorted)
      else r <- unguarded_linear_insert_t val (rev sorted) ;; Ok (rev r)
  end.

Fixpoint insertion_loop_t (sorted : list A) (rest : list A)
  : result (list A) :=
  match rest with
  | [] => Ok sorted
  | val :: rest' =>
      s <- insertion_step_t sorted val ;; insertion_loop_t s rest'
  end.

(** [std::sort] with a comparison that may throw: the exception
    leaves the sort. *)
Definition std_sort_t (l : list A) : result (list A) :=
  match l with
  | [] => Ok []
  | first :: rest => insertion_loop_t [first] rest
  end.
End Throwing.
End StdSort.

(** ** Geometry objects

    The accessors of the geometry classes that the three sources call.
    The class definitions live in headers outside the sources; each
    record lists what is read from an object. *)

Module WireGeo.
Record t := mk { GetCenter : Point }.
End WireGeo.

Module PlaneGeo.
Record t := mk { LocalToWorld : Point -> Point }.
End PlaneGeo.

Module TPCGeo.
Record t := mk {
  LocalToWorld : Point -> Point;
  ContainsPosition : Point -> double -> bool;
  ID : N * N
}.
End TPCGeo.

Module OpDetGeo.
Record t := mk { DistanceToPoint : Point -> double }.
End OpDetGeo.

Module CryostatGeo.
Record t := mk {
  LocalToWorld : Point -> Point;
  TPCs : list TPCGeo.t;
  OpDets : list OpDetGeo.t;
  ID : N
}.
End CryostatGeo.

Module AuxDetSensitiveGeo.
Record t := mk {
  Name : string;           (* TotalVolume()->GetName() *)
  WorldToLocal : Point -> Point;
  HalfWidth1 : double;
  HalfWidth2 : double;
  HalfHeight : double;
  Length : double
}.
End AuxDetSensitiveGeo.

Module AuxDetGeo.
Record t := mk {
  Name : string;           (* TotalVolume()->GetName() *)
  WorldToLocal : Point -> Point;
  HalfWidth1 : double;
  HalfWidth2 : double;
  HalfHeight : double;
  Length : double;
  SensitiveVolumes : list AuxDetSensitiveGeo.t
}.
End AuxDetGeo.

(** [geo::DriftDirection_t]; [kPosX] and [kNegX] are the enumerators
    [SortPlanes] tests. *)
Inductive DriftDirection_t := kUnknownDrift | kPosX | kNegX.

(** ** C library and std::string *)

Definition UINT_MAX : N := 4294967295.
Definition LONG_MAX : Z := 9223372036854775807.
Definition LONG_MIN : Z := -9223372036854775808.
Definition INT_MAX : Z := 2147483647.

(** [std::string::substr(pos, len)]: throws [std::out_of_range] when
    [pos > size()], otherwise the characters from [pos] on, at most
    [len] of them. *)
Definition substr (s : string) (pos len : nat) : result string :=
  if (String.length s <? pos)%nat then Throw std_out_of_range
  else Ok (substring pos len s).

Definition isspace (c : ascii) : bool :=
  let n := N_of_ascii c in
  ((n =? 32) || ((9 <=? n) && (n <=? 13)))%N.

Definition isdigit (c : ascii) : bool :=
  let n := N_of_ascii c in
  ((48 <=? n) && (n <=? 57))%N.

Definition digit_value (c : ascii) : Z := Z.of_N (N_of_ascii c) - 48.

Fixpoint skip_spaces (s : string) : string :=
  match s with
  | String c t => if isspace c then skip_spaces t else s
  | EmptyString => s
  end.

(** The value of the leading run of decimal digits of [s], counted on
    from [acc]. *)
Fixpoint leading_digits (acc : Z) (s : string) : Z :=
  match s with
  | String c t =>
      if isdigit c then leading_digits (10 * acc + digit_value c)%Z t
      else acc
  | EmptyString => acc
  end.

(** [strtol(s, NULL, 10)]: white space, an optional sign, decimal
    digits; a value out of the range of [long] is clamped. *)
Definition strtol (s : string) : Z :=
  let clamp z := Z.max LONG_MIN (Z.min LONG_MAX z) in
  match skip_spaces s with
  | String "-"%char t => clamp (- leading_digits 0 t)%Z
  | String "+"%char t => clamp (leading_digits 0 t)
  | t => clamp (leading_digits 0 t)
  end.

(** The conversion of a [long] to [int]. *)
Definition long_to_int (z : Z) : Z := ((z + 2 ^ 31) mod 2 ^ 32 - 2 ^ 31)%Z.

(** [atoi(s)] as glibc defines it, [(int) strtol(s, NULL, 10)]. *)
Definition atoi (s : string) : Z := long_to_int (strtol s).

(** ** GeoObjectSorterStandard.cxx *)

(** [static constexpr double DistanceTol = 0.001] *)
Definition DistanceTol : double := round_to_double 0.001.

Definition sortAuxDetStandard (ad1 ad2 : AuxDetGeo.t) : result bool :=
  let ad1name := AuxDetGeo.Name ad1 in
  let ad2name := AuxDetGeo.Name ad2 in
  s1 <- substr ad1name 9 (String.length ad1name) ;;
  let ad1Num := atoi s1 in
  s2 <- substr ad2name 9 (String.length ad2name) ;;
  let ad2Num := atoi s2 in
  Ok (ad1Num <? ad2Num)%Z.

Definition sortAuxDetSensitiveStandard (ad1 ad2 : AuxDetSensitiveGeo.t)
  : result bool :=
  let ad1name := AuxDetSensitiveGeo.Name ad1 in
  let ad2name := AuxDetSensitiveGeo.Name ad2 in
  s1 <- substr ad1name 9 (String.length ad1name) ;;
  let ad1Num := atoi s1 in
  s2 <- substr ad2name 9 (String.length ad2name) ;;
  let ad2Num := atoi s2 in
  Ok (ad1Num <? ad2Num)%Z.

Definition sortCryoStandard (c1 c2 : CryostatGeo.t) : bool :=
  let local := origin in
  let xyz1 := CryostatGeo.LocalToWorld c1 local in
  let xyz2 := CryostatGeo.LocalToWorld c2 local in
  Qltb (coord0 xyz1) (coord0 xyz2).

Definition sortTPCStandard (t1 t2 : TPCGeo.t) : bool :=
  let local := origin in
  let xyz1 := TPCGeo.LocalToWorld t1 local in
  let xyz2 := TPCGeo.LocalToWorld t2 local in
  Qltb (coord0 xyz1) (coord0 xyz2).

Definition sortPlaneStandard (p1 p2 : PlaneGeo.t) : bool :=
  let local := origin in
  let xyz1 := PlaneGeo.LocalToWorld p1 local in
  let xyz2 := PlaneGeo.LocalToWorld p2 local in
  if (fp_abs (Num (coord0 xyz1) - Num (coord0 xyz2)) >? Num DistanceTol)%fp
  then Qltb (coord0 xyz2) (coord0 xyz1)
  else if (fp_abs (Num (coord2 xyz1) - Num (coord2 xyz2)) >? Num DistanceTol)%fp
  then Qltb (coord2 xyz1) (coord2 xyz2)
  else Qltb (coord1 xyz1) (coord1 xyz2).

Definition sortWireStandard (w1 w2 : WireGeo.t) : bool :=
  let xyz1 := WireGeo.GetCenter w1 in
  let xyz2 := WireGeo.GetCenter w2 in
  if (fp_abs (Num (coord2 xyz1) - Num (coord2 xyz2)) >? Num DistanceTol)%fp
  then Qltb (coord2 xyz1) (coord2 xyz2)
  else if (fp_abs (Num (coord1 xyz1) - Num (coord1 xyz2)) >? Num DistanceTol)%fp
  then Qltb (coord1 xyz1) (coord1 xyz2)
  else Qltb (coord0 xyz1) (coord0 xyz2).

(** The sorting methods work on the vector they are given.  A method
    that cannot throw maps the vector before the call to the vector after
    it.  [SortAuxDets] and [SortAuxDetSensitive] can be left by an
    exception of the comparison; the vector they leave behind in that
    case is not described. *)

Definition SortAuxDets (adgeo : list AuxDetGeo.t) : result (list AuxDetGeo.t) :=
  std_sort_t sortAuxDetStandard adgeo.

Definition SortAuxDetSensitive (adsgeo : list AuxDetSensitiveGeo.t)
  : result (list AuxDetSensitiveGeo.t) :=
  std_sort_t sortAuxDetSensitiveStandard adsgeo.

Definition SortCryostats (cgeo : list CryostatGeo.t) : list CryostatGeo.t :=
  std_sort sortCryoStandard cgeo.

Definition SortTPCs (tgeo : list TPCGeo.t) : list TPCGeo.t :=
  std_sort sortTPCStandard tgeo.

(** [SortPlanes] returns the vector after the call together with the way
    the call ended. *)
Definition SortPlanes (pgeo : list PlaneGeo.t) (driftDir : DriftDirection_t)
  : list PlaneGeo.t * result unit :=
  match driftDir with
  | kPosX => (std_sort_reverse sortPlaneStandard pgeo, Ok tt)
  | kNegX => (std_sort sortPlaneStandard pgeo, Ok tt)
  | kUnknownDrift =>
      (pgeo,
       Throw (cet_exception "TPCGeo"
                [Text ("Drift direction is unknown, can't sort the planes"
                       ++ newline)]))
  end.

Definition SortWires (wgeo : list WireGeo.t) : list WireGeo.t :=
  std_sort sortWireStandard wgeo.

(** ** AuxDetChannelMapAlg.cxx *)

(** A [std::map] keyed by [size_t], as the sequence of its entries in
    the order of iteration (ascending keys). *)
Definition std_map (V : Type) := list (N * V).

Fixpoint map_find {V : Type} (k : N) (m : std_map V) : option V :=
  match m with
  | [] => None
  | (k', v) :: m' => if (k' =? k)%N then Some v else map_find k m'
  end.

Record AuxDetChannelMapAlg := mkAlg {
  fADGeoToName : std_map string;
  fADGeoToChannelAndSV : std_map (list (N * N))
}.

(** The condition of the [if] in the loop of [NearestAuxDet]. *)
Definition NearestAuxDet_accepts (ad : AuxDetGeo.t) (point : Point)
  (tolerance : double) : bool :=
  let localPoint := AuxDetGeo.WorldToLocal ad point in
  let Length := Num (AuxDetGeo.Length ad) in
  let HalfHeight := Num (AuxDetGeo.HalfHeight ad) in
  let HalfWidth1 := Num (AuxDetGeo.HalfWidth1 ad) in
  let HalfWidth2 := Num (AuxDetGeo.HalfWidth2 ad) in
  let tolerance := Num tolerance in
  let HalfCenterWidth := (Num 0.5 * (HalfWidth1 + HalfWidth2))%fp in
  ((Num (coord2 localPoint) >=? - Length / Num 2 - tolerance)
   && (Num (coord2 localPoint) <=? Length / Num 2 + tolerance)
   && (Num (coord1 localPoint) >=? - HalfHeight - tolerance)
   && (Num (coord1 localPoint) <=? HalfHeight + tolerance)
   && (Num (coord0 localPoint)
       >=? - HalfCenterWidth
           + Num (coord2 localPoint) * (HalfCenterWidth - HalfWidth2)
             / (Num 0.5 * Length)
           - tolerance)
   && (Num (coord0 localPoint)
       <=? HalfCenterWidth
           - Num (coord2 localPoint) * (HalfCenterWidth - HalfWidth2)
             / (Num 0.5 * Length)
           + tolerance))%fp.

(** The loop of [NearestAuxDet] from index [a] on. *)
Fixpoint NearestAuxDet_from (a : N) (auxDets : list AuxDetGeo.t)
  (point : Point) (tolerance : double) : option N :=
  match auxDets with
  | [] => None
  | ad :: rest =>
      if NearestAuxDet_accepts ad point tolerance then Some a
      else NearestAuxDet_from (a + 1) rest point tolerance
  end.

Definition NearestAuxDet (point : Point) (auxDets : list AuxDetGeo.t)
  (tolerance : double) : result N :=
  match NearestAuxDet_from 0 auxDets point tolerance with
  | Some a => Ok a
  | None =>
      Throw (cet_exception "AuxDetChannelMapAlg"
               [Text "Can't find AuxDet for position ("; Dbl (coord0 point);
                Text ","; Dbl (coord1 point);
                Text ","; Dbl (coord2 point); Text (")" ++ newline)])
  end.

(** The condition of the [if] in the loop of [NearestSensitiveAuxDet]. *)
Definition NearestSensitiveAuxDet_accepts (adsg : AuxDetSensitiveGeo.t)
  (point : Point) (tolerance : double) : bool :=
  let localPoint := AuxDetSensitiveGeo.WorldToLocal adsg point in
  let Length := Num (AuxDetSensitiveGeo.Length adsg) in
  let HalfHeight := Num (AuxDetSensitiveGeo.HalfHeight adsg) in
  let HalfWidth1 := Num (AuxDetSensitiveGeo.HalfWidth1 adsg) in
  let HalfWidth2 := Num (AuxDetSensitiveGeo.HalfWidth2 adsg) in
  let tolerance := Num tolerance in
  let HalfCenterWidth := (Num 0.5 * (HalfWidth1 + HalfWidth2))%fp in
  ((Num (coord2 localPoint) >=? - (Length / Num 2 + tolerance))
   && (Num (coord2 localPoint) <=? Length / Num 2 + tolerance)
   && (Num (coord1 localPoint) >=? - (HalfHeight + tolerance))
   && (Num (coord1 localPoint) <=? HalfHeight + tolerance)
   && (Num (coord0 localPoint)
       >=? - HalfCenterWidth
           + Num (coord2 localPoint) * (HalfCenterWidth - HalfWidth2)
             / (Num 0.5 * Length)
           - tolerance)
   && (Num (coord0 localPoint)
       <=? HalfCenterWidth
           - Num (coord2 localPoint) * (HalfCenterWidth - HalfWidth2)
             / (Num 0.5 * Length)
           + tolerance))%fp.

Fixpoint NearestSensitiveAuxDet_from (a : N)
  (svs : list AuxDetSensitiveGeo.t) (point : Point) (tolerance : double)
  : option N :=
  match svs with
  | [] => None
  | adsg :: rest =>
      if NearestSensitiveAuxDet_accepts adsg point tolerance then Some a
      else NearestSensitiveAuxDet_from (a + 1) rest point tolerance
  end.

(** [NearestSensitiveAuxDet] returns the index of the sensitive volume
    and stores the index of the AuxDet in [ad]; here both are returned,
    [ad] first.  [NearestAuxDet] only returns an index of [auxDets], so
    [auxDets[ad]] exists. *)
Definition NearestSensitiveAuxDet (point : Point)
  (auxDets : list AuxDetGeo.t) (tolerance : double) : result (N * N) :=
  ad <- NearestAuxDet point auxDets tolerance ;;
  match nth_error auxDets (N.to_nat ad) with
  | Some adg =>
      match NearestSensitiveAuxDet_from 0 (AuxDetGeo.SensitiveVolumes adg)
              point tolerance with
      | Some a => Ok (ad, a)
      | None =>
          Throw (cet_exception "Geometry"
                   [Text "Can't find AuxDetSensitive for position (";
                    Dbl (coord0 point); Text ","; Dbl (coord1 point);
                    Text ","; Dbl (coord2 point); Text (")" ++ newline)])
      end
  | None => Throw std_out_of_range
  end.

(** The loop of [ChannelToAuxDet] over the entries of [fADGeoToName]. *)
Fixpoint ChannelToAuxDet_scan (entries : std_map string) (detName : string)
  : option N :=
  match entries with
  | [] => None
  | itr :: rest =>
      if String.eqb (snd itr) detName then Some (fst itr)
      else ChannelToAuxDet_scan rest detName
  end.

Definition ChannelToAuxDet (alg : AuxDetChannelMapAlg)
  (auxDets : list AuxDetGeo.t) (detName : string) (channel : N) : result N :=
  match ChannelToAuxDet_scan (fADGeoToName alg) detName with
  | Some idx => Ok idx
  | None =>
      Throw (cet_exception "Geometry"
               [Text "No AuxDetGeo matching name: "; Text detName])
  end.

Definition ChannelToSensitiveAuxDet (alg : AuxDetChannelMapAlg)
  (auxDets : list AuxDetGeo.t) (detName : string) (channel : N)
  : result (N * N) :=
  adGeoIdx <- ChannelToAuxDet alg auxDets detName channel ;;
  match map_find adGeoIdx (fADGeoToChannelAndSV alg) with
  | Some v =>
      if (channel <? N.of_nat (List.length v))%N
      then Ok (adGeoIdx, snd (nth (N.to_nat channel) v (0, 0)%N))
      else
        Throw (cet_exception "Geometry"
                 [Text "Given AuxDetSensitive channel, "; Unsigned channel;
                  Text ", cannot be found in vector associated to AuxDetGeo index: ";
                  Unsigned adGeoIdx; Text ". Vector has size ";
                  Unsigned (N.of_nat (List.length v))])
  | None =>
      Throw (cet_exception "Geometry"
               [Text "Given AuxDetGeo with index "; Unsigned adGeoIdx;
                Text " does not correspond to any vector of sensitive volumes"])
  end.

(** ** CryostatGeo.cxx *)

Definition NOpDet (c : CryostatGeo.t) : N :=
  N.of_nat (List.length (CryostatGeo.OpDets c)).

(** [OpDet(iopdet)]: the bound is checked before the element is read,
    so the last case below does not occur. *)
Definition OpDet (c : CryostatGeo.t) (iopdet : N) : result OpDetGeo.t :=
  let out_of_range :=
    cet_exception "OpDetOutOfRange"
      [Text "Request for non-existant OpDet "; Unsigned iopdet] in
  if (NOpDet c <=? iopdet)%N then Throw out_of_range
  else match nth_error (CryostatGeo.OpDets c) (N.to_nat iopdet) with
       | Some od => Ok od
       | None => Throw out_of_range
       end.

(** The range-for of [PositionToTPCptr]; [None] is the null pointer. *)
Fixpoint PositionToTPCptr_scan (tpcs : list TPCGeo.t) (point : Point)
  (wiggle : double) : option TPCGeo.t :=
  match tpcs with
  | [] => None
  | tpc :: rest =>
      if TPCGeo.ContainsPosition tpc point wiggle then Some tpc
      else PositionToTPCptr_scan rest point wiggle
  end.

Definition PositionToTPCptr (c : CryostatGeo.t) (point : Point)
  (wiggle : double) : option TPCGeo.t :=
  PositionToTPCptr_scan (CryostatGeo.TPCs c) point wiggle.

Definition PositionToTPC (c : CryostatGeo.t) (point : Point)
  (wiggle : double) : result TPCGeo.t :=
  match PositionToTPCptr c point wiggle with
  | None =>
      Throw (cet_exception "CryostatGeo"
               [Text "Can't find any TPC for position "; Pt point;
                Text " within "; Unsigned (CryostatGeo.ID c); Text newline])
  | Some tpc => Ok tpc
  end.

(** The loop of [GetClosestOpDet] from index [o] on. *)
Fixpoint GetClosestOpDet_from (o : N) (opdets : list OpDetGeo.t)
  (point : Point) (ClosestDet : N) (ClosestDist : double) : N :=
  match opdets with
  | [] => ClosestDet
  | od :: rest =>
      let ThisDist := OpDetGeo.DistanceToPoint od point in
      if Qltb ThisDist ClosestDist
      then GetClosestOpDet_from (o + 1) rest point o ThisDist
      else GetClosestOpDet_from (o + 1) rest point ClosestDet ClosestDist
  end.

Definition GetClosestOpDet (c : CryostatGeo.t) (point : Point) : N :=
  GetClosestOpDet_from 0 (CryostatGeo.OpDets c) point UINT_MAX DBL_MAX.

(** [iOpDet == std::numeric_limits<double>::max()] compares the index,
    converted to [double], with the largest [double]; [None] is the null
    pointer. *)
Definition GetClosestOpDetPtr (c : CryostatGeo.t) (point : Point)
  : result (option OpDetGeo.t) :=
  let iOpDet := GetClosestOpDet c point in
  if Qeq_bool (inject_Z (Z.of_N iOpDet)) DBL_MAX then Ok None
  else od <- OpDet c iOpDet ;; Ok (Some od).

(** ** CryostatGeo.cxx, the identifiers and the counts

    [geo::TPCID] is declared outside the sources.  An ID that a TPC
    stores is taken to be valid and is the pair of its cryostat number
    and its TPC number; the default-constructed, invalid [geo::TPCID{}]
    is [None].  The number
    [geo::TPCID::InvalidID], the accessors [TPCGeo::Nplanes] and
    [TPCGeo::MaxWires], and [TPCGeo::UpdateAfterSorting] are taken as
    given. *)

Definition PositionToTPCID (c : CryostatGeo.t) (point : Point)
  (wiggle : double) : option (N * N) :=
  match PositionToTPCptr c point wiggle with
  | Some tpc => Some (TPCGeo.ID tpc)
  | None => None
  end.

Section TPCInterface.
Variable InvalidID : N.
Variable Nplanes : TPCGeo.t -> N.
Variable TPC_MaxWires : TPCGeo.t -> N.
Variable TPC_UpdateAfterSorting : TPCGeo.t -> N * N -> TPCGeo.t.

Definition FindTPCAtPosition (c : CryostatGeo.t) (worldLoc : Point)
  (wiggle : double) : N :=
  match PositionToTPCID c worldLoc wiggle with
  | Some tpcid => snd tpcid
  | None => InvalidID
  end.

(** The loop of [MaxPlanes], started with [maxPlanes]. *)
Fixpoint MaxPlanes_from (maxPlanes : N) (tpcs : list TPCGeo.t) : N :=
  match tpcs with
  | [] => maxPlanes
  | TPC :: rest =>
      let maxPlanesInTPC := Nplanes TPC in
      MaxPlanes_from
        (if (maxPlanes <? maxPlanesInTPC)%N then maxPlanesInTPC
         else maxPlanes)
        rest
  end.

Definition MaxPlanes (c : CryostatGeo.t) : N :=
  MaxPlanes_from 0 (CryostatGeo.TPCs c).

(** The loop of [MaxWires], started with [maxWires]. *)
Fixpoint MaxWires_from (maxWires : N) (tpcs : list TPCGeo.t) : N :=
  match tpcs with
  | [] => maxWires
  | TPC :: rest =>
      let maxWiresInTPC := TPC_MaxWires TPC in
      MaxWires_from
        (if (maxWires <? maxWiresInTPC)%N then maxWiresInTPC else maxWires)
        rest
  end.

Definition MaxWires (c : CryostatGeo.t) : N :=
  MaxWires_from 0 (CryostatGeo.TPCs c).

(** The loop of [UpdateAfterSorting] from TPC number [tpc] on. *)
Fixpoint UpdateAfterSorting_from (fID : N) (tpc : N) (tpcs : list TPCGeo.t)
  : list TPCGeo.t :=
  match tpcs with
  | [] => []
  | t :: rest =>
      TPC_UpdateAfterSorting t (fID, tpc)
      :: UpdateAfterSorting_from fID (tpc + 1) rest
  end.

Definition UpdateAfterSorting (c : CryostatGeo.t) (cryoid : N)
  : CryostatGeo.t :=
  CryostatGeo.mk (CryostatGeo.LocalToWorld c)
    (UpdateAfterSorting_from cryoid 0 (CryostatGeo.TPCs c))
    (CryostatGeo.OpDets c) cryoid.
End TPCInterface.

(** ** Vocabulary of the properties *)

(** [std::abs(a - b) > DistanceTol]: two coordinates differ by more
    than the tolerance. *)
Definition beyond_tolerance (a b : double) : bool :=
  (fp_abs (Num a - Num b) >? Num DistanceTol)%fp.

(** The largest exact difference that rounds to [DistanceTol] or less:
    half a spacing above [DistanceTol], whose significand is even. *)
Definition tie_limit : Q := DistanceTol + 2 ^ (-63).

(** A comparison on three keys: the first key decides when it differs by
    more than the tolerance, else the second does when it differs by more
    than the tolerance, else the third decides.  [sortWireStandard] and
    [sortPlaneStandard] are of this shape. *)
Definition tol_lex {A : Type} (k1 k2 k3 : A -> double) (a b : A) : bool :=
  if beyond_tolerance (k1 a) (k1 b) then Qltb (k1 a) (k1 b)
  else if beyond_tolerance (k2 a) (k2 b) then Qltb (k2 a) (k2 b)
  else Qltb (k3 a) (k3 b).

(** Being within the tolerance is transitive among the values of the key
    [k] on [l]: the values fall into groups, each within the tolerance,
    that lie further apart than the tolerance. *)
Definition tol_transitive {A : Type} (k : A -> double) (l : list A) : Prop :=
  forall a b c, In a l -> In b l -> In c l ->
    beyond_tolerance (k a) (k b) = false ->
    beyond_tolerance (k b) (k c) = false ->
    beyond_tolerance (k a) (k c) = false.

Definition wire_x (w : WireGeo.t) : double := coord0 (WireGeo.GetCenter w).
Definition wire_y (w : WireGeo.t) : double := coord1 (WireGeo.GetCenter w).
Definition wire_z (w : WireGeo.t) : double := coord2 (WireGeo.GetCenter w).

Definition plane_x (p : PlaneGeo.t) : double :=
  coord0 (PlaneGeo.LocalToWorld p origin).
Definition plane_y (p : PlaneGeo.t) : double :=
  coord1 (PlaneGeo.LocalToWorld p origin).
Definition plane_z (p : PlaneGeo.t) : double :=
  coord2 (PlaneGeo.LocalToWorld p origin).

Definition cryo_x (c : CryostatGeo.t) : double :=
  coord0 (CryostatGeo.LocalToWorld c origin).
Definition tpc_x (t : TPCGeo.t) : double :=
  coord0 (TPCGeo.LocalToWorld t origin).

(** The order of two wires as the specification words it: world Z
    ascending beyond the tolerance, else world Y ascending beyond the
    tolerance, else world X ascending. *)
Definition wire_precedes (w1 w2 : WireGeo.t) : Prop :=
  (beyond_tolerance (wire_z w1) (wire_z w2) = true /\ wire_z w1 < wire_z w2)
  \/ (beyond_tolerance (wire_z w1) (wire_z w2) = false
      /\ beyond_tolerance (wire_y w1) (wire_y w2) = true
      /\ wire_y w1 < wire_y w2)
  \/ (beyond_tolerance (wire_z w1) (wire_z w2) = false
      /\ beyond_tolerance (wire_y w1) (wire_y w2) = false
      /\ wire_x w1 < wire_x w2).

(** The order of two planes for drift towards negative X: world X
    descending beyond the tolerance, else world Z ascending beyond the
    tolerance, else world Y ascending. *)
Definition plane_precedes_negX (p1 p2 : PlaneGeo.t) : Prop :=
  (beyond_tolerance (plane_x p1) (plane_x p2) = true
   /\ plane_x p2 < plane_x p1)
  \/ (beyond_tolerance (plane_x p1) (plane_x p2) = false
      /\ beyond_tolerance (plane_z p1) (plane_z p2) = true
      /\ plane_z p1 < plane_z p2)
  \/ (beyond_tolerance (plane_x p1) (plane_x p2) = false
      /\ beyond_tolerance (plane_z p1) (plane_z p2) = false
      /\ plane_y p1 < plane_y p2).

(** The order of two planes for drift towards positive X, the mirror
    image: world X ascending beyond the tolerance, else world Z
    descending beyond the tolerance, else world Y descending. *)
Definition plane_precedes_posX (p1 p2 : PlaneGeo.t) : Prop :=
  (beyond_tolerance (plane_x p1) (plane_x p2) = true
   /\ plane_x p1 < plane_x p2)
  \/ (beyond_tolerance (plane_x p1) (plane_x p2) = false
      /\ beyond_tolerance (plane_z p1) (plane_z p2) = true
      /\ plane_z p2 < plane_z p1)
  \/ (beyond_tolerance (plane_x p1) (plane_x p2) = false
      /\ beyond_tolerance (plane_z p1) (plane_z p2) = false
      /\ plane_y p2 < plane_y p1).

(** A wire with its centre at (x, y, z); a plane, a TPC and a cryostat
    whose local origin is at (x, y, z) in the world. *)
Definition translate (x y z : double) (local : Point) : Point :=
  mkPoint (coord0 local + x) (coord1 local + y) (coord2 local + z).

Definition wire_at (x y z : double) : WireGeo.t :=
  WireGeo.mk (mkPoint x y z).

Definition plane_at (x y z : double) : PlaneGeo.t :=
  PlaneGeo.mk (translate x y z).

(** The half-width of the band at local z in exact arithmetic: the
    linear interpolation between [w1] at the face z = -len/2 and [w2] at
    the face z = +len/2. *)
Definition band_half_width (len w1 w2 z : Q) : Q :=
  w1 + (w2 - w1) * ((z - - (len / 2)) / len).

(** The half-width of the band at local z in double arithmetic, from the
    half-width [c] at the centre: [c - z * (c - w2) / (0.5 * len)]. *)
Definition band_half_width_fp (len w1 w2 z : double) : fp :=
  let c := (Num 0.5 * (Num w1 + Num w2))%fp in
  (c - Num z * (c - Num w2) / (Num 0.5 * Num len))%fp.

(** [x] lies within +-[bound]. *)
Definition within (x : double) (bound : fp) : bool :=
  (fp_abs (Num x) <=? bound)%fp.

(** The containment test as the specification words it, on the local
    coordinates of the point, in double arithmetic. *)
Definition inside_band (local : Point) (len hh w1 w2 tol : double) : bool :=
  within (coord2 local) (Num len / Num 2 + Num tol)%fp
  && within (coord1 local) (Num hh + Num tol)%fp
  && within (coord0 local)
       (band_half_width_fp len w1 w2 (coord2 local) + Num tol)%fp.

(** The test of a rectangular box of half-width [w]. *)
Definition inside_box (local : Point) (len hh w tol : double) : bool :=
  within (coord2 local) (Num len / Num 2 + Num tol)%fp
  && within (coord1 local) (Num hh + Num tol)%fp
  && within (coord0 local) (Num w + Num tol)%fp.

(** A rational that is a finite double. *)
Definition is_double (q : Q) : Prop :=
  round_to_double q == q /\ Qabs q <= DBL_MAX.

(** Two values that compare equal: the same number, zeros of either
    sign, the same infinity, or both not a number. *)
Definition fp_same (a b : fp) : Prop :=
  match a, b with
  | NaN, NaN => True
  | Inf s, Inf s' => s = s'
  | NaN, _ | _, NaN | Inf _, _ | _, Inf _ => False
  | _, _ => value a == value b
  end.

Definition finite (a : fp) : Prop :=
  match a with Num _ | NegZero => True | _ => False end.

(** The decimal numeral of a natural number. *)
Definition decimal (n : N) : string := NilEmpty.string_of_uint (N.to_uint n).

(** An AuxDet and a sensitive volume of a given volume name (a box with
    unit half-extents at the origin). *)
Definition auxdet_named (name : string) : AuxDetGeo.t :=
  AuxDetGeo.mk name (fun p => p) 1 1 1 1 [].

Definition sensitive_named (name : string) : AuxDetSensitiveGeo.t :=
  AuxDetSensitiveGeo.mk name (fun p => p) 1 1 1 1.

(** What the comparisons of the auxiliary detectors read from a volume
    name: whether [substr(9, ...)] succeeds on it, and the number [atoi]
    makes of its characters from position 9 on. *)
Definition name_fits (name : string) : bool :=
  negb (String.length name <? 9)%nat.

Definition name_number (name : string) : Z :=
  atoi (substring 9 (String.length name) name).

(** The sensitive-channel table with other channel numbers stored in
    its vectors. *)
Definition relabel_channels (f : N -> N) (m : std_map (list (N * N)))
  : std_map (list (N * N)) :=
  map (fun e => (fst e, map (fun p => (f (fst p), snd p)) (snd e))) m.

(** Two runs of a sort that can throw end alike: both return, with
    collections related position by position, or both throw the same
    exception. *)
Definition same_outcome {A : Type} (R : A -> A -> Prop)
  (r1 r2 : result (list A)) : Prop :=
  match r1, r2 with
  | Ok l1, Ok l2 => Forall2 R l1 l2
  | Throw e1, Throw e2 => e1 = e2
  | _, _ => False
  end.

(** The elements of [l] are pairwise different and any two of them lie
    further apart in the key [k] than the tolerance. *)
Definition separated {A : Type} (k : A -> double) (l : list A) : Prop :=
  NoDup l
  /\ forall a b, In a l -> In b l ->
                 a = b \/ beyond_tolerance (k a) (k b) = true.

(** * Properties *)

(** ** Powers of two and the binary logarithm *)

Lemma two_neq_0 : ~ 2 == 0.
Proof. discriminate. Qed.

Lemma pow2_pos (e : Z) : 0 < 2 ^ e.
Proof. apply Qpower_0_lt. reflexivity. Qed.

Lemma pow2_succ (e : Z) : 2 ^ (e + 1) == 2 * 2 ^ e.
Proof. rewrite Qpower_plus by discriminate. ring. Qed.

Lemma pow2_le (a b : Z) : (a <= b)%Z -> 2 ^ a <= 2 ^ b.
Proof. intros H. apply Qpower_le_compat_l; [exact H | discriminate]. Qed.

Lemma pow2_lt (a b : Z) : (a < b)%Z -> 2 ^ a < 2 ^ b.
Proof. intros H. apply Qpower_lt_compat_l; [exact H | reflexivity]. Qed.

Lemma pow2_inject (k : Z) : (0 <= k)%Z -> 2 ^ k == inject_Z (2 ^ k).
Proof. intros H. rewrite Zpower_Qpower by exact H. reflexivity. Qed.

Lemma Zlog2_bracket_Q (n : Z) :
  (0 < n)%Z -> 2 ^ Z.log2 n <= inject_Z n /\ inject_Z n < 2 ^ (Z.log2 n + 1).
Proof.
  intros H. destruct (Z.log2_spec n H) as [L U].
  pose proof (Z.log2_nonneg n) as Hn.
  rewrite !pow2_inject by lia. split.
  - rewrite <- Zle_Qle. exact L.
  - rewrite <- Zlt_Qlt. replace (Z.log2 n + 1)%Z with (Z.succ (Z.log2 n)) by lia.
    exact U.
Qed.

Lemma ilog2_spec (x : Q) :
  0 < x -> 2 ^ ilog2 x <= x /\ x < 2 ^ (ilog2 x + 1).
Proof.
  intros Hx. unfold ilog2.
  destruct x as [n d]. cbn [Qnum Qden].
  assert (0 < n)%Z as Hn.
  { unfold Qlt in Hx. simpl in Hx. lia. }
  destruct (Zlog2_bracket_Q n Hn) as [Ln Un].
  destruct (Zlog2_bracket_Q (Zpos d) eq_refl) as [Ld Ud].
  set (ln := Z.log2 n) in *. set (ld := Z.log2 (Z.pos d)) in *.
  assert (n # d == inject_Z n / inject_Z (Zpos d)) as E.
  { rewrite Qmake_Qdiv. reflexivity. }
  assert (0 < inject_Z (Zpos d)) as Hd by reflexivity.
  pose proof (pow2_pos ld) as Pld.
  destruct (Qle_bool (2 ^ (ln - ld)) (n # d)) eqn:B.
  - apply Qle_bool_iff in B. split; [exact B |].
    rewrite E. apply Qlt_shift_div_r; [exact Hd |].
    assert (2 ^ (ln - ld + 1) * 2 ^ ld == 2 ^ (ln + 1)) as P.
    { rewrite <- Qpower_plus by discriminate. f_equiv. lia. }
    pose proof (pow2_pos (ln - ld + 1)) as Pe.
    nra.
  - assert (n # d < 2 ^ (ln - ld)) as B'.
    { apply Qnot_le_lt. intros C. apply Qle_bool_iff in C. congruence. }
    replace (ln - ld - 1 + 1)%Z with (ln - ld)%Z by lia.
    split; [| exact B'].
    rewrite E. apply Qle_shift_div_l; [exact Hd |].
    assert (2 ^ (ln - ld - 1) * 2 ^ (ld + 1) == 2 ^ ln) as P.
    { rewrite <- Qpower_plus by discriminate. f_equiv. lia. }
    pose proof (pow2_pos (ln - ld - 1)) as Pe.
    nra.
Qed.

Lemma ilog2_unique (x : Q) (e : Z) :
  2 ^ e <= x -> x < 2 ^ (e + 1) -> ilog2 x = e.
Proof.
  intros L U.
  assert (0 < x) as Hx by (pose proof (pow2_pos e); lra).
  destruct (ilog2_spec x Hx) as [L' U'].
  assert (2 ^ e < 2 ^ (ilog2 x + 1)) as A by lra.
  assert (2 ^ ilog2 x < 2 ^ (e + 1)) as B by lra.
  apply Qpower_lt_compat_l_inv in A; [| reflexivity].
  apply Qpower_lt_compat_l_inv in B; [| reflexivity].
  lia.
Qed.

Lemma ilog2_comp (x y : Q) : 0 < x -> x == y -> ilog2 x = ilog2 y.
Proof.
  intros Hx E. symmetry. apply ilog2_unique.
  - rewrite <- E. apply ilog2_spec, Hx.
  - rewrite <- E. apply ilog2_spec, Hx.
Qed.

Lemma ilog2_le (x y : Q) : 0 < x -> x <= y -> (ilog2 x <= ilog2 y)%Z.
Proof.
  intros Hx L.
  destruct (ilog2_spec x Hx) as [Lx Ux].
  destruct (ilog2_spec y) as [Ly Uy]; [lra |].
  assert (2 ^ ilog2 x < 2 ^ (ilog2 y + 1)) as A by lra.
  apply Qpower_lt_compat_l_inv in A; [| reflexivity]. lia.
Qed.

(** ** Rounding to the nearest integer *)

Lemma Qfloor_bracket (t : Q) :
  inject_Z (Qfloor t) <= t /\ t < inject_Z (Qfloor t) + 1.
Proof.
  split; [apply Qfloor_le |].
  pose proof (Qlt_floor t) as H. rewrite inject_Z_plus in H. exact H.
Qed.

Lemma Qfloor_unique (t : Q) (n : Z) :
  inject_Z n <= t -> t < inject_Z n + 1 -> Qfloor t = n.
Proof.
  intros L U. destruct (Qfloor_bracket t) as [L' U'].
  assert (inject_Z n < inject_Z (Qfloor t) + 1) as A by lra.
  assert (inject_Z (Qfloor t) < inject_Z n + 1) as B by lra.
  change 1 with (inject_Z 1) in A, B.
  rewrite <- inject_Z_plus, <- Zlt_Qlt in A, B. lia.
Qed.

Lemma round_half_even_cases (t : Q) :
  let f := Qfloor t in
  (t - inject_Z f < 1 # 2 /\ round_half_even t = f)
  \/ (1 # 2 < t - inject_Z f /\ round_half_even t = (f + 1)%Z)
  \/ (t - inject_Z f == 1 # 2
      /\ round_half_even t = if Z.even f then f else (f + 1)%Z).
Proof.
  intros f. unfold round_half_even. fold f.
  destruct (Qcompare_spec (t - inject_Z f) (1 # 2)) as [E | L | G].
  - right; right. split; [exact E | reflexivity].
  - left. split; [exact L | reflexivity].
  - right; left. split; [exact G | reflexivity].
Qed.

Lemma round_half_even_near (t : Q) :
  inject_Z (round_half_even t) - (1 # 2) <= t
  /\ t <= inject_Z (round_half_even t) + (1 # 2).
Proof.
  destruct (Qfloor_bracket t) as [L U].
  destruct (round_half_even_cases t) as [[H ->] | [[H ->] | [H ->]]].
  - lra.
  - rewrite inject_Z_plus. change (inject_Z 1) with 1. lra.
  - destruct (Z.even (Qfloor t)).
    + lra.
    + rewrite inject_Z_plus. change (inject_Z 1) with 1. lra.
Qed.

Lemma round_half_even_comp (t t' : Q) :
  t == t' -> round_half_even t = round_half_even t'.
Proof.
  intros E. unfold round_half_even. rewrite (Qfloor_comp _ _ E).
  assert (t - inject_Z (Qfloor t') == t' - inject_Z (Qfloor t')) as E'
    by (rewrite E; reflexivity).
  rewrite (Qcompare_comp _ _ E' (1 # 2) (1 # 2) (Qeq_refl _)).
  reflexivity.
Qed.

Lemma round_half_even_Z (n : Z) : round_half_even (inject_Z n) = n.
Proof.
  unfold round_half_even. rewrite Qfloor_Z.
  assert (inject_Z n - inject_Z n == 0) as E by ring.
  rewrite (Qcompare_comp _ _ E (1 # 2) (1 # 2) (Qeq_refl _)). reflexivity.
Qed.

Lemma Zlt_Q_succ (a b : Z) : inject_Z a < inject_Z b + 1 -> (a <= b)%Z.
Proof.
  intros H. change 1 with (inject_Z 1) in H.
  rewrite <- inject_Z_plus, <- Zlt_Qlt in H. lia.
Qed.

Lemma round_half_even_le (t t' : Q) :
  t <= t' -> (round_half_even t <= round_half_even t')%Z.
Proof.
  intros H.
  pose proof (Qfloor_resp_le _ _ H) as Hf.
  destruct (Qfloor_bracket t) as [L U]. destruct (Qfloor_bracket t') as [L' U'].
  destruct (Z.eq_dec (Qfloor t) (Qfloor t')) as [E | N].
  - destruct (round_half_even_cases t) as [[C ->] | [[C ->] | [C ->]]];
      destruct (round_half_even_cases t') as [[C' ->] | [[C' ->] | [C' ->]]];
      rewrite <- ?E in *; try destruct (Z.even (Qfloor t)); try lia;
      exfalso; lra.
  - assert (Qfloor t + 1 <= Qfloor t')%Z as S by lia.
    assert (round_half_even t <= Qfloor t + 1)%Z as A.
    { destruct (round_half_even_cases t) as [[C ->] | [[C ->] | [C ->]]];
        try destruct (Z.even (Qfloor t)); lia. }
    assert (Qfloor t' <= round_half_even t')%Z as B.
    { destruct (round_half_even_cases t') as [[C ->] | [[C ->] | [C ->]]];
        try destruct (Z.even (Qfloor t')); lia. }
    lia.
Qed.

Lemma round_half_even_ge_Z (t : Q) (n : Z) :
  inject_Z n <= t -> (n <= round_half_even t)%Z.
Proof.
  intros H. rewrite <- (round_half_even_Z n). apply round_half_even_le, H.
Qed.

Lemma round_half_even_le_Z (t : Q) (n : Z) :
  t <= inject_Z n -> (round_half_even t <= n)%Z.
Proof.
  intros H. rewrite <- (round_half_even_Z n). apply round_half_even_le, H.
Qed.

(** Above the middle between [n] and [n + 1], up to [n + 1] at least. *)
Lemma round_half_even_above (t : Q) (n : Z) :
  inject_Z n + (1 # 2) < t -> (n + 1 <= round_half_even t)%Z.
Proof.
  intros H. pose proof (round_half_even_near t) as [_ U].
  apply Zlt_Q_succ.
  rewrite inject_Z_plus. change (inject_Z 1) with 1. lra.
Qed.

Lemma round_half_even_below (t : Q) (n : Z) :
  t < inject_Z n + (1 # 2) -> (round_half_even t <= n)%Z.
Proof.
  intros H. pose proof (round_half_even_near t) as [L _].
  apply Zlt_Q_succ. lra.
Qed.

Lemma round_half_even_opp (t : Q) :
  round_half_even (- t) = (- round_half_even t)%Z.
Proof.
  destruct (Qfloor_bracket t) as [L U].
  set (f := Qfloor t) in *.
  destruct (Qeq_dec t (inject_Z f)) as [E | N].
  - rewrite (round_half_even_comp t (inject_Z f) E).
    rewrite (round_half_even_comp (- t) (inject_Z (- f))).
    + rewrite !round_half_even_Z. reflexivity.
    + rewrite E, inject_Z_opp. reflexivity.
  - assert (inject_Z f < t) as L'.
    { apply Qle_lteq in L. destruct L as [L | L]; [exact L |].
      exfalso. apply N. symmetry. exact L. }
    assert (Qfloor (- t) = (- f - 1)%Z) as Ef.
    { apply Qfloor_unique; unfold Z.sub;
        rewrite inject_Z_plus, !inject_Z_opp; change (inject_Z 1) with 1;
        lra. }
    pose proof (round_half_even_cases t) as C. fold f in C.
    pose proof (round_half_even_cases (- t)) as C'. rewrite Ef in C'.
    unfold Z.sub in C'.
    rewrite !inject_Z_plus, !inject_Z_opp in C'.
    change (inject_Z 1) with 1 in C'.
    replace (Z.even (- f + - (1))) with (negb (Z.even f)) in C'.
    2:{ rewrite Z.even_add, Z.even_opp. destruct (Z.even f); reflexivity. }
    destruct C as [[H ->] | [[H ->] | [H ->]]];
      destruct C' as [[H' ->] | [[H' ->] | [H' ->]]];
      try destruct (Z.even f); simpl; try lia; exfalso; lra.
Qed.

(** ** Rounding to binary64 *)

Lemma quantum_comp (x y : Q) : 0 < x -> x == y -> quantum x = quantum y.
Proof. intros Hx E. unfold quantum. rewrite (ilog2_comp x y Hx E). reflexivity. Qed.

Lemma quantum_le (x y : Q) : 0 < x -> x <= y -> (quantum x <= quantum y)%Z.
Proof. intros Hx L. unfold quantum. pose proof (ilog2_le x y Hx L). lia. Qed.

Lemma round_magnitude_comp (x y : Q) :
  0 < x -> x == y -> round_magnitude x == round_magnitude y.
Proof.
  intros Hx E. unfold round_magnitude.
  rewrite (quantum_comp x y Hx E).
  rewrite (round_half_even_comp (x / 2 ^ quantum y) (y / 2 ^ quantum y))
    by (rewrite E; reflexivity).
  reflexivity.
Qed.

Lemma div_pow2_le (x y : Q) (q : Z) : x <= y -> x / 2 ^ q <= y / 2 ^ q.
Proof.
  intros H. pose proof (pow2_pos q) as P.
  apply Qle_shift_div_l; [exact P |].
  unfold Qdiv. rewrite <- Qmult_assoc, (Qmult_comm (/ _)), Qmult_inv_r, Qmult_1_r.
  - exact H.
  - intros C. rewrite C in P. discriminate.
Qed.

Lemma div_pow2_lt (x y : Q) (q : Z) : x < y -> x / 2 ^ q < y / 2 ^ q.
Proof.
  intros H. pose proof (pow2_pos q) as P.
  apply Qlt_shift_div_l; [exact P |].
  unfold Qdiv. rewrite <- Qmult_assoc, (Qmult_comm (/ _)), Qmult_inv_r, Qmult_1_r.
  - exact H.
  - intros C. rewrite C in P. discriminate.
Qed.

Lemma mul_div_pow2 (t : Q) (q : Z) : t * 2 ^ q / 2 ^ q == t.
Proof.
  pose proof (pow2_pos q) as P. field. intros C. rewrite C in P. discriminate.
Qed.

(** On the grid of spacing [2 ^ quantum x], rounding does not pass a
    point of the grid. *)
Lemma round_magnitude_le_grid (x : Q) (N : Z) :
  x <= inject_Z N * 2 ^ quantum x ->
  round_magnitude x <= inject_Z N * 2 ^ quantum x.
Proof.
  intros H. unfold round_magnitude. pose proof (pow2_pos (quantum x)) as P.
  apply Qmult_le_compat_r; [| lra].
  rewrite <- Zle_Qle. apply round_half_even_le_Z.
  rewrite <- (mul_div_pow2 (inject_Z N) (quantum x)).
  apply div_pow2_le, H.
Qed.

Lemma round_magnitude_ge_grid (x : Q) (N : Z) :
  inject_Z N * 2 ^ quantum x <= x ->
  inject_Z N * 2 ^ quantum x <= round_magnitude x.
Proof.
  intros H. unfold round_magnitude. pose proof (pow2_pos (quantum x)) as P.
  apply Qmult_le_compat_r; [| lra].
  rewrite <- Zle_Qle. apply round_half_even_ge_Z.
  rewrite <- (mul_div_pow2 (inject_Z N) (quantum x)).
  apply div_pow2_le, H.
Qed.

Lemma round_magnitude_nonneg (x : Q) : 0 <= x -> 0 <= round_magnitude x.
Proof.
  intros H. pose proof (round_magnitude_ge_grid x 0) as G.
  rewrite Qmult_0_l in G. apply G, H.
Qed.

(** A power of two at or above the spacing is a point of the grid. *)
Lemma pow2_on_grid (e q : Z) :
  (q <= e)%Z -> 2 ^ e == inject_Z (2 ^ (e - q)) * 2 ^ q.
Proof.
  intros H. rewrite <- pow2_inject by lia.
  rewrite <- Qpower_plus by discriminate. f_equiv. lia.
Qed.

Lemma round_magnitude_le (x y : Q) :
  0 < x -> x <= y -> round_magnitude x <= round_magnitude y.
Proof.
  intros Hx L.
  assert (0 < y) as Hy by lra.
  pose proof (quantum_le x y Hx L) as Hq.
  destruct (Z.eq_dec (quantum x) (quantum y)) as [E | N].
  - unfold round_magnitude. rewrite E.
    pose proof (pow2_pos (quantum y)) as P.
    apply Qmult_le_compat_r; [| lra].
    rewrite <- Zle_Qle. apply round_half_even_le, div_pow2_le, L.
  - (* the binade of [y] starts at a point of both grids *)
    destruct (ilog2_spec x Hx) as [Lx Ux]. destruct (ilog2_spec y Hy) as [Ly Uy].
    assert (ilog2 x < ilog2 y)%Z as He by (unfold quantum in *; lia).
    assert (quantum y = ilog2 y - 52)%Z as Ey by (unfold quantum in *; lia).
    assert (quantum x <= ilog2 y)%Z as Hxy by (unfold quantum in *; lia).
    apply (Qle_trans _ (2 ^ ilog2 y)).
    + rewrite (pow2_on_grid (ilog2 y) (quantum x) Hxy).
      apply round_magnitude_le_grid.
      rewrite <- (pow2_on_grid (ilog2 y) (quantum x) Hxy).
      apply Qlt_le_weak, (Qlt_le_trans _ _ _ Ux), pow2_le. lia.
    + assert (quantum y <= ilog2 y)%Z as Hyy by lia.
      rewrite (pow2_on_grid (ilog2 y) (quantum y) Hyy).
      apply round_magnitude_ge_grid.
      rewrite <- (pow2_on_grid (ilog2 y) (quantum y) Hyy). exact Ly.
Qed.

Lemma Qcompare_0_comp (x y : Q) : x == y -> Qcompare x 0 = Qcompare y 0.
Proof. intros E. apply Qcompare_comp; [exact E | reflexivity]. Qed.

Lemma round_to_double_comp (x y : Q) :
  x == y -> round_to_double x == round_to_double y.
Proof.
  intros E. unfold round_to_double. rewrite (Qcompare_0_comp x y E).
  destruct (Qcompare_spec y 0) as [Z0 | L | G].
  - reflexivity.
  - apply Qopp_comp, round_magnitude_comp; [lra | rewrite E; reflexivity].
  - apply round_magnitude_comp; [lra | exact E].
Qed.

Lemma round_to_double_0 : round_to_double 0 == 0.
Proof. reflexivity. Qed.

Lemma round_to_double_pos (x : Q) :
  0 < x -> round_to_double x = round_magnitude x.
Proof.
  intros H. unfold round_to_double.
  destruct (Qcompare_spec x 0) as [E | L | G]; [lra | lra | reflexivity].
Qed.

Lemma round_to_double_neg (x : Q) :
  x < 0 -> round_to_double x = - round_magnitude (- x).
Proof.
  intros H. unfold round_to_double.
  destruct (Qcompare_spec x 0) as [E | L | G]; [lra | reflexivity | lra].
Qed.

Lemma round_to_double_opp (x : Q) :
  round_to_double (- x) == - round_to_double x.
Proof.
  destruct (Q_dec x 0) as [[L | G] | E].
  - rewrite (round_to_double_pos (- x)), (round_to_double_neg x) by lra. ring.
  - rewrite (round_to_double_neg (- x)), (round_to_double_pos x) by lra.
    apply Qopp_comp, round_magnitude_comp; [lra | ring].
  - rewrite (round_to_double_comp x 0 E).
    rewrite (round_to_double_comp (- x) 0) by (rewrite E; reflexivity).
    reflexivity.
Qed.

Lemma round_to_double_nonneg (x : Q) : 0 <= x -> 0 <= round_to_double x.
Proof.
  intros H. unfold round_to_double.
  destruct (Qcompare_spec x 0) as [E | L | G]; [lra | lra |].
  apply round_magnitude_nonneg, H.
Qed.

Lemma round_to_double_le (x y : Q) :
  x <= y -> round_to_double x <= round_to_double y.
Proof.
  intros L.
  destruct (Q_dec x 0) as [[Lx | Gx] | Ex].
  - destruct (Qlt_le_dec y 0) as [Ly | Gy].
    + rewrite (round_to_double_neg x Lx), (round_to_double_neg y Ly).
      apply Qopp_le_compat, round_magnitude_le; lra.
    + rewrite (round_to_double_neg x Lx).
      pose proof (round_to_double_nonneg y Gy).
      pose proof (round_magnitude_nonneg (- x)). lra.
  - rewrite (round_to_double_pos x Gx), (round_to_double_pos y) by lra.
    apply round_magnitude_le; assumption.
  - rewrite (round_to_double_comp x 0 Ex). apply round_to_double_nonneg. lra.
Qed.

Lemma round_to_double_abs (x : Q) :
  Qabs (round_to_double x) == round_to_double (Qabs x).
Proof.
  destruct (Qlt_le_dec x 0) as [L | G].
  - rewrite (round_to_double_comp (Qabs x) (- x)) by (apply Qabs_neg; lra).
    rewrite round_to_double_opp.
    apply Qabs_neg. rewrite <- round_to_double_0.
    apply round_to_double_le. lra.
  - rewrite (round_to_double_comp (Qabs x) x) by (apply Qabs_pos, G).
    apply Qabs_pos, round_to_double_nonneg, G.
Qed.

(** ** The tolerance of the sorter *)

Lemma DistanceTol_value :
  DistanceTol == 1152921504606847 # 1152921504606846976.
Proof. vm_compute. reflexivity. Qed.

Lemma tie_limit_value : tie_limit == 9223372036854777 # 9223372036854775808.
Proof. vm_compute. reflexivity. Qed.

Lemma round_above_tie_limit (y : Q) :
  tie_limit < y -> DistanceTol < round_to_double y.
Proof.
  intros H.
  assert (0 < y) as Hy by (revert H; unfold tie_limit; vm_compute (DistanceTol + _); intros; lra).
  set (next := DistanceTol + 2 ^ (-62)).
  destruct (Qlt_le_dec y next) as [L | G].
  - assert (ilog2 y = (-10)%Z) as El.
    { apply ilog2_unique.
      - apply Qlt_le_weak, (Qle_lt_trans _ tie_limit); [| exact H].
        vm_compute. discriminate.
      - apply (Qlt_trans _ next); [exact L |]. vm_compute. reflexivity. }
    assert (quantum y = (-62)%Z) as Equ by (unfold quantum; rewrite El; reflexivity).
    rewrite (round_to_double_pos y Hy).
    apply (Qlt_le_trans _ (inject_Z 4611686018427388 * 2 ^ (-62) + 2 ^ (-62))).
    { vm_compute. reflexivity. }
    unfold round_magnitude. rewrite Equ.
    assert (4611686018427388 + 1 <= round_half_even (y / 2 ^ (-62)))%Z as R.
    { apply round_half_even_above.
      apply (Qle_lt_trans _ (tie_limit / 2 ^ (-62))).
      - vm_compute. discriminate.
      - apply div_pow2_lt, H. }
    rewrite Zle_Qle, inject_Z_plus in R. change (inject_Z 1) with 1 in R.
    pose proof (pow2_pos (-62)) as P.
    set (r := inject_Z (round_half_even _)) in *.
    set (p := 2 ^ (-62)) in *. nra.
  - apply (Qlt_le_trans _ (round_to_double next)).
    + vm_compute. reflexivity.
    + apply round_to_double_le, G.
Qed.

Lemma round_within_tol (x : Q) :
  Qabs (round_to_double x) <= DistanceTol <-> Qabs x <= tie_limit.
Proof.
  rewrite round_to_double_abs. split.
  - intros H. apply Qnot_lt_le. intros C.
    apply round_above_tie_limit in C. lra.
  - intros H. apply (Qle_trans _ (round_to_double tie_limit)).
    + apply round_to_double_le, H.
    + vm_compute. discriminate.
Qed.

Lemma round_beyond_tol (x : Q) :
  DistanceTol < Qabs (round_to_double x) <-> tie_limit < Qabs x.
Proof.
  split; intros H.
  - apply Qnot_le_lt. intros C. apply round_within_tol in C. lra.
  - apply Qnot_le_lt. intros C. apply round_within_tol in C. lra.
Qed.


(** ** Operations of binary64 *)

Lemma Qltb_lt (x y : double) : Qltb x y = true <-> x < y.
Proof.
  unfold Qltb. rewrite negb_true_iff. split.
  - intros H. apply Qnot_le_lt. intros Hle.
    apply Qle_bool_iff in Hle. congruence.
  - intros H. destruct (Qle_bool y x) eqn:E; trivial.
    apply Qle_bool_iff in E. apply Qlt_not_le in H. contradiction.
Qed.

Lemma Qltb_ge (x y : double) : Qltb x y = false <-> y <= x.
Proof.
  unfold Qltb. rewrite negb_false_iff. apply Qle_bool_iff.
Qed.

Lemma Qle_bool_gt (x y : Q) : Qle_bool x y = false <-> y < x.
Proof.
  split.
  - intros H. apply Qnot_le_lt. intros C. apply Qle_bool_iff in C. congruence.
  - intros H. destruct (Qle_bool x y) eqn:E; [| reflexivity].
    apply Qle_bool_iff in E. lra.
Qed.

Lemma Qeq_bool_false (x y : Q) : Qeq_bool x y = false <-> ~ x == y.
Proof.
  split.
  - apply Qeq_bool_neq.
  - intros H. destruct (Qeq_bool x y) eqn:E; [| reflexivity].
    apply Qeq_bool_iff in E. contradiction.
Qed.

Ltac bool_to_Q :=
  repeat match goal with
    | H : Qltb _ _ = true |- _ => apply Qltb_lt in H
    | H : Qltb _ _ = false |- _ => apply Qltb_ge in H
    | H : Qle_bool _ _ = true |- _ => apply Qle_bool_iff in H
    | H : Qle_bool _ _ = false |- _ => apply Qle_bool_gt in H
    | H : Qeq_bool _ _ = true |- _ => apply Qeq_bool_iff in H
    | H : Qeq_bool _ _ = false |- _ => apply Qeq_bool_false in H
    | |- Qltb _ _ = true => apply Qltb_lt
    | |- Qltb _ _ = false => apply Qltb_ge
    | |- Qle_bool _ _ = true => apply Qle_bool_iff
    | |- Qle_bool _ _ = false => apply Qle_bool_gt
    | |- Qeq_bool _ _ = true => apply Qeq_bool_iff
    | |- Qeq_bool _ _ = false => apply Qeq_bool_false
    end.

(** Destruct every comparison of rationals that the goal tests. *)
Ltac split_tests :=
  repeat match goal with
    | |- context [Qltb ?a ?b] =>
        let E := fresh "T" in destruct (Qltb a b) eqn:E
    | |- context [Qle_bool ?a ?b] =>
        let E := fresh "T" in destruct (Qle_bool a b) eqn:E
    | |- context [Qeq_bool ?a ?b] =>
        let E := fresh "T" in destruct (Qeq_bool a b) eqn:E
    end.

Ltac split_abs :=
  repeat match goal with
    | H : context [Qabs ?x] |- _ =>
        let A := fresh "A" in
        destruct (Qabs_case x) as [A | A]; rewrite ?A in *; clear A
    | |- context [Qabs ?x] =>
        let A := fresh "A" in
        destruct (Qabs_case x) as [A | A]; rewrite ?A in *; clear A
    end.

Lemma Qabs_cases (x : Q) :
  (0 <= x /\ Qabs x == x) \/ (x <= 0 /\ Qabs x == - x).
Proof.
  destruct (Qlt_le_dec x 0) as [L | G].
  - right. split; [lra | apply Qabs_neg; lra].
  - left. split; [exact G | apply Qabs_pos, G].
Qed.

Lemma fp_same_refl (a : fp) : fp_same a a.
Proof. destruct a; simpl; reflexivity || exact I. Qed.

Lemma fp_same_sym (a b : fp) : fp_same a b -> fp_same b a.
Proof. destruct a, b; simpl; auto; intros H; symmetry; exact H. Qed.

Lemma fp_same_trans (a b c : fp) : fp_same a b -> fp_same b c -> fp_same a c.
Proof.
  destruct a, b, c; simpl; try contradiction; auto;
    try (intros H1 H2; rewrite H1; exact H2); try congruence.
Qed.

Lemma Qabs_gt_iff (x m : Q) : m < Qabs x <-> x < - m \/ m < x.
Proof.
  destruct (Qabs_cases x) as [[H E] | [H E]]; rewrite E; split; intros C;
    try lra; destruct C; lra.
Qed.

Lemma Qabs_le_iff (x r : Q) : Qabs x <= r <-> - r <= x <= r.
Proof. apply Qabs_Qle_condition. Qed.

Lemma DBL_MAX_pos : 0 < DBL_MAX.
Proof. reflexivity. Qed.

Lemma fp_round_cases (x : Q) :
  ((round_to_double x < - DBL_MAX \/ DBL_MAX < round_to_double x)
   /\ fp_round x = Inf (Qltb x 0))
  \/ (round_to_double x == 0 /\ fp_round x = zero (Qltb x 0))
  \/ (- DBL_MAX <= round_to_double x <= DBL_MAX /\ ~ round_to_double x == 0
      /\ fp_round x = Num (round_to_double x)).
Proof.
  unfold fp_round; cbv zeta.
  destruct (Qltb DBL_MAX (Qabs (round_to_double x))) eqn:O; bool_to_Q.
  - left. apply Qabs_gt_iff in O. split; [exact O | reflexivity].
  - apply Qabs_le_iff in O.
    destruct (Qeq_bool (round_to_double x) 0) eqn:Z0; bool_to_Q.
    + right; left. split; [exact Z0 | reflexivity].
    + right; right. repeat split; tauto.
Qed.

Lemma Qltb_comp (x x' y y' : Q) : x == x' -> y == y' -> Qltb x y = Qltb x' y'.
Proof. intros Hx Hy. unfold Qltb. rewrite Hx, Hy. reflexivity. Qed.

Lemma Qeq_bool_ext (x x' y y' : Q) :
  x == x' -> y == y' -> Qeq_bool x y = Qeq_bool x' y'.
Proof.
  intros Hx Hy.
  destruct (Qeq_bool x y) eqn:E1, (Qeq_bool x' y') eqn:E2; try reflexivity;
    bool_to_Q; exfalso.
  - apply E2. rewrite <- Hx, <- Hy. exact E1.
  - apply E1. rewrite Hx, Hy. exact E2.
Qed.

Lemma Qle_bool_ext (x x' y y' : Q) :
  x == x' -> y == y' -> Qle_bool x y = Qle_bool x' y'.
Proof. intros Hx Hy. rewrite Hx, Hy. reflexivity. Qed.

Lemma zero_same (s s' : bool) : fp_same (zero s) (zero s').
Proof. destruct s, s'; simpl; reflexivity. Qed.

Lemma fp_round_comp (x y : Q) : x == y -> fp_same (fp_round x) (fp_round y).
Proof.
  intros E. unfold fp_round; cbv zeta.
  pose proof (round_to_double_comp x y E) as R.
  rewrite (Qltb_comp _ DBL_MAX (Qabs (round_to_double x))
             (Qabs (round_to_double y)) (Qeq_refl _))
    by (rewrite R; reflexivity).
  rewrite (Qltb_comp x y 0 0 E (Qeq_refl _)).
  rewrite (Qeq_bool_ext _ _ 0 0 R (Qeq_refl _)).
  destruct (Qltb DBL_MAX _); [reflexivity |].
  destruct (Qeq_bool _ 0); [apply zero_same | exact R].
Qed.

Lemma Qltb_opp_0 (x : Q) : ~ x == 0 -> Qltb (- x) 0 = negb (Qltb x 0).
Proof.
  intros H. destruct (Qltb x 0) eqn:E; simpl; bool_to_Q; [lra |].
  destruct (Qeq_dec x 0); [contradiction | ]. 
  assert (0 < x) by (apply Qle_lteq in E; destruct E as [E | E]; [exact E | exfalso; apply H; symmetry; exact E]).
  lra.
Qed.

Lemma fp_neg_zero (s : bool) : fp_same (fp_neg (zero s)) (zero (negb s)).
Proof. destruct s; simpl; reflexivity. Qed.

Lemma round_to_double_0_iff_small (x : Q) :
  x == 0 -> round_to_double x == 0.
Proof. intros E. rewrite (round_to_double_comp x 0 E). reflexivity. Qed.

Lemma round_to_double_sign (x : Q) :
  (0 <= x -> 0 <= round_to_double x) /\ (x <= 0 -> round_to_double x <= 0).
Proof.
  split; intros H.
  - apply round_to_double_nonneg, H.
  - rewrite <- round_to_double_0. apply round_to_double_le, H.
Qed.

Lemma fp_round_opp (x : Q) : fp_same (fp_round (- x)) (fp_neg (fp_round x)).
Proof.
  pose proof (round_to_double_opp x) as R.
  pose proof DBL_MAX_pos as M.
  pose proof (round_to_double_sign x) as [S1 S2].
  destruct (fp_round_cases x) as [[O ->] | [[Z0 ->] | [B [NZ ->]]]];
    destruct (fp_round_cases (- x)) as [[O' ->] | [[Z0' ->] | [B' [NZ' ->]]]];
    set (r := round_to_double x) in *; set (r' := round_to_double (- x)) in *;
    set (m := DBL_MAX) in *;
    try (exfalso; lra); try (exfalso; destruct O; lra);
    try (exfalso; destruct O'; lra).
  - simpl. apply Qltb_opp_0. intros E.
    assert (0 <= r) by (apply S1; lra). assert (r <= 0) by (apply S2; lra).
    destruct O; lra.
  - apply (fp_same_trans _ (zero (negb (Qltb x 0)))).
    + apply zero_same.
    + apply fp_same_sym, fp_neg_zero.
  - simpl. fold r. destruct (Qeq_bool r 0) eqn:E; bool_to_Q;
      [contradiction | exact R].
Qed.

Lemma value_neg (a : fp) : finite a -> value (fp_neg a) == - value a.
Proof.
  destruct a as [q | | s |]; simpl; try contradiction; intros _.
  - destruct (Qeq_bool q 0) eqn:E; bool_to_Q; simpl; [rewrite E |]; reflexivity.
  - reflexivity.
Qed.

Lemma finite_neg (a : fp) : finite a -> finite (fp_neg a).
Proof.
  destruct a as [q | | s |]; simpl; try contradiction; intros _; [| exact I].
  destruct (Qeq_bool q 0); exact I.
Qed.

Lemma fp_same_finite (a b : fp) :
  finite a -> finite b -> (fp_same a b <-> value a == value b).
Proof. destruct a, b; simpl; try contradiction; reflexivity. Qed.

Lemma fp_same_finite_l (a b : fp) : fp_same a b -> finite a -> finite b.
Proof. destruct a, b; simpl; try contradiction; auto. Qed.

Lemma fp_neg_same (a b : fp) : fp_same a b -> fp_same (fp_neg a) (fp_neg b).
Proof.
  destruct a as [p | | s |], b as [q | | s' |]; simpl; try contradiction.
  - intros H. rewrite (Qeq_bool_ext p q 0 0 H (Qeq_refl _)).
    destruct (Qeq_bool q 0); simpl; [reflexivity | rewrite H; reflexivity].
  - intros H. destruct (Qeq_bool p 0) eqn:E; bool_to_Q; simpl;
      [reflexivity | contradiction].
  - intros H. destruct (Qeq_bool q 0) eqn:E; bool_to_Q; simpl; [reflexivity |].
    exfalso. apply E. symmetry. exact H.
  - reflexivity.
  - intros ->. reflexivity.
  - trivial.
Qed.

Lemma fp_neg_involutive (a : fp) : fp_same (fp_neg (fp_neg a)) a.
Proof.
  destruct a as [q | | s |]; simpl.
  - destruct (Qeq_bool q 0) eqn:E; bool_to_Q; simpl; [symmetry; exact E |].
    destruct (Qeq_bool (- q) 0) eqn:E'; bool_to_Q; simpl; [lra | ring].
  - reflexivity.
  - apply negb_involutive.
  - exact I.
Qed.

Lemma fp_add_finite (a b : fp) :
  finite a -> finite b -> fp_same (fp_add a b) (fp_round (value a + value b)).
Proof.
  destruct a as [p | | s |], b as [q | | s' |]; simpl; try contradiction;
    intros _ _; try apply fp_same_refl.
  reflexivity.
Qed.

Lemma fp_add_same (a a' b b' : fp) :
  fp_same a a' -> fp_same b b' -> fp_same (fp_add a b) (fp_add a' b').
Proof.
  intros Ha Hb.
  destruct a as [p | | s |], a' as [p' | | t |]; simpl in Ha;
    try contradiction;
    destruct b as [q | | s' |], b' as [q' | | t' |]; simpl in Hb;
    try contradiction; subst;
    try solve [apply fp_same_refl | exact I | reflexivity];
    (eapply fp_same_trans; [apply fp_add_finite; exact I |];
     apply fp_same_sym;
     eapply fp_same_trans; [apply fp_add_finite; exact I |];
     apply fp_round_comp; simpl; lra).
Qed.

Lemma fp_add_neg (a b : fp) :
  fp_same (fp_add (fp_neg a) (fp_neg b)) (fp_neg (fp_add a b)).
Proof.
  destruct a as [p | | s |], b as [q | | s' |];
    try solve [exact I | reflexivity
              | simpl; destruct (Qeq_bool _ 0); reflexivity].
  - eapply fp_same_trans;
      [apply fp_add_finite; apply finite_neg; exact I |].
    eapply fp_same_trans; [| apply fp_neg_same, fp_same_sym, fp_add_finite; exact I].
    eapply fp_same_trans; [| apply fp_round_opp].
    apply fp_round_comp. rewrite !value_neg by exact I. simpl. ring.
  - eapply fp_same_trans;
      [apply fp_add_finite; apply finite_neg; exact I |].
    eapply fp_same_trans; [| apply fp_neg_same, fp_same_sym, fp_add_finite; exact I].
    eapply fp_same_trans; [| apply fp_round_opp].
    apply fp_round_comp. rewrite !value_neg by exact I. simpl. ring.
  - eapply fp_same_trans;
      [apply fp_add_finite; apply finite_neg; exact I |].
    eapply fp_same_trans; [| apply fp_neg_same, fp_same_sym, fp_add_finite; exact I].
    eapply fp_same_trans; [| apply fp_round_opp].
    apply fp_round_comp. rewrite !value_neg by exact I. simpl. ring.
  - simpl. destruct s, s'; simpl; exact I || reflexivity.
Qed.

Lemma fp_sub_neg_l (a b : fp) :
  fp_same (fp_sub (fp_neg a) b) (fp_neg (fp_add a b)).
Proof. apply fp_add_neg. Qed.

Lemma fp_add_neg_l (a b : fp) :
  fp_same (fp_add (fp_neg a) b) (fp_neg (fp_sub a b)).
Proof.
  unfold fp_sub. apply fp_same_sym.
  eapply fp_same_trans; [apply fp_same_sym, fp_add_neg |].
  apply fp_add_same; [apply fp_same_refl | apply fp_neg_involutive].
Qed.

Lemma fp_sub_same (a a' b : fp) :
  fp_same a a' -> fp_same (fp_sub a b) (fp_sub a' b).
Proof. intros H. apply fp_add_same; [exact H | apply fp_same_refl]. Qed.

Lemma signbit_neg (a : fp) :
  finite a -> is_zero a = false -> signbit (fp_neg a) = negb (signbit a).
Proof.
  destruct a as [q | | s |]; simpl; try contradiction; try discriminate.
  intros _ E. rewrite E. simpl. bool_to_Q. apply Qltb_opp_0, E.
Qed.

Lemma is_zero_neg (a : fp) : is_zero (fp_neg a) = is_zero a.
Proof.
  destruct a as [q | | s |]; simpl; try reflexivity.
  destruct (Qeq_bool q 0) eqn:E; simpl; [reflexivity |].
  bool_to_Q. lra.
Qed.

Lemma xorb_negb_l (a b : bool) : xorb (negb a) b = negb (xorb a b).
Proof. destruct a, b; reflexivity. Qed.

Lemma fp_div_finite (a b : fp) :
  finite a -> finite b ->
  fp_div a b
  = if is_zero b
    then if is_zero a then NaN else Inf (xorb (signbit a) (signbit b))
    else if Qeq_bool (value a / value b) 0
         then zero (xorb (signbit a) (signbit b))
         else fp_round (value a / value b).
Proof. destruct a, b; simpl; try contradiction; reflexivity. Qed.

Lemma is_zero_value (a : fp) :
  finite a -> (is_zero a = true <-> value a == 0).
Proof.
  destruct a as [q | | s |]; simpl; try contradiction; intros _.
  - apply Qeq_bool_iff.
  - split; reflexivity.
Qed.

Lemma fp_div_neg_l (a b : fp) :
  fp_same (fp_div (fp_neg a) b) (fp_neg (fp_div a b)).
Proof.
  assert (forall a b, finite a -> finite b ->
            fp_same (fp_div (fp_neg a) b) (fp_neg (fp_div a b))) as F.
  { clear a b. intros a b Fa Fb.
    rewrite !fp_div_finite by (try apply finite_neg; assumption).
    rewrite is_zero_neg.
    destruct (is_zero b) eqn:Zb.
    - destruct (is_zero a) eqn:Za; [exact I |].
      rewrite (signbit_neg a Fa Za). simpl. apply xorb_negb_l.
    - assert (~ value b == 0) as Nb.
      { intros C. apply (is_zero_value b Fb) in C. congruence. }
      assert (value (fp_neg a) / value b == - (value a / value b)) as E.
      { rewrite (value_neg a Fa). field. exact Nb. }
      rewrite (Qeq_bool_ext _ (- (value a / value b)) 0 0 E (Qeq_refl _)).
      destruct (Qeq_bool (value a / value b) 0) eqn:Q0.
      + bool_to_Q.
        replace (Qeq_bool (- (value a / value b)) 0) with true
          by (symmetry; bool_to_Q; lra).
        eapply fp_same_trans; [| apply fp_same_sym, fp_neg_zero].
        apply zero_same.
      + bool_to_Q.
        replace (Qeq_bool (- (value a / value b)) 0) with false
          by (symmetry; bool_to_Q; lra).
        eapply fp_same_trans; [apply fp_round_comp, E | apply fp_round_opp]. }
  destruct a as [p | | s |], b as [q | | s' |];
    try solve [apply F; exact I | exact I]; simpl.
  - destruct (Qeq_bool p 0) eqn:E; simpl; bool_to_Q.
    + replace (Qltb p 0) with false by (symmetry; bool_to_Q; lra).
      destruct s'; simpl; reflexivity.
    + rewrite (Qltb_opp_0 p E).
      destruct (Qltb p 0), s'; simpl; reflexivity.
  - destruct (Qeq_bool p 0); exact I.
  - destruct s'; simpl; reflexivity.
  - apply xorb_negb_l.
  - apply xorb_negb_l.
Qed.

Lemma fp_le_same (a a' b b' : fp) :
  fp_same a a' -> fp_same b b' -> fp_le a b = fp_le a' b'.
Proof.
  intros Ha Hb.
  destruct a as [p | | s |], a' as [p' | | t |]; simpl in Ha;
    try contradiction;
    destruct b as [q | | s' |], b' as [q' | | t' |]; simpl in Hb;
    try contradiction; subst; try reflexivity; simpl;
    apply Qle_bool_ext; assumption || (symmetry; assumption) || reflexivity.
Qed.

Lemma Qle_bool_abs (z b : Q) :
  Qle_bool (- b) z && Qle_bool z b = Qle_bool (Qabs z) b.
Proof.
  apply Bool.eq_iff_eq_true.
  rewrite andb_true_iff, !Qle_bool_iff, Qabs_le_iff. reflexivity.
Qed.

(** [|z| <= B] is [-B <= z] together with [z <= B]. *)
Lemma fp_le_abs (z : double) (B : fp) :
  fp_le (fp_neg B) (Num z) && fp_le (Num z) B = fp_le (fp_abs (Num z)) B.
Proof.
  destruct B as [b | | s |]; simpl.
  - destruct (Qeq_bool b 0) eqn:E; simpl; bool_to_Q.
    + rewrite <- Qle_bool_abs. f_equal. apply Qle_bool_ext; lra.
    + apply Qle_bool_abs.
  - rewrite <- Qle_bool_abs. reflexivity.
  - destruct s; reflexivity.
  - reflexivity.
Qed.

Lemma fp_lt_same (a a' b b' : fp) :
  fp_same a a' -> fp_same b b' -> fp_lt a b = fp_lt a' b'.
Proof.
  intros Ha Hb.
  destruct a as [p | | s |], a' as [p' | | t |]; simpl in Ha;
    try contradiction;
    destruct b as [q | | s' |], b' as [q' | | t' |]; simpl in Hb;
    try contradiction; subst; try reflexivity; simpl;
    apply Qltb_comp; assumption || (symmetry; assumption) || reflexivity.
Qed.

Lemma fp_abs_same (a b : fp) : fp_same a b -> fp_same (fp_abs a) (fp_abs b).
Proof.
  destruct a as [p | | s |], b as [q | | s' |]; simpl; try contradiction;
    trivial; intros H; try (rewrite H; reflexivity).
  rewrite <- H. reflexivity.
Qed.

Lemma fp_sub_Num (a b : double) :
  fp_same (fp_sub (Num a) (Num b)) (fp_round (a - b)).
Proof.
  unfold fp_sub.
  eapply fp_same_trans; [apply fp_add_finite; [exact I | apply finite_neg; exact I] |].
  apply fp_round_comp. rewrite value_neg by exact I. reflexivity.
Qed.

Lemma fp_le_trans (a b c : fp) :
  fp_le a b = true -> fp_le b c = true -> fp_le a c = true.
Proof.
  destruct a as [p | | s |], b as [q | | s' |], c as [r | | s'' |]; simpl;
    intros H1 H2; try discriminate; try reflexivity; try assumption;
    try (bool_to_Q; lra);
    repeat match goal with
      | b : bool |- _ => destruct b
      end;
    simpl in *; congruence.
Qed.

Lemma fp_round_le (x y : Q) :
  x <= y -> fp_le (fp_round x) (fp_round y) = true.
Proof.
  intros L.
  pose proof (round_to_double_le x y L) as R.
  pose proof DBL_MAX_pos as M.
  pose proof (round_to_double_sign x) as [S1 S2].
  pose proof (round_to_double_sign y) as [S1' S2'].
  destruct (Qlt_le_dec x 0) as [X | X]; destruct (Qlt_le_dec y 0) as [Y | Y];
    try lra;
    assert (Qltb x 0 = true \/ Qltb x 0 = false) as [Bx | Bx]
      by (destruct (Qltb x 0); auto);
    assert (Qltb y 0 = true \/ Qltb y 0 = false) as [By | By]
      by (destruct (Qltb y 0); auto);
    bool_to_Q; try lra;
    try (assert (round_to_double x <= 0) by (apply S2; lra));
    try (assert (0 <= round_to_double x) by (apply S1; lra));
    try (assert (round_to_double y <= 0) by (apply S2'; lra));
    try (assert (0 <= round_to_double y) by (apply S1'; lra));
    destruct (fp_round_cases x) as [[O ->] | [[Z0 ->] | [B [NZ ->]]]];
    destruct (fp_round_cases y) as [[O' ->] | [[Z0' ->] | [B' [NZ' ->]]]];
    set (r := round_to_double x) in *; set (r' := round_to_double y) in *;
    set (m := DBL_MAX) in *;
    repeat match goal with
      | |- context [Qltb ?a 0] =>
          let E := fresh "T" in destruct (Qltb a 0) eqn:E
      end;
    bool_to_Q; simpl; try reflexivity; bool_to_Q;
    try lra; try (destruct O; lra); try (destruct O'; lra);
    try (destruct O; destruct O'; lra).
Qed.

Lemma fp_add_le_r (c : fp) (t t' : double) :
  t <= t' -> c = NaN \/ fp_le (fp_add c (Num t)) (fp_add c (Num t')) = true.
Proof.
  intros L. destruct c as [p | | s |].
  - right.
    rewrite (fp_le_same _ _ _ _ (fp_add_finite (Num p) (Num t) I I)
               (fp_add_finite (Num p) (Num t') I I)).
    apply fp_round_le. simpl. lra.
  - right.
    rewrite (fp_le_same _ _ _ _ (fp_add_finite NegZero (Num t) I I)
               (fp_add_finite NegZero (Num t') I I)).
    apply fp_round_le. simpl. lra.
  - right. simpl. destruct s; reflexivity.
  - left. reflexivity.
Qed.

Lemma fp_sub_le_r (c : fp) (t t' : double) :
  t <= t' -> c = NaN \/ fp_le (fp_sub c (Num t')) (fp_sub c (Num t)) = true.
Proof.
  intros L. unfold fp_sub. destruct c as [p | | s |].
  - right.
    rewrite (fp_le_same _ _ _ _
               (fp_add_finite (Num p) _ I (finite_neg (Num t') I))
               (fp_add_finite (Num p) _ I (finite_neg (Num t) I))).
    apply fp_round_le. rewrite !value_neg by exact I. simpl. lra.
  - right.
    assert (forall u, fp_same (fp_add NegZero (fp_neg (Num u)))
                        (fp_round (0 - u))) as F.
    { intros u. unfold fp_neg. destruct (Qeq_bool u 0) eqn:E; bool_to_Q.
      - change (fp_add NegZero NegZero) with NegZero. apply fp_same_sym.
        apply (fp_same_trans _ (fp_round 0));
          [apply fp_round_comp; lra | vm_compute; reflexivity].
      - apply (fp_same_trans _ _ _ (fp_add_finite NegZero (Num (- u)) I I)).
        apply fp_round_comp. simpl. ring. }
    rewrite (fp_le_same _ _ _ _ (F t') (F t)).
    apply fp_round_le. lra.
  - right. simpl. destruct (Qeq_bool t' 0), (Qeq_bool t 0), s; reflexivity.
  - left. reflexivity.
Qed.

Lemma fp_lt_abs_round (d x : Q) :
  0 <= d -> d < DBL_MAX ->
  fp_lt (Num d) (fp_abs (fp_round x)) = Qltb d (Qabs (round_to_double x)).
Proof.
  intros D0 DM.
  destruct (fp_round_cases x) as [[O ->] | [[Z0 ->] | [B [NZ ->]]]].
  - simpl. symmetry. bool_to_Q. apply Qabs_gt_iff. destruct O; lra.
  - assert (fp_abs (zero (Qltb x 0)) = Num 0) as -> by (destruct (Qltb x 0); reflexivity).
    simpl. apply Qltb_comp; [reflexivity |]. rewrite Z0. reflexivity.
  - reflexivity.
Qed.

(** The test [std::abs(a - b) > DistanceTol] of the sorter, on the exact
    difference. *)
Lemma beyond_tolerance_exact (a b : double) :
  fp_gt (fp_abs (fp_sub (Num a) (Num b))) (Num DistanceTol)
  = Qltb tie_limit (Qabs (a - b)).
Proof.
  unfold fp_gt.
  rewrite (fp_lt_same _ (Num DistanceTol) _ (fp_abs (fp_round (a - b)))
             (fp_same_refl _) (fp_abs_same _ _ (fp_sub_Num a b))).
  rewrite fp_lt_abs_round;
    [| vm_compute; discriminate | vm_compute; reflexivity].
  apply Bool.eq_iff_eq_true. rewrite !Qltb_lt. apply round_beyond_tol.
Qed.

Lemma is_zero_same (a b : fp) : fp_same a b -> is_zero a = is_zero b.
Proof.
  destruct a as [p | | s |], b as [q | | s' |]; simpl; try contradiction;
    trivial; intros H.
  - apply Qeq_bool_ext; [exact H | reflexivity].
  - bool_to_Q. exact H.
  - symmetry. bool_to_Q. symmetry. exact H.
Qed.

Lemma signbit_same (a b : fp) :
  fp_same a b -> is_zero a = false -> signbit a = signbit b.
Proof.
  destruct a as [p | | s |], b as [q | | s' |]; simpl; try contradiction;
    trivial; try discriminate; intros H Z0.
  - apply Qltb_comp; [exact H | reflexivity].
  - bool_to_Q. contradiction.
Qed.

Lemma fp_mul_finite (a b : fp) :
  finite a -> finite b ->
  fp_mul a b
  = if Qeq_bool (value a * value b) 0
    then zero (xorb (signbit a) (signbit b))
    else fp_round (value a * value b).
Proof. destruct a, b; simpl; try contradiction; reflexivity. Qed.

Lemma fp_same_value (a b : fp) :
  finite a -> fp_same a b -> value a == value b.
Proof. destruct a, b; simpl; try contradiction; trivial. Qed.

Lemma fp_mul_Inf_l (s : bool) (b : fp) :
  finite b ->
  fp_mul (Inf s) b = if is_zero b then NaN else Inf (xorb s (signbit b)).
Proof. destruct b; simpl; try contradiction; reflexivity. Qed.

Lemma fp_mul_Inf_r (a : fp) (s : bool) :
  finite a ->
  fp_mul a (Inf s) = if is_zero a then NaN else Inf (xorb s (signbit a)).
Proof. destruct a; simpl; try contradiction; reflexivity. Qed.

Lemma fp_mul_same (a a' b b' : fp) :
  fp_same a a' -> fp_same b b' -> fp_same (fp_mul a b) (fp_mul a' b').
Proof.
  intros Ha Hb.
  assert (forall a a' b b', finite a -> finite b ->
            fp_same a a' -> fp_same b b' ->
            fp_same (fp_mul a b) (fp_mul a' b')) as F.
  { clear. intros a a' b b' Fa Fb Ha Hb.
    rewrite !fp_mul_finite
      by (assumption || (eapply fp_same_finite_l; eassumption)).
    pose proof (fp_same_value a a' Fa Ha) as Va.
    pose proof (fp_same_value b b' Fb Hb) as Vb.
    assert (value a * value b == value a' * value b') as E
      by (rewrite Va, Vb; reflexivity).
    rewrite (Qeq_bool_ext _ _ 0 0 E (Qeq_refl _)).
    destruct (Qeq_bool (value a' * value b') 0);
      [apply zero_same | apply fp_round_comp, E]. }
  assert (forall c c' s, finite c -> fp_same c c' ->
            fp_same (if is_zero c then NaN else Inf (xorb s (signbit c)))
              (if is_zero c' then NaN else Inf (xorb s (signbit c')))) as G.
  { clear. intros c c' s Fc Hc. rewrite <- (is_zero_same c c' Hc).
    destruct (is_zero c) eqn:Z0; [exact I |].
    rewrite (signbit_same c c' Hc Z0). reflexivity. }
  destruct a as [p | | s |], a' as [p' | | t |];
    try (simpl in Ha; contradiction);
    destruct b as [q | | s' |], b' as [q' | | t' |];
    try (simpl in Hb; contradiction);
    try solve [apply F; assumption || exact I | exact I];
    try (simpl in Ha; subst t); try (simpl in Hb; subst t');
    try solve [rewrite !fp_mul_Inf_r by exact I; apply G; assumption || exact I
              | rewrite !fp_mul_Inf_l by exact I; apply G; assumption || exact I
              | reflexivity].
Qed.

Lemma fp_div_same_l (a a' b : fp) :
  fp_same a a' -> fp_same (fp_div a b) (fp_div a' b).
Proof.
  intros Ha.
  assert (forall a a' b, finite a -> finite b -> fp_same a a' ->
            fp_same (fp_div a b) (fp_div a' b)) as F.
  { clear. intros a a' b Fa Fb Ha.
    rewrite !fp_div_finite
      by (assumption || (eapply fp_same_finite_l; eassumption)).
    rewrite <- (is_zero_same a a' Ha).
    pose proof (fp_same_value a a' Fa Ha) as Va.
    destruct (is_zero b) eqn:Zb.
    - destruct (is_zero a) eqn:Za; [exact I |].
      rewrite (signbit_same a a' Ha Za). reflexivity.
    - assert (value a / value b == value a' / value b) as E
        by (rewrite Va; reflexivity).
      rewrite (Qeq_bool_ext _ _ 0 0 E (Qeq_refl _)).
      destruct (Qeq_bool (value a' / value b) 0);
        [apply zero_same | apply fp_round_comp, E]. }
  destruct a as [p | | s |], a' as [p' | | t |];
    try (simpl in Ha; contradiction);
    destruct b as [q | | s' |];
    try solve [apply F; assumption || exact I | exact I | apply zero_same];
    try (simpl in Ha; subst t); try reflexivity.
Qed.

Lemma fp_sub_same2 (a a' b b' : fp) :
  fp_same a a' -> fp_same b b' -> fp_same (fp_sub a b) (fp_sub a' b').
Proof. intros Ha Hb. apply fp_add_same; [exact Ha | apply fp_neg_same, Hb]. Qed.

Lemma fp_round_double (w : Q) :
  round_to_double w == w -> Qabs w <= DBL_MAX -> fp_same (fp_round w) (Num w).
Proof.
  intros R B.
  destruct (fp_round_cases w) as [[O ->] | [[Z0 ->] | [_ [_ ->]]]].
  - exfalso. apply Qabs_le_iff in B. rewrite R in O. destruct O; lra.
  - destruct (Qltb w 0); simpl; lra.
  - exact R.
Qed.

(** Twice a double is a double (overflow apart). *)
Lemma ilog2_twice (x : Q) : 0 < x -> ilog2 (x + x) = (ilog2 x + 1)%Z.
Proof.
  intros Hx. destruct (ilog2_spec x Hx) as [L U].
  apply ilog2_unique; rewrite !pow2_succ in *; lra.
Qed.

Lemma round_magnitude_exact (x : Q) (m : Z) :
  x / 2 ^ quantum x == inject_Z m -> round_magnitude x == x.
Proof.
  intros E. unfold round_magnitude.
  rewrite (round_half_even_comp _ _ E), round_half_even_Z, <- E.
  pose proof (pow2_pos (quantum x)) as P. field.
  intros C. rewrite C in P. discriminate.
Qed.

Lemma round_magnitude_twice (x : Q) :
  0 < x -> round_magnitude x == x -> round_magnitude (x + x) == x + x.
Proof.
  intros Hx R.
  set (q := quantum x) in *.
  set (m := round_half_even (x / 2 ^ q)).
  pose proof (pow2_pos q) as P.
  assert (x / 2 ^ q == inject_Z m) as E.
  { unfold round_magnitude in R. fold q in R. fold m in R.
    rewrite <- R at 1. field. intros C. rewrite C in P. discriminate. }
  assert (quantum (x + x) = q \/ quantum (x + x) = (q + 1)%Z) as [Q' | Q'].
  { unfold quantum in *. rewrite (ilog2_twice x Hx). lia. }
  - apply (round_magnitude_exact _ (2 * m)). rewrite Q'.
    rewrite inject_Z_mult, <- E. change (inject_Z 2) with 2. field.
    intros C. rewrite C in P. discriminate.
  - apply (round_magnitude_exact _ m). rewrite Q', pow2_succ, <- E. field.
    intros C. rewrite C in P. discriminate.
Qed.

Lemma round_to_double_twice (w : Q) :
  round_to_double w == w -> round_to_double (w + w) == w + w.
Proof.
  intros R.
  destruct (Q_dec w 0) as [[L | G] | E].
  - rewrite (round_to_double_neg w L) in R.
    rewrite (round_to_double_neg (w + w)) by lra.
    rewrite (round_magnitude_comp (- (w + w)) (- w + - w)) by (lra || ring).
    rewrite round_magnitude_twice; [ring | lra | lra].
  - rewrite (round_to_double_pos w G) in R.
    rewrite (round_to_double_pos (w + w)) by lra.
    apply round_magnitude_twice; assumption.
  - rewrite (round_to_double_comp (w + w) 0) by lra.
    rewrite round_to_double_0. lra.
Qed.

(** ** Sorted lists *)

Section StronglySortedFacts.
Context {A : Type} (R : A -> A -> Prop).

Lemma StronglySorted_app_iff (l1 l2 : list A) :
  StronglySorted R (l1 ++ l2) <->
  StronglySorted R l1 /\ StronglySorted R l2
  /\ (forall x y, In x l1 -> In y l2 -> R x y).
Proof.
  induction l1 as [| a l1 IH]; simpl.
  - split.
    + intros H. repeat split; [constructor | exact H | contradiction].
    + intros [_ [H _]]. exact H.
  - split.
    + intros H. inversion H as [| ? ? Hs Hf]; subst.
      apply IH in Hs. destruct Hs as [H1 [H2 H12]].
      rewrite Forall_app in Hf. destruct Hf as [Hf1 Hf2].
      repeat split.
      * constructor; assumption.
      * assumption.
      * intros x y [-> | Hx] Hy.
        -- rewrite Forall_forall in Hf2. auto.
        -- auto.
    + intros [H1 [H2 H12]]. inversion H1 as [| ? ? Hs Hf]; subst.
      constructor.
      * apply IH. repeat split; auto.
      * rewrite Forall_app. split; [assumption |].
        rewrite Forall_forall. intros y Hy. apply H12; auto.
Qed.

Lemma StronglySorted_singleton (a : A) : StronglySorted R [a].
Proof. constructor; constructor. Qed.
End StronglySortedFacts.

Lemma StronglySorted_rev {A : Type} (R : A -> A -> Prop) (l : list A) :
  StronglySorted R l -> StronglySorted (fun a b => R b a) (rev l).
Proof.
  induction 1 as [| a l Hs IH Hf]; simpl.
  - constructor.
  - apply StronglySorted_app_iff. repeat split.
    + exact IH.
    + apply StronglySorted_singleton.
    + intros x y Hx [<- | []]. rewrite Forall_forall in Hf.
      apply Hf. apply in_rev. exact Hx.
Qed.

(** The six arrangements of three elements. *)
Lemma Permutation_three {A : Type} (a b c : A) (l : list A) :
  Permutation l [a; b; c] ->
  In l [[a; b; c]; [a; c; b]; [b; a; c]; [b; c; a]; [c; a; b]; [c; b; a]].
Proof.
  intros P.
  assert (List.length l = 3%nat) as Hlen by apply (Permutation_length P).
  destruct l as [| x [| y [| z [| ? ?]]]]; try discriminate Hlen.
  assert (In x [a; b; c]) as Hx
    by (apply (Permutation_in _ P); left; reflexivity).
  destruct Hx as [<- | [<- | [<- | []]]].
  - apply Permutation_cons_inv in P.
    apply Permutation_length_2_inv in P.
    destruct P as [E | E]; injection E as <- <-; simpl; auto.
  - assert (Permutation [b; y; z] [b; a; c]) as P'
      by (rewrite P; apply perm_swap).
    apply Permutation_cons_inv in P'.
    apply Permutation_length_2_inv in P'.
    destruct P' as [E | E]; injection E as <- <-; simpl; auto 7.
  - assert (Permutation [c; y; z] [c; a; b]) as P'.
    { rewrite P. apply Permutation_sym.
      apply (Permutation_cons_app [a; b] [] c). rewrite app_nil_r.
      reflexivity. }
    apply Permutation_cons_inv in P'.
    apply Permutation_length_2_inv in P'.
    destruct P' as [E | E]; injection E as <- <-; simpl; auto 8.
Qed.

(** ** The insertion sort *)

Section StdSortFacts.
Context {A : Type} (comp : A -> A -> bool).

Lemma unguarded_linear_insert_perm (val : A) (back : list A) :
  Permutation (unguarded_linear_insert comp val back) (val :: back).
Proof.
  induction back as [| next rest IH]; simpl.
  - reflexivity.
  - destruct (comp val next).
    + rewrite IH. apply perm_swap.
    + reflexivity.
Qed.

Lemma insertion_step_perm (sorted : list A) (val : A) :
  Permutation (insertion_step comp sorted val) (val :: sorted).
Proof.
  unfold insertion_step. destruct sorted as [| first tl].
  - reflexivity.
  - destruct (comp val first).
    + reflexivity.
    + rewrite <- Permutation_rev, unguarded_linear_insert_perm.
      constructor. symmetry. apply Permutation_rev.
Qed.

Lemma insertion_loop_perm (rest sorted : list A) :
  Permutation (fold_left (insertion_step comp) rest sorted) (sorted ++ rest).
Proof.
  revert sorted. induction rest as [| val rest IH]; intros sorted; simpl.
  - rewrite app_nil_r. reflexivity.
  - rewrite IH, insertion_step_perm. apply Permutation_middle.
Qed.

Lemma std_sort_perm (l : list A) : Permutation l (std_sort comp l).
Proof.
  destruct l as [| first rest]; simpl.
  - constructor.
  - symmetry. apply (insertion_loop_perm rest [first]).
Qed.

Lemma std_sort_reverse_perm (l : list A) :
  Permutation l (std_sort_reverse comp l).
Proof.
  unfold std_sort_reverse. rewrite <- Permutation_rev, <- std_sort_perm.
  apply Permutation_rev.
Qed.

Lemma std_sort_pair (a b : A) :
  std_sort comp [a; b] = if comp b a then [b; a] else [a; b].
Proof. simpl. destruct (comp b a); reflexivity. Qed.

Lemma std_sort_reverse_pair (a b : A) :
  std_sort_reverse comp [a; b] = if comp a b then [b; a] else [a; b].
Proof.
  unfold std_sort_reverse. simpl. destruct (comp a b); reflexivity.
Qed.

(** A range that is in order is left as it is. *)

Lemma unguarded_linear_insert_stays (val : A) (back : list A) :
  (forall x, In x back -> comp val x = false) ->
  unguarded_linear_insert comp val back = val :: back.
Proof.
  destruct back as [| next rest]; simpl; intros H.
  - reflexivity.
  - rewrite (H next) by auto. reflexivity.
Qed.

Lemma insertion_step_stays (sorted : list A) (val : A) :
  (forall x, In x sorted -> comp val x = false) ->
  insertion_step comp sorted val = sorted ++ [val].
Proof.
  intros H. unfold insertion_step. destruct sorted as [| first tl].
  - reflexivity.
  - rewrite (H first) by (left; reflexivity).
    rewrite unguarded_linear_insert_stays.
    + simpl. rewrite rev_app_distr, rev_involutive. reflexivity.
    + intros x Hx. apply H. apply in_rev. exact Hx.
Qed.

Lemma insertion_loop_stays (rest sorted : list A) :
  ordered comp (sorted ++ rest) ->
  fold_left (insertion_step comp) rest sorted = sorted ++ rest.
Proof.
  revert sorted. induction rest as [| val rest IH]; intros sorted Ho; simpl.
  - rewrite app_nil_r. reflexivity.
  - rewrite insertion_step_stays.
    + rewrite IH; rewrite <- app_assoc; [reflexivity | exact Ho].
    + apply StronglySorted_app_iff in Ho. destruct Ho as [_ [_ Ho]].
      intros x Hx. apply Ho; [exact Hx | left; reflexivity].
Qed.

Lemma std_sort_ordered (l : list A) : ordered comp l -> std_sort comp l = l.
Proof.
  destruct l as [| first rest]; simpl; intros Ho.
  - reflexivity.
  - apply (insertion_loop_stays rest [first] Ho).
Qed.

(** Where the comparison is a strict weak order, the result is in
    order.  The order is asked of the elements of [dom] only. *)
Section StrictWeakOrder.
Variable dom : A -> Prop.
Hypothesis comp_asym :
  forall a b, dom a -> dom b -> comp a b = true -> comp b a = false.
Hypothesis comp_negtrans :
  forall a b c, dom a -> dom b -> dom c ->
    comp a b = false -> comp b c = false -> comp a c = false.

Lemma unguarded_linear_insert_ordered (val : A) (back : list A) :
  dom val -> Forall dom back ->
  StronglySorted (fun a b => comp a b = false) back ->
  StronglySorted (fun a b => comp a b = false)
    (unguarded_linear_insert comp val back).
Proof.
  intros Hv Hd Hs. induction Hs as [| next rest Hs IH Hf]; simpl.
  - apply StronglySorted_singleton.
  - inversion Hd as [| ? ? Hn Hr]; subst.
    destruct (comp val next) eqn:E.
    + constructor; [apply IH; assumption |].
      rewrite Forall_forall in *. intros x Hx.
      apply (Permutation_in _ (unguarded_linear_insert_perm val rest)) in Hx.
      destruct Hx as [<- | Hx]; [apply comp_asym; assumption | auto].
    + constructor; [constructor; assumption |].
      constructor; [exact E |].
      rewrite Forall_forall in *. intros x Hx.
      apply (comp_negtrans val next x); auto.
Qed.

Lemma insertion_step_ordered (sorted : list A) (val : A) :
  dom val -> Forall dom sorted -> ordered comp sorted ->
  ordered comp (insertion_step comp sorted val).
Proof.
  intros Hv Hd Ho. unfold insertion_step.
  destruct sorted as [| first tl].
  - apply StronglySorted_singleton.
  - destruct (comp val first) eqn:E.
    + constructor; [exact Ho |].
      inversion Hd as [| ? ? Hfd Htd]; subst.
      inversion Ho as [| ? ? _ Hf]; subst.
      constructor; [apply comp_asym; assumption |].
      rewrite Forall_forall in *. intros x Hx.
      destruct (comp x val) eqn:Ex; [| reflexivity].
      (* x < val < first, yet first is not after x *)
      assert (comp first val = false) as Efv by (apply comp_asym; auto).
      assert (comp x first = false) as C by auto.
      pose proof (comp_negtrans x first val (Htd x Hx) Hfd Hv C Efv).
      congruence.
    + unfold ordered.
      apply (StronglySorted_rev (fun a b => comp a b = false)).
      apply unguarded_linear_insert_ordered.
      * exact Hv.
      * rewrite Forall_forall in *. intros x Hx. apply Hd.
        apply in_rev. exact Hx.
      * apply (StronglySorted_rev _ _ Ho).
Qed.

Lemma insertion_loop_ordered (rest sorted : list A) :
  Forall dom rest -> Forall dom sorted -> ordered comp sorted ->
  ordered comp (fold_left (insertion_step comp) rest sorted).
Proof.
  revert sorted. induction rest as [| val rest IH];
    intros sorted Hr Hd Ho; simpl.
  - exact Ho.
  - inversion Hr; subst. apply IH.
    + assumption.
    + rewrite Forall_forall in *. intros x Hx.
      apply (Permutation_in _ (insertion_step_perm sorted val)) in Hx.
      destruct Hx as [<- | Hx]; auto.
    + apply insertion_step_ordered; assumption.
Qed.

Lemma std_sort_is_ordered (l : list A) :
  Forall dom l -> ordered comp (std_sort comp l).
Proof.
  destruct l as [| first rest]; simpl; intros Hd.
  - constructor.
  - inversion Hd; subst. apply insertion_loop_ordered.
    + assumption.
    + constructor; [assumption | constructor].
    + apply StronglySorted_singleton.
Qed.

Lemma std_sort_idempotent (l : list A) :
  Forall dom l -> std_sort comp (std_sort comp l) = std_sort comp l.
Proof.
  intros Hd. apply std_sort_ordered, std_sort_is_ordered, Hd.
Qed.

Lemma std_sort_reverse_idempotent (l : list A) :
  Forall dom l ->
  std_sort_reverse comp (std_sort_reverse comp l) = std_sort_reverse comp l.
Proof.
  intros Hd. unfold std_sort_reverse. rewrite rev_involutive.
  rewrite std_sort_idempotent; [reflexivity |].
  rewrite Forall_forall in *. intros x Hx. apply Hd.
  apply in_rev. exact Hx.
Qed.
End StrictWeakOrder.
End StdSortFacts.

(** ** The insertion sort with a comparison that may throw *)

Section StdSortThrowingFacts.
Context {A : Type} (comp_t : A -> A -> result bool).
Variable comp : A -> A -> bool.
Variable good : A -> bool.
Variable exc : exception.
Hypothesis comp_t_spec :
  forall a b,
    comp_t a b = if good a && good b then Ok (comp a b) else Throw exc.

Lemma unguarded_linear_insert_t_good (val : A) (back : list A) :
  good val = true -> forallb good back = true ->
  unguarded_linear_insert_t comp_t val back
  = Ok (unguarded_linear_insert comp val back).
Proof.
  intros Hv. induction back as [| next rest IH]; simpl; intros Hb.
  - reflexivity.
  - apply andb_true_iff in Hb. destruct Hb as [Hn Hr].
    rewrite comp_t_spec, Hv, Hn. simpl.
    destruct (comp val next); [rewrite (IH Hr) |]; reflexivity.
Qed.

Lemma insertion_step_t_good (sorted : list A) (val : A) :
  good val = true -> forallb good sorted = true ->
  insertion_step_t comp_t sorted val = Ok (insertion_step comp sorted val).
Proof.
  intros Hv Hs. unfold insertion_step_t, insertion_step.
  destruct sorted as [| first tl]; [reflexivity |].
  pose proof Hs as Hs'. simpl in Hs'. apply andb_true_iff in Hs'.
  destruct Hs' as [Hf _]. rewrite comp_t_spec, Hv, Hf. simpl bind.
  destruct (comp val first); [reflexivity |].
  rewrite unguarded_linear_insert_t_good; [reflexivity | exact Hv |].
  rewrite forallb_forall in *. intros x Hx. apply Hs, in_rev, Hx.
Qed.

Lemma insertion_step_good (sorted : list A) (val : A) :
  good val = true -> forallb good sorted = true ->
  forallb good (insertion_step comp sorted val) = true.
Proof.
  intros Hv Hs. rewrite forallb_forall in *. intros x Hx.
  apply (Permutation_in _ (insertion_step_perm comp sorted val)) in Hx.
  destruct Hx as [<- | Hx]; auto.
Qed.

Lemma insertion_step_not_nil (sorted : list A) (val : A) :
  insertion_step comp sorted val <> [].
Proof.
  intros E. pose proof (insertion_step_perm comp sorted val) as P.
  rewrite E in P. apply Permutation_nil in P. discriminate.
Qed.

Lemma insertion_loop_t_good (rest sorted : list A) :
  forallb good rest = true -> forallb good sorted = true ->
  insertion_loop_t comp_t sorted rest
  = Ok (fold_left (insertion_step comp) rest sorted).
Proof.
  revert sorted. induction rest as [| val rest IH];
    intros sorted Hr Hs; simpl.
  - reflexivity.
  - simpl in Hr. apply andb_true_iff in Hr. destruct Hr as [Hv Hr].
    rewrite insertion_step_t_good by assumption. simpl.
    apply IH; [assumption | apply insertion_step_good; assumption].
Qed.

Lemma insertion_loop_t_bad (rest sorted : list A) :
  sorted <> [] -> forallb good sorted = true ->
  forallb good rest = false ->
  insertion_loop_t comp_t sorted rest = Throw exc.
Proof.
  revert sorted. induction rest as [| val rest IH];
    intros sorted Hne Hs Hr; simpl in *.
  - discriminate.
  - destruct (good val) eqn:Hv; simpl in Hr.
    + rewrite insertion_step_t_good by assumption. simpl.
      apply IH;
        [apply insertion_step_not_nil
        | apply insertion_step_good; assumption | exact Hr].
    + unfold insertion_step_t. destruct sorted as [| first tl];
        [contradiction |].
      rewrite comp_t_spec, Hv. reflexivity.
Qed.

(** The sort throws exactly when it compares an element that makes the
    comparison throw, that is, when there are two elements or more and
    one of them is not [good]. *)
Lemma std_sort_t_spec (l : list A) :
  std_sort_t comp_t l
  = if (List.length l <=? 1)%nat || forallb good l
    then Ok (std_sort comp l) else Throw exc.
Proof.
  destruct l as [| first [| second rest]]; try reflexivity.
  change ((List.length (first :: second :: rest) <=? 1)%nat) with false.
  rewrite orb_false_l.
  destruct (forallb good (first :: second :: rest)) eqn:Hl.
  - pose proof Hl as Hl'. simpl in Hl'. apply andb_true_iff in Hl'.
    destruct Hl' as [Hf Hr]. unfold std_sort_t, std_sort.
    apply insertion_loop_t_good; [exact Hr | simpl; rewrite Hf; reflexivity].
  - unfold std_sort_t. destruct (good first) eqn:Hf.
    + apply insertion_loop_t_bad.
      * discriminate.
      * simpl. rewrite Hf. reflexivity.
      * simpl in Hl. rewrite Hf in Hl. exact Hl.
    + simpl. rewrite comp_t_spec, Hf, andb_false_r. reflexivity.
Qed.
End StdSortThrowingFacts.

(** ** Comparisons with a tolerance *)

Lemma beyond_tolerance_rounded (a b : double) :
  beyond_tolerance a b = true
  <-> DistanceTol < Qabs (round_to_double (a - b)).
Proof.
  unfold beyond_tolerance. rewrite beyond_tolerance_exact, Qltb_lt.
  symmetry. apply round_beyond_tol.
Qed.

Lemma beyond_tolerance_iff (a b : double) :
  beyond_tolerance a b = true <-> tie_limit < Qabs (a - b).
Proof.
  unfold beyond_tolerance. rewrite beyond_tolerance_exact. apply Qltb_lt.
Qed.

Lemma within_tolerance_iff (a b : double) :
  beyond_tolerance a b = false <-> Qabs (a - b) <= tie_limit.
Proof.
  unfold beyond_tolerance. rewrite beyond_tolerance_exact. apply Qltb_ge.
Qed.

Lemma tie_limit_pos : 0 < tie_limit.
Proof. vm_compute. reflexivity. Qed.

(** Within the tolerance, and beyond it, as linear constraints. *)
Lemma within_tol (a b : double) :
  beyond_tolerance a b = false <-> - tie_limit <= a - b <= tie_limit.
Proof. rewrite within_tolerance_iff. apply Qabs_le_iff. Qed.

Lemma beyond_tol (a b : double) :
  beyond_tolerance a b = true <-> a - b < - tie_limit \/ tie_limit < a - b.
Proof. rewrite beyond_tolerance_iff. apply Qabs_gt_iff. Qed.

Lemma beyond_tolerance_sym (a b : double) :
  beyond_tolerance a b = beyond_tolerance b a.
Proof.
  apply Bool.eq_iff_eq_true. rewrite !beyond_tol. split; intros [H | H]; lra.
Qed.

Lemma beyond_tolerance_opp (a b : double) :
  beyond_tolerance (- a) (- b) = beyond_tolerance a b.
Proof.
  apply Bool.eq_iff_eq_true. rewrite !beyond_tol. split; intros [H | H]; lra.
Qed.

Section ToleranceOrder.
Context {A : Type}.

Ltac split_key_tests :=
  repeat match goal with
    | |- context [beyond_tolerance ?a ?b] =>
        let E := fresh "E" in destruct (beyond_tolerance a b) eqn:E
    end;
  repeat match goal with
    | H : beyond_tolerance _ _ = true |- _ => apply beyond_tol in H
    | H : beyond_tolerance _ _ = false |- _ => apply within_tol in H
    end;
  pose proof tie_limit_pos;
  set (T := tie_limit) in *; clearbody T.

(** One key compared with the tolerance, then [rest]. *)
Lemma tol_then_asym (k : A -> double) (rest : A -> A -> bool) (a b : A) :
  (rest a b = true -> rest b a = false) ->
  (if beyond_tolerance (k a) (k b) then Qltb (k a) (k b) else rest a b) = true ->
  (if beyond_tolerance (k b) (k a) then Qltb (k b) (k a) else rest b a) = false.
Proof.
  intros R. split_key_tests; intros; bool_to_Q; try lra; auto.
Qed.

Lemma tol_transitive_linear (k : A -> double) (l : list A) (a b c : A) :
  tol_transitive k l -> In a l -> In b l -> In c l ->
  - tie_limit <= k a - k b <= tie_limit ->
  - tie_limit <= k b - k c <= tie_limit ->
  - tie_limit <= k a - k c <= tie_limit.
Proof.
  intros T Ia Ib Ic Hab Hbc.
  apply (within_tol (k a) (k c)), (T a b c Ia Ib Ic); apply within_tol; assumption.
Qed.

Lemma tol_then_negtrans (k : A -> double) (rest : A -> A -> bool)
  (l : list A) (a b c : A) :
  tol_transitive k l -> In a l -> In b l -> In c l ->
  (rest a b = false -> rest b c = false -> rest a c = false) ->
  (if beyond_tolerance (k a) (k b) then Qltb (k a) (k b) else rest a b) = false ->
  (if beyond_tolerance (k b) (k c) then Qltb (k b) (k c) else rest b c) = false ->
  (if beyond_tolerance (k a) (k c) then Qltb (k a) (k c) else rest a c) = false.
Proof.
  intros T1 Ia Ib Ic R.
  pose proof (tol_transitive_linear k l a b c T1 Ia Ib Ic) as P1.
  pose proof (tol_transitive_linear k l a c b T1 Ia Ic Ib) as P2.
  pose proof (tol_transitive_linear k l b a c T1 Ib Ia Ic) as P3.
  clear T1.
  split_key_tests; intros; bool_to_Q; try lra; auto.
Qed.

Variables k1 k2 k3 : A -> double.

Lemma tol_lex_asym (a b : A) :
  tol_lex k1 k2 k3 a b = true -> tol_lex k1 k2 k3 b a = false.
Proof.
  unfold tol_lex.
  apply (tol_then_asym k1
           (fun a b => if beyond_tolerance (k2 a) (k2 b)
                       then Qltb (k2 a) (k2 b) else Qltb (k3 a) (k3 b))).
  apply (tol_then_asym k2 (fun a b => Qltb (k3 a) (k3 b))).
  intros H. bool_to_Q. lra.
Qed.

Lemma tol_lex_negtrans (l : list A) (a b c : A) :
  tol_transitive k1 l -> tol_transitive k2 l ->
  In a l -> In b l -> In c l ->
  tol_lex k1 k2 k3 a b = false -> tol_lex k1 k2 k3 b c = false ->
  tol_lex k1 k2 k3 a c = false.
Proof.
  intros T1 T2 Ia Ib Ic. unfold tol_lex.
  apply (tol_then_negtrans k1
           (fun a b => if beyond_tolerance (k2 a) (k2 b)
                       then Qltb (k2 a) (k2 b) else Qltb (k3 a) (k3 b)) l);
    try assumption.
  apply (tol_then_negtrans k2 (fun a b => Qltb (k3 a) (k3 b)) l);
    try assumption.
  intros H1 H2. bool_to_Q. lra.
Qed.
End ToleranceOrder.

Lemma sortWireStandard_tol_lex (w1 w2 : WireGeo.t) :
  sortWireStandard w1 w2 = tol_lex wire_z wire_y wire_x w1 w2.
Proof. reflexivity. Qed.

Lemma sortWireStandard_spec (w1 w2 : WireGeo.t) :
  sortWireStandard w1 w2 = true <-> wire_precedes w1 w2.
Proof.
  rewrite sortWireStandard_tol_lex. unfold tol_lex, wire_precedes.
  destruct (beyond_tolerance (wire_z w1) (wire_z w2));
    [| destruct (beyond_tolerance (wire_y w1) (wire_y w2)) ];
    rewrite Qltb_lt; intuition congruence.
Qed.

Lemma sortPlaneStandard_spec (p1 p2 : PlaneGeo.t) :
  sortPlaneStandard p1 p2 = true <-> plane_precedes_negX p1 p2.
Proof.
  unfold plane_precedes_negX.
  change (sortPlaneStandard p1 p2)
    with (if beyond_tolerance (plane_x p1) (plane_x p2)
          then Qltb (plane_x p2) (plane_x p1)
          else if beyond_tolerance (plane_z p1) (plane_z p2)
               then Qltb (plane_z p1) (plane_z p2)
               else Qltb (plane_y p1) (plane_y p2)).
  destruct (beyond_tolerance (plane_x p1) (plane_x p2));
    [| destruct (beyond_tolerance (plane_z p1) (plane_z p2)) ];
    rewrite Qltb_lt; intuition congruence.
Qed.

Lemma Qltb_ext (x x' y y' : double) :
  x == x' -> y == y' -> Qltb x y = Qltb x' y'.
Proof. apply Qltb_comp. Qed.

Lemma sortPlaneStandard_tol_lex (p1 p2 : PlaneGeo.t) :
  sortPlaneStandard p1 p2
  = tol_lex (fun p => - plane_x p) plane_z plane_y p1 p2.
Proof.
  unfold tol_lex. rewrite beyond_tolerance_opp.
  change (sortPlaneStandard p1 p2)
    with (if beyond_tolerance (plane_x p1) (plane_x p2)
          then Qltb (plane_x p2) (plane_x p1)
          else if beyond_tolerance (plane_z p1) (plane_z p2)
               then Qltb (plane_z p1) (plane_z p2)
               else Qltb (plane_y p1) (plane_y p2)).
  destruct (beyond_tolerance (plane_x p1) (plane_x p2)); [| reflexivity].
  destruct (Qltb (plane_x p2) (plane_x p1)) eqn:E1;
    destruct (Qltb (- plane_x p1) (- plane_x p2)) eqn:E2;
    try reflexivity; bool_to_Q; lra.
Qed.

Lemma plane_precedes_mirror (p1 p2 : PlaneGeo.t) :
  plane_precedes_posX p2 p1 <-> plane_precedes_negX p1 p2.
Proof.
  unfold plane_precedes_posX, plane_precedes_negX.
  rewrite (beyond_tolerance_sym (plane_x p2) (plane_x p1)).
  rewrite (beyond_tolerance_sym (plane_z p2) (plane_z p1)).
  reflexivity.
Qed.

Lemma sortPlaneStandard_asym (p1 p2 : PlaneGeo.t) :
  sortPlaneStandard p1 p2 = true -> sortPlaneStandard p2 p1 = false.
Proof. rewrite !sortPlaneStandard_tol_lex. apply tol_lex_asym. Qed.

Lemma DistanceTol_is_double : is_double DistanceTol.
Proof. split; vm_compute; [reflexivity | discriminate]. Qed.

(** ** Collections separated in the first key *)

Section SeparatedOrder.
Context {A : Type} (k1 k2 k3 : A -> double) (comp : A -> A -> bool).
Hypothesis comp_tol_lex : forall a b, comp a b = tol_lex k1 k2 k3 a b.

Lemma tol_lex_irreflexive (a : A) : tol_lex k1 k2 k3 a a = false.
Proof.
  destruct (tol_lex k1 k2 k3 a a) eqn:E; [| reflexivity].
  pose proof (tol_lex_asym k1 k2 k3 a a E). congruence.
Qed.

Lemma comp_separated (l : list A) (a b : A) :
  separated k1 l -> In a l -> In b l -> comp a b = Qltb (k1 a) (k1 b).
Proof.
  intros [_ Hs] Ha Hb. rewrite comp_tol_lex.
  destruct (Hs a b Ha Hb) as [<- | Hfar].
  - rewrite tol_lex_irreflexive. symmetry. apply Qltb_ge, Qle_refl.
  - unfold tol_lex. rewrite Hfar. reflexivity.
Qed.

Lemma separated_Permutation (l l' : list A) :
  Permutation l l' -> separated k1 l -> separated k1 l'.
Proof.
  intros P [Hn Hs]. split.
  - apply (Permutation_NoDup P Hn).
  - intros a b Ha Hb.
    apply Hs; apply (Permutation_in _ (Permutation_sym P)); assumption.
Qed.

Lemma strictly_ascending (l : list A) :
  separated k1 l ->
  StronglySorted (fun a b => comp b a = false) l ->
  StronglySorted (fun a b => k1 a < k1 b) l.
Proof.
  intros Hsep Hs. induction Hs as [| a l Hs IH Hf].
  - constructor.
  - pose proof Hsep as [Hn Hfar]. inversion Hn as [| ? ? Hnotin Hn']; subst.
    constructor.
    + apply IH. split; [exact Hn' |].
      intros x y Hx Hy. apply Hfar; right; assumption.
    + rewrite Forall_forall in *. intros b Hb.
      pose proof (Hf b Hb) as Hc.
      rewrite (comp_separated (a :: l) b a Hsep) in Hc
        by (simpl; auto).
      apply Qltb_ge in Hc.
      destruct (Hfar a b) as [-> | Hd]; [left; reflexivity | right; exact Hb
                                        | contradiction |].
      apply beyond_tol in Hd. pose proof tie_limit_pos.
      destruct Hd; lra.
Qed.

Lemma std_sort_separated (l : list A) :
  separated k1 l ->
  StronglySorted (fun a b => k1 a < k1 b) (std_sort comp l).
Proof.
  intros Hsep. apply strictly_ascending.
  - apply (separated_Permutation l); [apply std_sort_perm | exact Hsep].
  - apply (std_sort_is_ordered comp (fun a => In a l)).
    + intros a b Ha Hb. rewrite !(comp_separated l) by assumption.
      intros H. bool_to_Q. lra.
    + intros a b c Ha Hb Hc. rewrite !(comp_separated l) by assumption.
      intros H1 H2. bool_to_Q. lra.
    + apply Forall_forall. trivial.
Qed.
End SeparatedOrder.

Lemma strictly_sorted_unique {A : Type} (k : A -> double) (l1 l2 : list A) :
  StronglySorted (fun a b => k a < k b) l1 ->
  StronglySorted (fun a b => k a < k b) l2 ->
  Permutation l1 l2 -> l1 = l2.
Proof.
  intros H1. revert l2. induction H1 as [| a l1 H1 IH Hf1]; intros l2 H2 P.
  - apply Permutation_nil in P. symmetry. exact P.
  - destruct H2 as [| b l2 H2 Hf2].
    + apply Permutation_sym, Permutation_nil in P. discriminate.
    + assert (a = b) as ->.
      { assert (In a (b :: l2)) as Ha
          by (apply (Permutation_in _ P); left; reflexivity).
        assert (In b (a :: l1)) as Hb
          by (apply (Permutation_in _ (Permutation_sym P)); left; reflexivity).
        rewrite Forall_forall in Hf1, Hf2.
        destruct Ha as [<- | Ha]; [reflexivity |].
        destruct Hb as [-> | Hb]; [reflexivity |].
        pose proof (Hf1 _ Hb). pose proof (Hf2 _ Ha). lra. }
      f_equal. apply IH; [exact H2 |].
      apply (Permutation_cons_inv P).
Qed.

Lemma separated_opp {A : Type} (k : A -> double) (l : list A) :
  separated k l -> separated (fun a => - k a) l.
Proof.
  intros [Hn Hs]. split; [exact Hn |]. intros a b Ha Hb.
  destruct (Hs a b Ha Hb) as [-> | H]; [left; reflexivity | right].
  rewrite beyond_tolerance_opp. exact H.
Qed.

Lemma separated_rev {A : Type} (k : A -> double) (l : list A) :
  separated k l -> separated k (rev l).
Proof.
  apply separated_Permutation, Permutation_rev.
Qed.

Lemma StronglySorted_weaken {A : Type} (R R' : A -> A -> Prop) (l : list A) :
  (forall a b, R a b -> R' a b) ->
  StronglySorted R l -> StronglySorted R' l.
Proof.
  intros H. induction 1 as [| a l Hs IH Hf]; constructor.
  - exact IH.
  - apply (Forall_impl _ (H a) Hf).
Qed.

Lemma SortPlanes_negX (pgeo : list PlaneGeo.t) :
  fst (SortPlanes pgeo kNegX) = std_sort sortPlaneStandard pgeo.
Proof. reflexivity. Qed.

Lemma SortPlanes_posX (pgeo : list PlaneGeo.t) :
  fst (SortPlanes pgeo kPosX) = std_sort_reverse sortPlaneStandard pgeo.
Proof. reflexivity. Qed.

(** Planes that lie pairwise further apart in X than the tolerance come
    out in strictly descending X for drift towards negative X, and in
    strictly ascending X for drift towards positive X. *)
Lemma std_sort_planes_descending (l : list PlaneGeo.t) :
  separated plane_x l ->
  StronglySorted (fun p1 p2 => plane_x p2 < plane_x p1)
    (std_sort sortPlaneStandard l).
Proof.
  intros Hl.
  apply (StronglySorted_weaken (fun a b => - plane_x a < - plane_x b)).
  - intros a b Hab. lra.
  - apply (std_sort_separated (fun p => - plane_x p) plane_z plane_y
             sortPlaneStandard).
    + exact sortPlaneStandard_tol_lex.
    + apply separated_opp, Hl.
Qed.

Lemma SortPlanes_separated_order (pgeo : list PlaneGeo.t) :
  separated plane_x pgeo ->
  StronglySorted (fun p1 p2 => plane_x p2 < plane_x p1)
    (fst (SortPlanes pgeo kNegX))
  /\ StronglySorted (fun p1 p2 => plane_x p1 < plane_x p2)
       (fst (SortPlanes pgeo kPosX)).
Proof.
  intros H. rewrite SortPlanes_negX, SortPlanes_posX. split.
  - apply std_sort_planes_descending, H.
  - unfold std_sort_reverse.
    apply (StronglySorted_rev (fun p1 p2 => plane_x p2 < plane_x p1)).
    apply std_sort_planes_descending, separated_rev, H.
Qed.

(** ** Order of the wires *)

(** C6.  The tolerance is the double nearest to 0.001, and two
    coordinates differ by more than the tolerance when their difference,
    rounded to a double as the subtraction does, exceeds it in absolute
    value.  The comparison of two wires is true exactly when the first
    precedes the second in the order "world Z of the centre ascending
    where the Z differ by more than the tolerance, else world Y ascending
    where the Y differ by more than the tolerance, else world X
    ascending"; sorting two wires puts the one that precedes first (and
    keeps them as they are when neither precedes); and wires with (z, y)
    centres (1,5), (1,3), (0,9), whatever their X and in whatever order
    they are given, sort to (0,9), (1,3), (1,5). *)
Theorem SortWires_order :
  DistanceTol == 1152921504606847 # 1152921504606846976
  /\ (forall a b,
        beyond_tolerance a b = true
        <-> DistanceTol < Qabs (round_to_double (a - b)))
  /\ (forall w1 w2, sortWireStandard w1 w2 = true <-> wire_precedes w1 w2)
  /\ (forall w1 w2, wire_precedes w2 w1 -> SortWires [w1; w2] = [w2; w1])
  /\ (forall w1 w2, ~ wire_precedes w2 w1 -> SortWires [w1; w2] = [w1; w2])
  /\ (forall x1 x2 x3 wgeo,
        Permutation wgeo [wire_at x1 5 1; wire_at x2 3 1; wire_at x3 9 0] ->
        SortWires wgeo = [wire_at x3 9 0; wire_at x2 3 1; wire_at x1 5 1]).
Proof.
  split; [exact DistanceTol_value |].
  split; [exact beyond_tolerance_rounded |].
  split; [exact sortWireStandard_spec |].
  split; [| split].
  - intros w1 w2 H. apply sortWireStandard_spec in H.
    unfold SortWires. rewrite std_sort_pair, H. reflexivity.
  - intros w1 w2 H. unfold SortWires. rewrite std_sort_pair.
    destruct (sortWireStandard w2 w1) eqn:E; [| reflexivity].
    apply sortWireStandard_spec in E. contradiction.
  - intros x1 x2 x3 wgeo P. apply Permutation_three in P.
    repeat (destruct P as [<- | P]; [vm_compute; reflexivity |]). destruct P.
Qed.

Lemma SortWires_order_witness :
  SortWires [wire_at 0 5 1; wire_at 0 3 1] = [wire_at 0 3 1; wire_at 0 5 1]
  /\ SortWires [wire_at 0 3 1; wire_at 0 5 1]
     = [wire_at 0 3 1; wire_at 0 5 1]
  /\ SortWires [wire_at 7 5 1; wire_at 8 3 1; wire_at 9 9 0]
     = [wire_at 9 9 0; wire_at 8 3 1; wire_at 7 5 1].
Proof.
  destruct SortWires_order as [_ [_ [_ [H1 [H2 H3]]]]].
  split; [| split; [| apply H3; reflexivity]].
  - apply H1. right; left. unfold wire_y, wire_z, wire_at; simpl.
    repeat split; vm_compute; congruence.
  - apply H2. intros [[_ H] | [[_ [_ H]] | [_ [H _]]]];
      revert H; unfold wire_y, wire_z, wire_at; simpl; vm_compute;
      congruence.
Defined.

(** ** Order of the planes *)

(** C1, amended.  The comparison of two planes is true exactly when the
    first precedes the second in the order "world X of the local origin
    descending where the X differ by more than the tolerance, else world
    Z ascending where the Z differ by more than the tolerance, else
    world Y ascending"; the tolerance is the double nearest to 0.001 and
    is compared with the difference as the subtraction of doubles
    returns it.  For drift towards negative X two planes are sorted by
    this order; for drift towards positive X by its mirror image: X
    ascending, else Z descending, else Y descending.  Planes that lie
    pairwise further apart in X than the tolerance come out with the
    index growing along the drift direction: in strictly descending X
    for drift towards negative X, in strictly ascending X for drift
    towards positive X.  Planes at X = 5, 10, 15, whatever their Y and Z
    and in whatever order they are given, sorted for drift towards
    negative X come out as X = 15, 10, 5. *)
Theorem SortPlanes_order :
  DistanceTol == 1152921504606847 # 1152921504606846976
  /\ (forall a b,
        beyond_tolerance a b = true
        <-> DistanceTol < Qabs (round_to_double (a - b)))
  /\ (forall p1 p2,
        sortPlaneStandard p1 p2 = true <-> plane_precedes_negX p1 p2)
  /\ (forall p1 p2, plane_precedes_negX p2 p1 ->
        fst (SortPlanes [p1; p2] kNegX) = [p2; p1])
  /\ (forall p1 p2, ~ plane_precedes_negX p2 p1 ->
        fst (SortPlanes [p1; p2] kNegX) = [p1; p2])
  /\ (forall p1 p2, plane_precedes_posX p2 p1 ->
        fst (SortPlanes [p1; p2] kPosX) = [p2; p1])
  /\ (forall p1 p2, ~ plane_precedes_posX p2 p1 ->
        fst (SortPlanes [p1; p2] kPosX) = [p1; p2])
  /\ (forall pgeo, separated plane_x pgeo ->
        StronglySorted (fun p1 p2 => plane_x p2 < plane_x p1)
          (fst (SortPlanes pgeo kNegX))
        /\ StronglySorted (fun p1 p2 => plane_x p1 < plane_x p2)
             (fst (SortPlanes pgeo kPosX)))
  /\ (forall y1 z1 y2 z2 y3 z3 pgeo,
        Permutation pgeo
          [plane_at 5 y1 z1; plane_at 10 y2 z2; plane_at 15 y3 z3] ->
        fst (SortPlanes pgeo kNegX)
        = [plane_at 15 y3 z3; plane_at 10 y2 z2; plane_at 5 y1 z1]).
Proof.
  split; [exact DistanceTol_value |].
  split; [exact beyond_tolerance_rounded |].
  split; [exact sortPlaneStandard_spec |].
  split; [| split; [| split; [| split; [| split]]]].
  - intros p1 p2 H. apply sortPlaneStandard_spec in H.
    rewrite SortPlanes_negX, std_sort_pair, H. reflexivity.
  - intros p1 p2 H. rewrite SortPlanes_negX, std_sort_pair.
    destruct (sortPlaneStandard p2 p1) eqn:E; [| reflexivity].
    apply sortPlaneStandard_spec in E. contradiction.
  - intros p1 p2 H. apply plane_precedes_mirror, sortPlaneStandard_spec in H.
    rewrite SortPlanes_posX, std_sort_reverse_pair, H. reflexivity.
  - intros p1 p2 H. rewrite SortPlanes_posX, std_sort_reverse_pair.
    destruct (sortPlaneStandard p1 p2) eqn:E; [| reflexivity].
    apply sortPlaneStandard_spec, plane_precedes_mirror in E. contradiction.
  - exact SortPlanes_separated_order.
  - intros y1 z1 y2 z2 y3 z3 pgeo P. apply Permutation_three in P.
    repeat (destruct P as [<- | P]; [vm_compute; reflexivity |]). destruct P.
Qed.

Lemma SortPlanes_order_witness :
  fst (SortPlanes [plane_at 5 0 0; plane_at 10 0 0] kNegX)
  = [plane_at 10 0 0; plane_at 5 0 0]
  /\ fst (SortPlanes [plane_at 10 0 0; plane_at 5 0 0] kNegX)
     = [plane_at 10 0 0; plane_at 5 0 0]
  /\ fst (SortPlanes [plane_at 10 0 0; plane_at 5 0 0] kPosX)
     = [plane_at 5 0 0; plane_at 10 0 0]
  /\ fst (SortPlanes [plane_at 5 0 0; plane_at 10 0 0] kPosX)
     = [plane_at 5 0 0; plane_at 10 0 0]
  /\ (StronglySorted (fun p1 p2 => plane_x p2 < plane_x p1)
        (fst (SortPlanes [plane_at 5 0 0; plane_at 15 0 0; plane_at 10 0 0]
                kNegX))
      /\ StronglySorted (fun p1 p2 => plane_x p1 < plane_x p2)
           (fst (SortPlanes [plane_at 5 0 0; plane_at 15 0 0; plane_at 10 0 0]
                   kPosX)))
  /\ fst (SortPlanes [plane_at 5 0 0; plane_at 10 0 0; plane_at 15 0 0] kNegX)
     = [plane_at 15 0 0; plane_at 10 0 0; plane_at 5 0 0].
Proof.
  destruct SortPlanes_order as [_ [_ [_ [H1 [H2 [H3 [H4 [H5 H6]]]]]]]].
  split; [| split; [| split; [| split; [| split;
                                          [| apply H6; reflexivity]]]]].
  - apply H1. left. split; vm_compute; reflexivity.
  - apply H2. intros [[_ H] | [[H _] | [H _]]]; revert H; vm_compute;
      congruence.
  - apply H3. left. split; vm_compute; reflexivity.
  - apply H4. intros [[_ H] | [[H _] | [H _]]]; revert H; vm_compute;
      congruence.
  - apply H5. split.
    + constructor; [| constructor; [| constructor; [intros [] | constructor]]].
      * intros [H | [H | []]];
          apply (f_equal plane_x) in H; vm_compute in H; discriminate H.
      * intros [H | []].
        apply (f_equal plane_x) in H; vm_compute in H; discriminate H.
    + intros a b [<- | [<- | [<- | []]]] [<- | [<- | [<- | []]]];
        try (left; reflexivity); right; vm_compute; reflexivity.
Defined.

(** C1 as stated fails for drift towards positive X: two planes at the
    same world X, at Z = 0 and Z = 10, are sorted with the plane at
    Z = 10 first, so the fall-through there is Z descending.  And the
    index does not grow along the drift direction in every collection:
    with d the tolerance, three planes at X = 0, d and 2 d, and
    Z = 0, 1 and 2, sorted for drift towards negative X come out as
    X = 2 d, 0, d, the plane at 0 before the plane at d. *)
Lemma SortPlanes_posX_tie_counterexample :
  let d := DistanceTol in
  let pgeo := [plane_at 0 0 0; plane_at d 0 1; plane_at (2 * d) 0 2] in
  beyond_tolerance (plane_x (plane_at 0 0 0)) (plane_x (plane_at 0 0 10))
  = false
  /\ plane_z (plane_at 0 0 0) < plane_z (plane_at 0 0 10)
  /\ fst (SortPlanes [plane_at 0 0 0; plane_at 0 0 10] kPosX)
     = [plane_at 0 0 10; plane_at 0 0 0]
  /\ fst (SortPlanes [plane_at 0 0 10; plane_at 0 0 0] kPosX)
     = [plane_at 0 0 10; plane_at 0 0 0]
  /\ is_double d /\ is_double (2 * d) /\ 0 < d
  /\ fst (SortPlanes pgeo kNegX)
     = [plane_at (2 * d) 0 2; plane_at 0 0 0; plane_at d 0 1].
Proof.
  intros d pgeo.
  split; [vm_compute; reflexivity |].
  split; [vm_compute; reflexivity |].
  split; [vm_compute; reflexivity |].
  split; [vm_compute; reflexivity |].
  split; [split; [vm_compute; reflexivity | vm_compute; discriminate] |].
  split; [split; [vm_compute; reflexivity | vm_compute; discriminate] |].
  split; vm_compute; reflexivity.
Qed.

(** ** The containment test of the auxiliary detectors *)

Lemma band_half_width_faces (len w1 w2 : Q) :
  ~ len == 0 ->
  band_half_width len w1 w2 (- (len / 2)) == w1
  /\ band_half_width len w1 w2 (len / 2) == w2
  /\ band_half_width len w1 w2 0 == (w1 + w2) / 2.
Proof.
  intros Hl. unfold band_half_width. split; [| split]; field; exact Hl.
Qed.

(** The half-width that the code computes from [HalfCenterWidth], were
    the arithmetic exact. *)
Lemma band_half_width_code (len w1 w2 z : Q) :
  ~ len == 0 ->
  0.5 * (w1 + w2) - z * (0.5 * (w1 + w2) - w2) / (0.5 * len)
  == band_half_width len w1 w2 z.
Proof.
  intros Hl. unfold band_half_width. field. exact Hl.
Qed.

(** The lower bounds of the code are the upper bounds negated. *)
Lemma lower_bound_sub (a t : fp) (x : double) :
  (Num x >=? - a - t)%fp = (- (a + t) <=? Num x)%fp.
Proof.
  unfold fp_ge. apply fp_le_same; [apply fp_sub_neg_l | apply fp_same_refl].
Qed.

Lemma lower_bound_div (a b t : fp) (x : double) :
  (Num x >=? - a / b - t)%fp = (- (a / b + t) <=? Num x)%fp.
Proof.
  unfold fp_ge. apply fp_le_same; [| apply fp_same_refl].
  eapply fp_same_trans; [apply fp_sub_same, fp_div_neg_l |].
  apply fp_sub_neg_l.
Qed.

Lemma lower_bound_band (c s t : fp) (x : double) :
  (Num x >=? - c + s - t)%fp = (- (c - s + t) <=? Num x)%fp.
Proof.
  unfold fp_ge. apply fp_le_same; [| apply fp_same_refl].
  eapply fp_same_trans; [apply fp_sub_same, fp_add_neg_l |].
  apply fp_sub_neg_l.
Qed.

Lemma NearestAuxDet_accepts_spec (ad : AuxDetGeo.t) (point : Point)
  (tolerance : double) :
  NearestAuxDet_accepts ad point tolerance
  = inside_band (AuxDetGeo.WorldToLocal ad point) (AuxDetGeo.Length ad)
      (AuxDetGeo.HalfHeight ad) (AuxDetGeo.HalfWidth1 ad)
      (AuxDetGeo.HalfWidth2 ad) tolerance.
Proof.
  unfold NearestAuxDet_accepts, inside_band, within, band_half_width_fp;
    cbv zeta.
  rewrite <- !fp_le_abs.
  rewrite lower_bound_div, lower_bound_sub, lower_bound_band.
  rewrite !andb_assoc. reflexivity.
Qed.

Lemma NearestSensitiveAuxDet_accepts_spec (adsg : AuxDetSensitiveGeo.t)
  (point : Point) (tolerance : double) :
  NearestSensitiveAuxDet_accepts adsg point tolerance
  = inside_band (AuxDetSensitiveGeo.WorldToLocal adsg point)
      (AuxDetSensitiveGeo.Length adsg) (AuxDetSensitiveGeo.HalfHeight adsg)
      (AuxDetSensitiveGeo.HalfWidth1 adsg) (AuxDetSensitiveGeo.HalfWidth2 adsg)
      tolerance.
Proof.
  unfold NearestSensitiveAuxDet_accepts, inside_band, within,
    band_half_width_fp; cbv zeta.
  rewrite <- !fp_le_abs.
  rewrite lower_bound_band.
  unfold fp_ge. rewrite !andb_assoc. reflexivity.
Qed.

(** An operation whose exact result is a double returns it. *)
Lemma fp_round_is_double (q : Q) : is_double q -> fp_same (fp_round q) (Num q).
Proof. intros [R B]. apply fp_round_double; assumption. Qed.

Lemma is_double_comp (p q : Q) : p == q -> is_double p -> is_double q.
Proof.
  intros E [R B]. split.
  - rewrite <- (round_to_double_comp p q E), R. exact E.
  - rewrite <- E. exact B.
Qed.

Lemma fp_add_exact (a b : double) :
  is_double (a + b) -> fp_same (fp_add (Num a) (Num b)) (Num (a + b)).
Proof. intros H. apply (fp_round_is_double (a + b) H). Qed.

Lemma fp_sub_exact (a b : double) :
  is_double (a - b) -> fp_same (fp_sub (Num a) (Num b)) (Num (a - b)).
Proof.
  intros H. eapply fp_same_trans; [apply fp_sub_Num |].
  apply fp_round_is_double, H.
Qed.

Lemma zero_same_Num (s : bool) (q : Q) : q == 0 -> fp_same (zero s) (Num q).
Proof. intros E. destruct s; simpl; rewrite E; reflexivity. Qed.

Lemma fp_mul_exact (a b : double) :
  is_double (a * b) -> fp_same (fp_mul (Num a) (Num b)) (Num (a * b)).
Proof.
  intros H. rewrite fp_mul_finite by exact I. simpl value.
  destruct (Qeq_bool (a * b) 0) eqn:E; bool_to_Q.
  - apply zero_same_Num, E.
  - apply fp_round_is_double, H.
Qed.

Lemma fp_div_exact (a b : double) :
  ~ b == 0 -> is_double (a / b) ->
  fp_same (fp_div (Num a) (Num b)) (Num (a / b)).
Proof.
  intros Hb H. rewrite fp_div_finite by exact I. simpl.
  replace (Qeq_bool b 0) with false by (symmetry; bool_to_Q; exact Hb).
  destruct (Qeq_bool (a / b) 0) eqn:E; bool_to_Q.
  - apply zero_same_Num, E.
  - apply fp_round_is_double, H.
Qed.

(** Where no operation rounds, the band of the code is the exact
    interpolation. *)
Lemma band_half_width_fp_exact (len w1 w2 z : double) :
  let c := 0.5 * (w1 + w2) in
  ~ len == 0 ->
  is_double (w1 + w2) -> is_double c -> is_double (c - w2) ->
  is_double (z * (c - w2)) -> is_double (0.5 * len) ->
  is_double (z * (c - w2) / (0.5 * len)) ->
  is_double (band_half_width len w1 w2 z) ->
  fp_same (band_half_width_fp len w1 w2 z)
    (Num (band_half_width len w1 w2 z)).
Proof.
  intros c Hl D1 D2 D3 D4 D5 D6 D7. unfold band_half_width_fp; cbv zeta.
  assert (fp_same (Num 0.5 * (Num w1 + Num w2))%fp (Num c)) as C.
  { eapply fp_same_trans;
      [apply fp_mul_same; [apply fp_same_refl | apply fp_add_exact, D1] |].
    apply fp_mul_exact, D2. }
  assert (fp_same (Num 0.5 * (Num w1 + Num w2) - Num w2)%fp (Num (c - w2)))
    as S.
  { eapply fp_same_trans;
      [apply fp_sub_same2; [exact C | apply fp_same_refl] |].
    apply fp_sub_exact, D3. }
  assert (fp_same (Num 0.5 * Num len)%fp (Num (0.5 * len))) as L
    by apply fp_mul_exact, D5.
  assert (exists d, (Num 0.5 * Num len)%fp = Num d /\ d == 0.5 * len)
    as [d [Ed Hd]].
  { destruct (Num 0.5 * Num len)%fp as [d | | s |]; simpl in L;
      try contradiction.
    - exists d. split; [reflexivity | exact L].
    - exfalso. apply Hl. lra. }
  rewrite Ed.
  assert (fp_same
            (Num z * (Num 0.5 * (Num w1 + Num w2) - Num w2) / Num d)%fp
            (Num (z * (c - w2) / (0.5 * len)))) as T.
  { eapply fp_same_trans;
      [apply fp_div_same_l;
       eapply fp_same_trans;
       [apply fp_mul_same; [apply fp_same_refl | exact S]
       | apply fp_mul_exact, D4] |].
    eapply fp_same_trans; [apply fp_div_exact |].
    - lra.
    - apply (is_double_comp (z * (c - w2) / (0.5 * len))); [| exact D6].
      rewrite Hd. reflexivity.
    - simpl. rewrite Hd. reflexivity. }
  eapply fp_same_trans; [apply fp_sub_same2; [exact C | exact T] |].
  assert (c - z * (c - w2) / (0.5 * len) == band_half_width len w1 w2 z) as E
    by (apply band_half_width_code, Hl).
  eapply fp_same_trans;
    [apply fp_sub_exact; apply (is_double_comp _ _ (Qeq_sym _ _ E)), D7 |].
  exact E.
Qed.

Lemma is_double_0 : is_double 0.
Proof.
  split; [reflexivity |]. apply Qlt_le_weak, DBL_MAX_pos.
Qed.

Lemma fp_mul_Num_not_NaN (a b : double) : fp_mul (Num a) (Num b) <> NaN.
Proof.
  rewrite fp_mul_finite by exact I. simpl.
  destruct (Qeq_bool (a * b) 0).
  - destruct (xorb _ _); discriminate.
  - unfold fp_round.
    destruct (Qltb _ _); [discriminate |].
    destruct (Qeq_bool _ _); [| discriminate].
    destruct (Qltb _ _); discriminate.
Qed.

Lemma fp_div_zero_l (q : double) (d : fp) :
  q == 0 -> d <> NaN -> is_zero d = false ->
  fp_same (fp_div (Num q) d) (Num 0).
Proof.
  intros Hq Hd Z. destruct d as [p | | s |]; simpl in Z; try discriminate.
  - simpl. rewrite Z.
    replace (Qeq_bool (q / p) 0) with true.
    + apply zero_same_Num. reflexivity.
    + symmetry. bool_to_Q. rewrite Hq. unfold double in *. unfold Qdiv. ring.
  - simpl. apply zero_same_Num. reflexivity.
  - contradiction.
Qed.

Lemma fp_div_zero_zero (a d : fp) :
  is_zero a = true -> is_zero d = true -> fp_div a d = NaN.
Proof.
  intros Ha Hd.
  destruct a as [p | | s |], d as [q | | s' |]; simpl in Ha, Hd;
    try discriminate; simpl; rewrite ?Ha, ?Hd; reflexivity.
Qed.

(** The band of an element of equal half-widths [w]: the difference
    [HalfCenterWidth - HalfWidth2] is zero, and what the code adds to
    [HalfCenterWidth] is that zero divided by [0.5 * Length]. *)
Lemma box_center (w : double) :
  is_double w -> Qabs (w + w) <= DBL_MAX ->
  fp_same (Num 0.5 * (Num w + Num w))%fp (Num w).
Proof.
  intros [R B] B2.
  assert (is_double (w + w)) as D2
    by (split; [apply round_to_double_twice, R | exact B2]).
  eapply fp_same_trans;
    [apply fp_mul_same; [apply fp_same_refl | apply fp_add_exact, D2] |].
  assert (w == 0.5 * (w + w)) as E by (unfold double in *; ring).
  eapply fp_same_trans;
    [apply fp_mul_exact, (is_double_comp w _ E); split; assumption |].
  simpl. symmetry. exact E.
Qed.

Lemma box_slope (w z : double) :
  is_double w -> Qabs (w + w) <= DBL_MAX ->
  fp_same (Num z * (Num 0.5 * (Num w + Num w) - Num w))%fp (Num 0).
Proof.
  intros D B2.
  assert (0 == w - w) as E0 by (unfold double in *; ring).
  assert (fp_same (Num 0.5 * (Num w + Num w) - Num w)%fp (Num 0)) as S.
  { eapply fp_same_trans;
      [apply fp_sub_same2; [apply box_center; assumption | apply fp_same_refl]
      |].
    eapply fp_same_trans;
      [apply fp_sub_exact, (is_double_comp 0 _ E0), is_double_0 |].
    simpl. symmetry. exact E0. }
  assert (0 == z * 0) as E1 by (unfold double in *; ring).
  eapply fp_same_trans;
    [apply fp_mul_same; [apply fp_same_refl | exact S] |].
  eapply fp_same_trans;
    [apply fp_mul_exact, (is_double_comp 0 _ E1), is_double_0 |].
  simpl. symmetry. exact E1.
Qed.

Lemma band_half_width_fp_box (len w z : double) :
  is_double w -> Qabs (w + w) <= DBL_MAX ->
  is_zero (Num 0.5 * Num len)%fp = false ->
  fp_same (band_half_width_fp len w w z) (Num w).
Proof.
  intros D B2 Z. unfold band_half_width_fp; cbv zeta.
  assert (fp_same
            (Num z * (Num 0.5 * (Num w + Num w) - Num w)
               / (Num 0.5 * Num len))%fp (Num 0)) as T.
  { pose proof (box_slope w z D B2) as S.
    destruct (Num z * (Num 0.5 * (Num w + Num w) - Num w))%fp
      as [q | | s |] eqn:Eq; simpl in S; try contradiction.
    - apply fp_div_zero_l; [exact S | apply fp_mul_Num_not_NaN | exact Z].
    - eapply fp_same_trans;
        [apply (fp_div_same_l NegZero (Num 0)); simpl; reflexivity |].
      apply fp_div_zero_l;
        [reflexivity | apply fp_mul_Num_not_NaN | exact Z]. }
  eapply fp_same_trans;
    [apply fp_sub_same2; [apply box_center; assumption | exact T] |].
  assert (w == w - 0) as E by (unfold double in *; ring).
  eapply fp_same_trans; [apply fp_sub_exact, (is_double_comp w _ E), D |].
  simpl. symmetry. exact E.
Qed.

(** With equal half-widths the test is that of a rectangular box, unless
    [0.5 * Length] is zero. *)
Lemma inside_band_box (local : Point) (len hh w tol : double) :
  is_double w -> Qabs (w + w) <= DBL_MAX ->
  is_zero (Num 0.5 * Num len)%fp = false ->
  inside_band local len hh w w tol = inside_box local len hh w tol.
Proof.
  intros D B2 Z. unfold inside_band, inside_box. f_equal.
  unfold within. apply fp_le_same; [apply fp_same_refl |].
  apply fp_add_same; [| apply fp_same_refl].
  apply band_half_width_fp_box; assumption.
Qed.

(** Where [0.5 * Length] is zero, the band of such an element is zero
    divided by zero, and no point passes the test. *)
Lemma inside_band_flat (local : Point) (len hh w tol : double) :
  is_double w -> Qabs (w + w) <= DBL_MAX ->
  is_zero (Num 0.5 * Num len)%fp = true ->
  inside_band local len hh w w tol = false.
Proof.
  intros D B2 Z. unfold inside_band.
  assert (band_half_width_fp len w w (coord2 local) = NaN) as N.
  { unfold band_half_width_fp; cbv zeta.
    rewrite (fp_div_zero_zero _ _
               (eq_trans (is_zero_same _ _ (box_slope w (coord2 local) D B2))
                  eq_refl) Z).
    unfold fp_sub. simpl fp_neg.
    destruct (Num 0.5 * (Num w + Num w))%fp; reflexivity. }
  rewrite N. unfold within at 3.
  replace (fp_abs (Num (coord0 local)) <=? NaN + Num tol)%fp with false.
  - apply andb_false_r.
  - simpl. reflexivity.
Qed.




(** ** Containment queries *)

Lemma PositionToTPCptr_scan_first (point : Point) (wiggle : double)
  (before : list TPCGeo.t) (tpc : TPCGeo.t) (after : list TPCGeo.t) :
  (forall t, In t before -> TPCGeo.ContainsPosition t point wiggle = false) ->
  TPCGeo.ContainsPosition tpc point wiggle = true ->
  PositionToTPCptr_scan (before ++ tpc :: after) point wiggle = Some tpc.
Proof.
  intros Hb Ht. induction before as [| t before IH]; simpl.
  - rewrite Ht. reflexivity.
  - rewrite (Hb t) by (left; reflexivity).
    apply IH. intros t' Ht'. apply Hb. right. exact Ht'.
Qed.

Lemma PositionToTPCptr_scan_none (point : Point) (wiggle : double)
  (tpcs : list TPCGeo.t) :
  (forall t, In t tpcs -> TPCGeo.ContainsPosition t point wiggle = false) ->
  PositionToTPCptr_scan tpcs point wiggle = None.
Proof.
  induction tpcs as [| t tpcs IH]; simpl; intros H.
  - reflexivity.
  - rewrite (H t) by (left; reflexivity). apply IH. auto.
Qed.

Lemma NearestAuxDet_from_first (a : N) (point : Point) (tolerance : double)
  (before : list AuxDetGeo.t) (ad : AuxDetGeo.t) (after : list AuxDetGeo.t) :
  (forall d, In d before -> NearestAuxDet_accepts d point tolerance = false) ->
  NearestAuxDet_accepts ad point tolerance = true ->
  NearestAuxDet_from a (before ++ ad :: after) point tolerance
  = Some (a + N.of_nat (List.length before))%N.
Proof.
  intros Hb Ha. revert a. induction before as [| d before IH]; intros a; simpl.
  - rewrite Ha. f_equal. lia.
  - rewrite (Hb d) by (left; reflexivity). rewrite IH.
    + f_equal. lia.
    + intros d' Hd'. apply Hb. right. exact Hd'.
Qed.

Lemma NearestAuxDet_from_none (a : N) (point : Point) (tolerance : double)
  (auxDets : list AuxDetGeo.t) :
  (forall d, In d auxDets -> NearestAuxDet_accepts d point tolerance = false) ->
  NearestAuxDet_from a auxDets point tolerance = None.
Proof.
  revert a. induction auxDets as [| d auxDets IH]; intros a H; simpl.
  - reflexivity.
  - rewrite (H d) by (left; reflexivity). apply IH.
    intros d' Hd'. apply H. right. exact Hd'.
Qed.

(** C3.  A containment query returns the first candidate, in the order
    of the collection, whose test accepts the point, whatever the
    candidates after it do.  When no candidate accepts the point at the
    given wiggle or tolerance, [PositionToTPCptr] returns the null
    pointer, and [PositionToTPC] and [NearestAuxDet] throw an exception
    whose message carries the point. *)
Theorem containment_first_match :
  (forall c point wiggle before tpc after,
      CryostatGeo.TPCs c = before ++ tpc :: after ->
      (forall t, In t before ->
                 TPCGeo.ContainsPosition t point wiggle = false) ->
      TPCGeo.ContainsPosition tpc point wiggle = true ->
      PositionToTPCptr c point wiggle = Some tpc
      /\ PositionToTPC c point wiggle = Ok tpc)
  /\ (forall c point wiggle,
        (forall t, In t (CryostatGeo.TPCs c) ->
                   TPCGeo.ContainsPosition t point wiggle = false) ->
        PositionToTPCptr c point wiggle = None
        /\ PositionToTPC c point wiggle
           = Throw (cet_exception "CryostatGeo"
                      [Text "Can't find any TPC for position "; Pt point;
                       Text " within "; Unsigned (CryostatGeo.ID c);
                       Text newline]))
  /\ (forall point auxDets tolerance before ad after,
        auxDets = before ++ ad :: after ->
        (forall d, In d before ->
                   NearestAuxDet_accepts d point tolerance = false) ->
        NearestAuxDet_accepts ad point tolerance = true ->
        NearestAuxDet point auxDets tolerance
        = Ok (N.of_nat (List.length before)))
  /\ (forall point auxDets tolerance,
        (forall d, In d auxDets ->
                   NearestAuxDet_accepts d point tolerance = false) ->
        NearestAuxDet point auxDets tolerance
        = Throw (cet_exception "AuxDetChannelMapAlg"
                   [Text "Can't find AuxDet for position (";
                    Dbl (coord0 point); Text ","; Dbl (coord1 point);
                    Text ","; Dbl (coord2 point); Text (")" ++ newline)])).
Proof.
  split; [| split; [| split]].
  - intros c point wiggle before tpc after Hc Hb Ht.
    unfold PositionToTPC, PositionToTPCptr. rewrite Hc.
    rewrite (PositionToTPCptr_scan_first point wiggle before tpc after Hb Ht).
    split; reflexivity.
  - intros c point wiggle H. unfold PositionToTPC, PositionToTPCptr.
    rewrite (PositionToTPCptr_scan_none point wiggle _ H).
    split; reflexivity.
  - intros point auxDets tolerance before ad after -> Hb Ha.
    unfold NearestAuxDet.
    rewrite (NearestAuxDet_from_first 0 point tolerance before ad after Hb Ha).
    reflexivity.
  - intros point auxDets tolerance H. unfold NearestAuxDet.
    rewrite (NearestAuxDet_from_none 0 point tolerance auxDets H).
    reflexivity.
Qed.

Lemma containment_first_match_witness :
  let miss := TPCGeo.mk (fun p => p) (fun _ _ => false) (0, 0)%N in
  let hit1 := TPCGeo.mk (fun p => p) (fun _ _ => true) (0, 1)%N in
  let hit2 := TPCGeo.mk (fun p => p) (fun _ _ => true) (0, 2)%N in
  let c := CryostatGeo.mk (fun p => p) [miss; hit1; hit2] [] 0%N in
  let empty := CryostatGeo.mk (fun p => p) [miss] [] 7%N in
  let box := AuxDetGeo.mk "volAuxDet0" (fun p => p) 2 2 3 10 [] in
  let far := AuxDetGeo.mk "volAuxDet1" (translate 100 0 0) 2 2 3 10 [] in
  PositionToTPCptr c origin 1 = Some hit1
  /\ PositionToTPC c origin 1 = Ok hit1
  /\ PositionToTPCptr empty origin 1 = None
  /\ PositionToTPC empty origin 1
     = Throw (cet_exception "CryostatGeo"
                [Text "Can't find any TPC for position "; Pt origin;
                 Text " within "; Unsigned 7%N; Text newline])
  /\ NearestAuxDet origin [far; box; box] 0 = Ok 1%N
  /\ NearestAuxDet origin [far] 0
     = Throw (cet_exception "AuxDetChannelMapAlg"
                [Text "Can't find AuxDet for position ("; Dbl 0; Text ",";
                 Dbl 0; Text ","; Dbl 0; Text (")" ++ newline)]).
Proof.
  intros miss hit1 hit2 c empty box far.
  destruct containment_first_match as [H1 [H2 [H3 H4]]].
  assert (forall t, In t [miss] -> TPCGeo.ContainsPosition t origin 1 = false)
    as Hmiss by (intros t [<- | []]; reflexivity).
  assert (forall d, In d [far] -> NearestAuxDet_accepts d origin 0 = false)
    as Hfar by (intros d [<- | []]; vm_compute; reflexivity).
  destruct (H1 c origin 1 [miss] hit1 [hit2] eq_refl Hmiss eq_refl) as [A B].
  destruct (H2 empty origin 1 Hmiss) as [C D].
  refine (conj A (conj B (conj C (conj D (conj _ _))))).
  - apply (H3 origin [far; box; box] 0 [far] box [box] eq_refl Hfar).
    vm_compute. reflexivity.
  - apply (H4 origin [far] 0 Hfar).
Defined.

(** ** The closest optical detector *)

(** What the loop of [GetClosestOpDet] returns: the candidate it started
    with, when no remaining detector is closer than the starting
    distance; otherwise the index of a remaining detector that is closer
    than the starting distance and at least as close as every other
    remaining one. *)
Lemma GetClosestOpDet_from_spec (point : Point) (opdets : list OpDetGeo.t) :
  forall (o ClosestDet : N) (ClosestDist : double),
    let r := GetClosestOpDet_from o opdets point ClosestDet ClosestDist in
    (r = ClosestDet
     /\ forall od, In od opdets ->
                   ClosestDist <= OpDetGeo.DistanceToPoint od point)
    \/ (exists k od,
          nth_error opdets k = Some od /\ r = (o + N.of_nat k)%N
          /\ OpDetGeo.DistanceToPoint od point < ClosestDist
          /\ forall od', In od' opdets ->
                         OpDetGeo.DistanceToPoint od point
                         <= OpDetGeo.DistanceToPoint od' point).
Proof.
  induction opdets as [| od rest IH]; intros o cd cdist; simpl.
  - left. split; [reflexivity | contradiction].
  - destruct (Qltb (OpDetGeo.DistanceToPoint od point) cdist) eqn:E;
      bool_to_Q.
    + destruct (IH (o + 1)%N o (OpDetGeo.DistanceToPoint od point))
        as [[Hr Hall] | [k [od' [Hk [Hr [Hlt Hall]]]]]].
      * right. exists 0%nat, od. simpl. repeat split.
        -- rewrite Hr. lia.
        -- exact E.
        -- intros od' [<- | Hin]; [apply Qle_refl | auto].
      * right. exists (S k), od'. simpl. repeat split.
        -- exact Hk.
        -- rewrite Hr. lia.
        -- apply (Qlt_trans _ _ _ Hlt E).
        -- intros od'' [<- | Hin]; [apply Qlt_le_weak, Hlt | auto].
    + destruct (IH (o + 1)%N cd cdist)
        as [[Hr Hall] | [k [od' [Hk [Hr [Hlt Hall]]]]]].
      * left. split; [exact Hr |]. intros od' [<- | Hin]; auto.
      * right. exists (S k), od'. simpl. repeat split.
        -- exact Hk.
        -- rewrite Hr. lia.
        -- exact Hlt.
        -- intros od'' [<- | Hin]; [| auto].
           apply Qlt_le_weak, (Qlt_le_trans _ _ _ Hlt E).
Qed.

(** When some optical detector is closer than the largest [double], the
    index returned is that of a detector at least as close to the point
    as every detector of the cryostat. *)
Lemma GetClosestOpDet_nearest (c : CryostatGeo.t) (point : Point) :
  (exists od, In od (CryostatGeo.OpDets c)
              /\ OpDetGeo.DistanceToPoint od point < DBL_MAX) ->
  exists od,
    nth_error (CryostatGeo.OpDets c) (N.to_nat (GetClosestOpDet c point))
    = Some od
    /\ forall od', In od' (CryostatGeo.OpDets c) ->
                   OpDetGeo.DistanceToPoint od point
                   <= OpDetGeo.DistanceToPoint od' point.
Proof.
  intros [od0 [Hin Hlt]]. unfold GetClosestOpDet.
  destruct (GetClosestOpDet_from_spec point (CryostatGeo.OpDets c)
              0%N UINT_MAX DBL_MAX)
    as [[_ Hall] | [k [od [Hk [Hr [_ Hall]]]]]].
  - exfalso. apply (Qlt_not_le _ _ Hlt), Hall, Hin.
  - exists od. rewrite Hr. split; [| exact Hall].
    replace (N.to_nat (0 + N.of_nat k)) with k by lia. exact Hk.
Qed.

Lemma UINT_MAX_is_not_DBL_MAX :
  Qeq_bool (inject_Z (Z.of_N UINT_MAX)) DBL_MAX = false.
Proof. vm_compute. reflexivity. Qed.

(** C4, the code at a cryostat without optical detectors:
    [GetClosestOpDet] returns the largest [unsigned int];
    [GetClosestOpDetPtr] compares that index with the largest [double],
    finds them different, asks [OpDet] for the detector of that index
    and is left by the exception [OpDetOutOfRange]: it does not return
    the null pointer. *)
Theorem GetClosestOpDetPtr_without_OpDets :
  forall trans tpcs id point,
    let c := CryostatGeo.mk trans tpcs [] id in
    GetClosestOpDet c point = UINT_MAX
    /\ GetClosestOpDetPtr c point
       = Throw (cet_exception "OpDetOutOfRange"
                  [Text "Request for non-existant OpDet ";
                   Unsigned 4294967295]).
Proof.
  intros trans tpcs id point c. split; [reflexivity |].
  unfold GetClosestOpDetPtr.
  change (GetClosestOpDet c point) with UINT_MAX.
  rewrite UINT_MAX_is_not_DBL_MAX. reflexivity.
Qed.

(** ** Channel mapping *)

Lemma ChannelToAuxDet_scan_none (entries : std_map string) (detName : string) :
  (forall e, In e entries -> snd e <> detName) ->
  ChannelToAuxDet_scan entries detName = None.
Proof.
  induction entries as [| e entries IH]; simpl; intros H.
  - reflexivity.
  - destruct (String.eqb_spec (snd e) detName) as [E | _].
    + exfalso. apply (H e); [left; reflexivity | exact E].
    + apply IH. intros e' He'. apply H. right. exact He'.
Qed.

Lemma ChannelToAuxDet_scan_first (before after : std_map string)
  (idx : N) (detName : string) :
  (forall e, In e before -> snd e <> detName) ->
  ChannelToAuxDet_scan (before ++ (idx, detName) :: after) detName = Some idx.
Proof.
  induction before as [| e before IH]; simpl; intros H.
  - rewrite String.eqb_refl. reflexivity.
  - destruct (String.eqb_spec (snd e) detName) as [E | _].
    + exfalso. apply (H e); [left; reflexivity | exact E].
    + apply IH. intros e' He'. apply H. right. exact He'.
Qed.

(** C8.  [ChannelToSensitiveAuxDet] resolves the name first: when no
    entry of the name table has the name, it throws the exception of
    [ChannelToAuxDet]; otherwise, with [idx] the key of the first entry
    that has the name, it throws when the sensitive-channel table has no
    entry for [idx]; and when the table has the vector [v] for [idx], it
    throws when the channel is at least the size of [v] and returns
    [idx] with the sensitive-volume index stored at the channel when the
    channel is less than the size of [v]. *)
Theorem ChannelToSensitiveAuxDet_cases :
  forall alg auxDets detName channel,
    ((forall e, In e (fADGeoToName alg) -> snd e <> detName) ->
     ChannelToSensitiveAuxDet alg auxDets detName channel
     = Throw (cet_exception "Geometry"
                [Text "No AuxDetGeo matching name: "; Text detName]))
    /\ (forall before idx after,
          fADGeoToName alg = before ++ (idx, detName) :: after ->
          (forall e, In e before -> snd e <> detName) ->
          ChannelToAuxDet alg auxDets detName channel = Ok idx
          /\ (map_find idx (fADGeoToChannelAndSV alg) = None ->
              ChannelToSensitiveAuxDet alg auxDets detName channel
              = Throw (cet_exception "Geometry"
                         [Text "Given AuxDetGeo with index "; Unsigned idx;
                          Text " does not correspond to any vector of sensitive volumes"]))
          /\ (forall v,
                map_find idx (fADGeoToChannelAndSV alg) = Some v ->
                ((N.of_nat (List.length v) <= channel)%N ->
                 ChannelToSensitiveAuxDet alg auxDets detName channel
                 = Throw (cet_exception "Geometry"
                            [Text "Given AuxDetSensitive channel, ";
                             Unsigned channel;
                             Text ", cannot be found in vector associated to AuxDetGeo index: ";
                             Unsigned idx; Text ". Vector has size ";
                             Unsigned (N.of_nat (List.length v))]))
                /\ ((channel < N.of_nat (List.length v))%N ->
                    exists ch sv,
                      nth_error v (N.to_nat channel) = Some (ch, sv)
                      /\ ChannelToSensitiveAuxDet alg auxDets detName channel
                         = Ok (idx, sv)))).
Proof.
  intros alg auxDets detName channel. split.
  - intros H. unfold ChannelToSensitiveAuxDet, ChannelToAuxDet.
    rewrite (ChannelToAuxDet_scan_none _ _ H). reflexivity.
  - intros before idx after Hn Hb.
    assert (ChannelToAuxDet alg auxDets detName channel = Ok idx) as Hidx.
    { unfold ChannelToAuxDet. rewrite Hn.
      rewrite (ChannelToAuxDet_scan_first before after idx detName Hb).
      reflexivity. }
    split; [exact Hidx |].
    unfold ChannelToSensitiveAuxDet. rewrite Hidx. simpl bind. split.
    + intros ->. reflexivity.
    + intros v ->. split.
      * intros Hge. apply N.ltb_ge in Hge. rewrite Hge. reflexivity.
      * intros Hlt. pose proof Hlt as Hlt'. apply N.ltb_lt in Hlt'.
        rewrite Hlt'.
        destruct (nth_error v (N.to_nat channel)) as [[ch sv] |] eqn:En.
        -- exists ch, sv. split; [reflexivity |].
           rewrite (nth_error_nth v (N.to_nat channel) (0, 0)%N En).
           reflexivity.
        -- apply nth_error_None in En. lia.
Qed.

Lemma ChannelToSensitiveAuxDet_cases_witness :
  let alg := mkAlg [(0, "AuxDetA"); (3, "AuxDetB"); (5, "AuxDetC")]%N%string
                   [(3, [(0, 7); (1, 9)])]%N in
  ChannelToSensitiveAuxDet alg [] "AuxDetB" 1 = Ok (3, 9)%N
  /\ ChannelToSensitiveAuxDet alg [] "AuxDetB" 2
     = Throw (cet_exception "Geometry"
                [Text "Given AuxDetSensitive channel, "; Unsigned 2;
                 Text ", cannot be found in vector associated to AuxDetGeo index: ";
                 Unsigned 3; Text ". Vector has size "; Unsigned 2])
  /\ ChannelToSensitiveAuxDet alg [] "AuxDetC" 0
     = Throw (cet_exception "Geometry"
                [Text "Given AuxDetGeo with index "; Unsigned 5;
                 Text " does not correspond to any vector of sensitive volumes"])
  /\ ChannelToSensitiveAuxDet alg [] "AuxDetD" 0
     = Throw (cet_exception "Geometry"
                [Text "No AuxDetGeo matching name: "; Text "AuxDetD"]).
Proof.
  intros alg.
  assert (forall e, In e [(0%N, "AuxDetA"%string)] -> snd e <> "AuxDetB"%string)
    as HB by (intros e [<- | []]; discriminate).
  assert (forall e, In e [(0%N, "AuxDetA"%string); (3%N, "AuxDetB"%string)] ->
                    snd e <> "AuxDetC"%string)
    as HC by (intros e [<- | [<- | []]]; discriminate).
  destruct (ChannelToSensitiveAuxDet_cases alg [] "AuxDetB" 1) as [_ H1].
  destruct (H1 [(0, "AuxDetA")]%N%string 3%N [(5, "AuxDetC")]%N%string eq_refl HB)
    as [_ [_ H1v]].
  destruct (H1v _ eq_refl) as [_ H1ok].
  destruct (H1ok eq_refl) as [ch [sv [Hnth Hok]]].
  injection Hnth as <- <-.
  destruct (ChannelToSensitiveAuxDet_cases alg [] "AuxDetB" 2) as [_ H2].
  destruct (H2 [(0, "AuxDetA")]%N%string 3%N [(5, "AuxDetC")]%N%string eq_refl HB)
    as [_ [_ H2v]].
  destruct (H2v _ eq_refl) as [H2ge _].
  destruct (ChannelToSensitiveAuxDet_cases alg [] "AuxDetC" 0) as [_ H3].
  destruct (H3 [(0, "AuxDetA"); (3, "AuxDetB")]%N%string 5%N [] eq_refl HC)
    as [_ [H3none _]].
  destruct (ChannelToSensitiveAuxDet_cases alg [] "AuxDetD" 0) as [H4 _].
  refine (conj Hok (conj (H2ge _) (conj (H3none eq_refl) (H4 _)))).
  - vm_compute. discriminate.
  - intros e [<- | [<- | [<- | []]]]; discriminate.
Defined.

Lemma ChannelToAuxDet_scan_cases (table : std_map string) (detName : string) :
  (exists idx, ChannelToAuxDet_scan table detName = Some idx
               /\ In (idx, detName) table)
  \/ (ChannelToAuxDet_scan table detName = None
      /\ forall e, In e table -> snd e <> detName).
Proof.
  induction table as [| [i n] table IH]; simpl.
  - right. split; [reflexivity | intros e []].
  - destruct (String.eqb_spec n detName) as [E | NE].
    + left. exists i. split; [reflexivity |]. left. rewrite E. reflexivity.
    + destruct IH as [[idx [S I]] | [S F]].
      * left. exists idx. split; [exact S | right; exact I].
      * right. split; [exact S |].
        intros e [<- | He]; [exact NE | apply F, He].
Qed.

(** C10.  [ChannelToAuxDet] reads the requested name and the name table
    only: two calls with the same name, on channel maps whose name tables
    are equal, give the same result, whatever the rest of the two channel
    maps, the vectors of AuxDets and the channels they are given: both
    return the same index, the key of an entry that has the name, or both
    throw the same exception, no entry having the name. *)
Theorem ChannelToAuxDet_depends_on_name_only :
  forall alg1 alg2 detName auxDets1 auxDets2 channel1 channel2,
    fADGeoToName alg1 = fADGeoToName alg2 ->
    ChannelToAuxDet alg1 auxDets1 detName channel1
    = ChannelToAuxDet alg2 auxDets2 detName channel2
    /\ ((exists idx,
           ChannelToAuxDet alg1 auxDets1 detName channel1 = Ok idx
           /\ ChannelToAuxDet alg2 auxDets2 detName channel2 = Ok idx
           /\ In (idx, detName) (fADGeoToName alg1))
        \/ (ChannelToAuxDet alg1 auxDets1 detName channel1
            = Throw (cet_exception "Geometry"
                       [Text "No AuxDetGeo matching name: "; Text detName])
            /\ ChannelToAuxDet alg2 auxDets2 detName channel2
               = Throw (cet_exception "Geometry"
                          [Text "No AuxDetGeo matching name: "; Text detName])
            /\ forall e, In e (fADGeoToName alg1) -> snd e <> detName)).
Proof.
  intros alg1 alg2 detName auxDets1 auxDets2 channel1 channel2 E.
  unfold ChannelToAuxDet. rewrite <- E. split; [reflexivity |].
  destruct (ChannelToAuxDet_scan_cases (fADGeoToName alg1) detName)
    as [[idx [S I]] | [S F]]; rewrite S.
  - left. exists idx. repeat split. exact I.
  - right. repeat split. exact F.
Qed.

Lemma ChannelToAuxDet_depends_on_name_only_witness :
  let names := [(0, "AuxDetA"); (3, "AuxDetB")]%N%string in
  let alg1 := mkAlg names [(3, [(0, 7); (1, 9)])]%N in
  let alg2 := mkAlg names [] in
  let ad := AuxDetGeo.mk "volAuxDet0" (fun p => p) 2 4 3 10 [] in
  ChannelToAuxDet alg1 [] "AuxDetB" 1 = ChannelToAuxDet alg2 [ad] "AuxDetB" 8
  /\ ChannelToAuxDet alg1 [] "AuxDetB" 1 = Ok 3%N
  /\ ChannelToAuxDet alg1 [] "AuxDetC" 1 = ChannelToAuxDet alg2 [ad] "AuxDetC" 8.
Proof.
  intros names alg1 alg2 ad.
  split; [| split].
  - apply (ChannelToAuxDet_depends_on_name_only alg1 alg2 "AuxDetB" [] [ad]
             1%N 8%N eq_refl).
  - reflexivity.
  - apply (ChannelToAuxDet_depends_on_name_only alg1 alg2 "AuxDetC" [] [ad]
             1%N 8%N eq_refl).
Defined.

(** ** atoi and substr *)

Lemma leading_digits_digit (acc : Z) (c : ascii) (t : string) :
  isdigit c = true ->
  leading_digits acc (String c t) = leading_digits (10 * acc + digit_value c) t.
Proof. intros H. simpl. rewrite H. reflexivity. Qed.

Ltac digit_step IH :=
  cbn [NilEmpty.string_of_uint Pos.of_uint_acc Pos.of_uint];
  rewrite leading_digits_digit by reflexivity;
  match goal with
  | |- context [digit_value ?c] =>
      let v := eval vm_compute in (digit_value c) in
      change (digit_value c) with v
  end;
  rewrite <- IH; f_equal; lia.

Lemma leading_digits_of_uint_acc (d : Decimal.uint) (acc : positive) :
  leading_digits (Zpos acc) (NilEmpty.string_of_uint d)
  = Zpos (Pos.of_uint_acc d acc).
Proof.
  revert acc. induction d; intros acc; [reflexivity | ..]; digit_step IHd.
Qed.

Lemma leading_digits_of_uint (d : Decimal.uint) :
  leading_digits 0 (NilEmpty.string_of_uint d) = Z.of_N (Pos.of_uint d).
Proof.
  induction d; [reflexivity | ..];
    cbn [NilEmpty.string_of_uint Pos.of_uint];
    rewrite leading_digits_digit by reflexivity;
    [exact IHd | ..]; apply leading_digits_of_uint_acc.
Qed.

Lemma leading_digits_decimal (n : N) :
  leading_digits 0 (decimal n) = Z.of_N n.
Proof.
  unfold decimal. rewrite leading_digits_of_uint.
  change (Pos.of_uint (N.to_uint n)) with (N.of_uint (N.to_uint n)).
  rewrite DecimalN.Unsigned.of_to. reflexivity.
Qed.

Lemma strtol_of_uint (d : Decimal.uint) :
  strtol (NilEmpty.string_of_uint d)
  = Z.max LONG_MIN (Z.min LONG_MAX
                      (leading_digits 0 (NilEmpty.string_of_uint d))).
Proof. destruct d; reflexivity. Qed.

Lemma atoi_decimal (n : N) :
  (Z.of_N n <= INT_MAX)%Z -> atoi (decimal n) = Z.of_N n.
Proof.
  intros H. unfold atoi, decimal. rewrite strtol_of_uint.
  fold (decimal n). rewrite leading_digits_decimal.
  unfold INT_MAX, LONG_MIN, LONG_MAX, long_to_int in *.
  rewrite Z.min_r, Z.max_r by lia.
  rewrite Z.mod_small by lia. lia.
Qed.

Lemma substring_all (s : string) (m : nat) :
  (String.length s <= m)%nat -> substring 0 m s = s.
Proof.
  revert m. induction s as [| c s IH]; intros m H.
  - destruct m; reflexivity.
  - destruct m as [| m]; simpl in *; [lia |].
    rewrite IH by lia. reflexivity.
Qed.

Lemma length_append (p s : string) :
  String.length (p ++ s) = (String.length p + String.length s)%nat.
Proof. induction p as [| c p IH]; simpl; [| rewrite IH]; reflexivity. Qed.

Lemma substring_skip (p s : string) (m : nat) :
  substring (String.length p) m (p ++ s) = substring 0 m s.
Proof. induction p as [| c p IH]; simpl; [reflexivity | exact IH]. Qed.

(** [substr] from the end of a prefix to the end of the string. *)
Lemma substr_after_prefix (p s : string) :
  substr (p ++ s) (String.length p) (String.length (p ++ s)) = Ok s.
Proof.
  unfold substr. rewrite length_append.
  replace (String.length p + String.length s <? String.length p)%nat
    with false by (symmetry; apply Nat.ltb_ge; lia).
  rewrite substring_skip, substring_all by lia. reflexivity.
Qed.

Lemma substr_volAuxDet (s : string) :
  substr ("volAuxDet" ++ s) 9 (String.length ("volAuxDet" ++ s)) = Ok s.
Proof. exact (substr_after_prefix "volAuxDet" s). Qed.

Lemma substr_volAuxDetSensitive (s : string) :
  substr ("volAuxDetSensitive" ++ s) 9
    (String.length ("volAuxDetSensitive" ++ s))
  = Ok ("Sensitive" ++ s)%string.
Proof. exact (substr_after_prefix "volAuxDet" ("Sensitive" ++ s)). Qed.

Example atoi_number : atoi "12" = 12%Z.
Proof. reflexivity. Qed.

Example atoi_leading_space_and_sign : atoi "  -12x" = (-12)%Z.
Proof. reflexivity. Qed.

Example atoi_no_digits : atoi "Sensitive12" = 0%Z.
Proof. reflexivity. Qed.

Example substr_short_name : substr "volAD1" 9 6 = Throw std_out_of_range.
Proof. reflexivity. Qed.

Example substr_at_the_end : substr "volAuxDet" 9 9 = Ok EmptyString.
Proof. reflexivity. Qed.

(** ** Order of the auxiliary detectors *)

(** The comparison of two AuxDets whose names are "volAuxDet" followed
    by a decimal number that fits an [int] compares the numbers. *)
Lemma sortAuxDetStandard_suffix_order (ad1 ad2 : AuxDetGeo.t) (n1 n2 : N) :
  AuxDetGeo.Name ad1 = ("volAuxDet" ++ decimal n1)%string ->
  AuxDetGeo.Name ad2 = ("volAuxDet" ++ decimal n2)%string ->
  (Z.of_N n1 <= INT_MAX)%Z -> (Z.of_N n2 <= INT_MAX)%Z ->
  sortAuxDetStandard ad1 ad2 = Ok (n1 <? n2)%N.
Proof.
  intros E1 E2 H1 H2. unfold sortAuxDetStandard; cbv zeta.
  rewrite E1, E2.
  rewrite !substr_volAuxDet.
  cbn [bind]. rewrite !atoi_decimal by assumption.
  f_equal. destruct (N.ltb_spec n1 n2);
    [apply Z.ltb_lt | apply Z.ltb_ge]; lia.
Qed.

Lemma atoi_Sensitive (s : string) : atoi ("Sensitive" ++ s) = 0%Z.
Proof. reflexivity. Qed.

(** C7, the code on AuxDetSensitive elements whose names follow the
    pattern "volAuxDetSensitive##": the characters from position 9 on
    are "Sensitive##", [atoi] makes 0 of them for every element, and
    the comparison is false whatever the numbers are.  It does not place
    the element with the smaller number first. *)
Theorem sortAuxDetSensitiveStandard_ignores_suffix :
  forall ad1 ad2 s1 s2,
    AuxDetSensitiveGeo.Name ad1 = ("volAuxDetSensitive" ++ s1)%string ->
    AuxDetSensitiveGeo.Name ad2 = ("volAuxDetSensitive" ++ s2)%string ->
    sortAuxDetSensitiveStandard ad1 ad2 = Ok false
    /\ SortAuxDetSensitive [ad1; ad2] = Ok [ad1; ad2].
Proof.
  intros ad1 ad2 s1 s2 E1 E2.
  assert (forall a b,
             AuxDetSensitiveGeo.Name a = ("volAuxDetSensitive" ++ s1)%string ->
             AuxDetSensitiveGeo.Name b = ("volAuxDetSensitive" ++ s2)%string ->
             sortAuxDetSensitiveStandard a b = Ok false) as H.
  { intros a b Ea Eb. unfold sortAuxDetSensitiveStandard; cbv zeta.
    rewrite Ea, Eb.
    rewrite !substr_volAuxDetSensitive.
    cbn [bind]. rewrite !atoi_Sensitive. reflexivity. }
  split; [apply H; assumption |].
  assert (sortAuxDetSensitiveStandard ad2 ad1 = Ok false) as H21.
  { unfold sortAuxDetSensitiveStandard; cbv zeta. rewrite E1, E2.
    rewrite !substr_volAuxDetSensitive.
    cbn [bind]. rewrite !atoi_Sensitive. reflexivity. }
  unfold SortAuxDetSensitive. simpl. rewrite H21. reflexivity.
Qed.

Lemma sortAuxDetSensitiveStandard_ignores_suffix_witness :
  sortAuxDetSensitiveStandard (sensitive_named "volAuxDetSensitive1")
    (sensitive_named "volAuxDetSensitive2") = Ok false
  /\ SortAuxDetSensitive [sensitive_named "volAuxDetSensitive2";
                          sensitive_named "volAuxDetSensitive1"]
     = Ok [sensitive_named "volAuxDetSensitive2";
           sensitive_named "volAuxDetSensitive1"].
Proof.
  split.
  - apply (sortAuxDetSensitiveStandard_ignores_suffix
             (sensitive_named "volAuxDetSensitive1")
             (sensitive_named "volAuxDetSensitive2") "1" "2");
      reflexivity.
  - apply (sortAuxDetSensitiveStandard_ignores_suffix
             (sensitive_named "volAuxDetSensitive2")
             (sensitive_named "volAuxDetSensitive1") "2" "1");
      reflexivity.
Defined.

(** ** Error conditions of the sorting methods *)

Lemma sortAuxDetStandard_cases (ad1 ad2 : AuxDetGeo.t) :
  sortAuxDetStandard ad1 ad2
  = if name_fits (AuxDetGeo.Name ad1) && name_fits (AuxDetGeo.Name ad2)
    then Ok (name_number (AuxDetGeo.Name ad1)
             <? name_number (AuxDetGeo.Name ad2))%Z
    else Throw std_out_of_range.
Proof.
  unfold sortAuxDetStandard, substr, name_fits, name_number; cbv zeta.
  destruct (String.length (AuxDetGeo.Name ad1) <? 9)%nat; [reflexivity |].
  destruct (String.length (AuxDetGeo.Name ad2) <? 9)%nat; reflexivity.
Qed.

Lemma sortAuxDetSensitiveStandard_cases (ad1 ad2 : AuxDetSensitiveGeo.t) :
  sortAuxDetSensitiveStandard ad1 ad2
  = if name_fits (AuxDetSensitiveGeo.Name ad1)
       && name_fits (AuxDetSensitiveGeo.Name ad2)
    then Ok (name_number (AuxDetSensitiveGeo.Name ad1)
             <? name_number (AuxDetSensitiveGeo.Name ad2))%Z
    else Throw std_out_of_range.
Proof.
  unfold sortAuxDetSensitiveStandard, substr, name_fits, name_number;
    cbv zeta.
  destruct (String.length (AuxDetSensitiveGeo.Name ad1) <? 9)%nat;
    [reflexivity |].
  destruct (String.length (AuxDetSensitiveGeo.Name ad2) <? 9)%nat;
    reflexivity.
Qed.

Lemma SortAuxDets_spec (adgeo : list AuxDetGeo.t) :
  SortAuxDets adgeo
  = if (List.length adgeo <=? 1)%nat
       || forallb (fun ad => name_fits (AuxDetGeo.Name ad)) adgeo
    then Ok (std_sort
               (fun a b => (name_number (AuxDetGeo.Name a)
                            <? name_number (AuxDetGeo.Name b))%Z) adgeo)
    else Throw std_out_of_range.
Proof.
  apply (std_sort_t_spec sortAuxDetStandard _
           (fun ad => name_fits (AuxDetGeo.Name ad)) std_out_of_range).
  exact sortAuxDetStandard_cases.
Qed.

Lemma SortAuxDetSensitive_spec (adsgeo : list AuxDetSensitiveGeo.t) :
  SortAuxDetSensitive adsgeo
  = if (List.length adsgeo <=? 1)%nat
       || forallb (fun ad => name_fits (AuxDetSensitiveGeo.Name ad)) adsgeo
    then Ok (std_sort
               (fun a b => (name_number (AuxDetSensitiveGeo.Name a)
                            <? name_number (AuxDetSensitiveGeo.Name b))%Z)
               adsgeo)
    else Throw std_out_of_range.
Proof.
  apply (std_sort_t_spec sortAuxDetSensitiveStandard _
           (fun ad => name_fits (AuxDetSensitiveGeo.Name ad))
           std_out_of_range).
  exact sortAuxDetSensitiveStandard_cases.
Qed.

Lemma forallb_false_In {A : Type} (f : A -> bool) (l : list A) :
  forallb f l = false -> exists a, In a l /\ f a = false.
Proof.
  induction l as [| a l IH]; simpl; intros H.
  - discriminate.
  - destruct (f a) eqn:E.
    + destruct (IH H) as [b [Hb Hf]]. exists b. auto.
    + exists a. auto.
Qed.

(** A sort by names throws exactly when it has two elements or more to
    sort and a name among them is shorter than 9 characters. *)
Lemma names_sort_throws {A : Type} (name : A -> string) (l : list A)
  (sorted : list A) :
  (if (List.length l <=? 1)%nat || forallb (fun a => name_fits (name a)) l
   then Ok sorted else Throw std_out_of_range) = Throw std_out_of_range
  <-> (2 <= List.length l)%nat
      /\ exists a, In a l /\ (String.length (name a) < 9)%nat.
Proof.
  destruct (Nat.leb_spec (List.length l) 1) as [Hl | Hl]; simpl.
  - split; [discriminate | lia].
  - destruct (forallb (fun a => name_fits (name a)) l) eqn:E.
    + split; [discriminate |]. intros [_ [a [Ha Hs]]].
      rewrite forallb_forall in E. specialize (E a Ha).
      unfold name_fits in E. apply negb_true_iff, Nat.ltb_ge in E. lia.
    + split; [| reflexivity]. intros _. split; [lia |].
      destruct (forallb_false_In _ _ E) as [a [Ha Hf]].
      exists a. split; [exact Ha |].
      unfold name_fits in Hf. apply negb_false_iff, Nat.ltb_lt in Hf.
      exact Hf.
Qed.

Lemma names_sort_succeeds {A : Type} (name : A -> string) (l : list A)
  (sorted : list A) :
  (forall a, In a l -> (9 <= String.length (name a))%nat) ->
  (if (List.length l <=? 1)%nat || forallb (fun a => name_fits (name a)) l
   then Ok sorted else Throw std_out_of_range) = Ok sorted.
Proof.
  intros H.
  replace (forallb (fun a => name_fits (name a)) l) with true.
  - rewrite orb_true_r. reflexivity.
  - symmetry. apply forallb_forall. intros a Ha. unfold name_fits.
    apply negb_true_iff, Nat.ltb_ge, H, Ha.
Qed.

(** C5, amended.  [SortPlanes] throws exactly when the drift direction
    is unknown; it then leaves the planes as they are, and for a known
    drift direction it completes and permutes the planes.
    [SortCryostats], [SortTPCs] and [SortWires] cannot throw and permute
    their collection.  [SortAuxDets] and [SortAuxDetSensitive] throw
    [std::out_of_range] exactly when they have two elements or more to
    sort and a volume name among them is shorter than 9 characters;
    when they complete they have permuted their collection, and they
    complete whenever every name has 9 characters or more. *)
Theorem sort_error_conditions :
  (forall pgeo driftDir,
      (exists e, snd (SortPlanes pgeo driftDir) = Throw e)
      <-> driftDir = kUnknownDrift)
  /\ (forall pgeo,
        SortPlanes pgeo kUnknownDrift
        = (pgeo,
           Throw (cet_exception "TPCGeo"
                    [Text ("Drift direction is unknown, can't sort the planes"
                           ++ newline)])))
  /\ (forall pgeo driftDir, driftDir <> kUnknownDrift ->
        snd (SortPlanes pgeo driftDir) = Ok tt
        /\ Permutation pgeo (fst (SortPlanes pgeo driftDir)))
  /\ (forall cgeo, Permutation cgeo (SortCryostats cgeo))
  /\ (forall tgeo, Permutation tgeo (SortTPCs tgeo))
  /\ (forall wgeo, Permutation wgeo (SortWires wgeo))
  /\ (forall adgeo,
        (SortAuxDets adgeo = Throw std_out_of_range
         <-> (2 <= List.length adgeo)%nat
             /\ exists ad, In ad adgeo
                           /\ (String.length (AuxDetGeo.Name ad) < 9)%nat)
        /\ (forall e, SortAuxDets adgeo = Throw e -> e = std_out_of_range)
        /\ (forall sorted, SortAuxDets adgeo = Ok sorted ->
                           Permutation adgeo sorted)
        /\ ((forall ad, In ad adgeo ->
                        (9 <= String.length (AuxDetGeo.Name ad))%nat) ->
            exists sorted, SortAuxDets adgeo = Ok sorted))
  /\ (forall adsgeo,
        (SortAuxDetSensitive adsgeo = Throw std_out_of_range
         <-> (2 <= List.length adsgeo)%nat
             /\ exists ad,
                 In ad adsgeo
                 /\ (String.length (AuxDetSensitiveGeo.Name ad) < 9)%nat)
        /\ (forall e, SortAuxDetSensitive adsgeo = Throw e ->
                      e = std_out_of_range)
        /\ (forall sorted, SortAuxDetSensitive adsgeo = Ok sorted ->
                           Permutation adsgeo sorted)
        /\ ((forall ad, In ad adsgeo ->
                        (9 <= String.length (AuxDetSensitiveGeo.Name ad))%nat)
            -> exists sorted, SortAuxDetSensitive adsgeo = Ok sorted)).
Proof.
  split; [| split; [| split; [| split; [| split; [| split; [| split]]]]]].
  - intros pgeo [| |]; simpl; split.
    + reflexivity.
    + intros _. eexists. reflexivity.
    + intros [e H]. discriminate H.
    + discriminate.
    + intros [e H]. discriminate H.
    + discriminate.
  - reflexivity.
  - intros pgeo [| |] H; simpl.
    + contradiction.
    + split; [reflexivity | apply std_sort_reverse_perm].
    + split; [reflexivity | apply std_sort_perm].
  - intros cgeo. apply std_sort_perm.
  - intros tgeo. apply std_sort_perm.
  - intros wgeo. apply std_sort_perm.
  - intros adgeo. rewrite SortAuxDets_spec.
    split; [apply names_sort_throws |].
    split; [| split].
    + intros e. destruct (_ || _); congruence.
    + intros sorted. destruct (_ || _); [| discriminate].
      intros [= <-]. apply std_sort_perm.
    + intros H. eexists. apply names_sort_succeeds, H.
  - intros adsgeo. rewrite SortAuxDetSensitive_spec.
    split; [apply names_sort_throws |].
    split; [| split].
    + intros e. destruct (_ || _); congruence.
    + intros sorted. destruct (_ || _); [| discriminate].
      intros [= <-]. apply std_sort_perm.
    + intros H. eexists. apply names_sort_succeeds, H.
Qed.

Lemma sort_error_conditions_witness :
  snd (SortPlanes [plane_at 5 0 0; plane_at 10 0 0] kPosX) = Ok tt
  /\ Permutation [plane_at 5 0 0; plane_at 10 0 0]
       (fst (SortPlanes [plane_at 5 0 0; plane_at 10 0 0] kPosX))
  /\ Permutation [auxdet_named "volAuxDet2"; auxdet_named "volAuxDet1"]
       [auxdet_named "volAuxDet1"; auxdet_named "volAuxDet2"]
  /\ (exists sorted,
        SortAuxDets [auxdet_named "volAuxDet2"; auxdet_named "volAuxDet1"]
        = Ok sorted)
  /\ SortAuxDets [auxdet_named "volAuxDet2"; auxdet_named "vol1"]
     = Throw std_out_of_range
  /\ Permutation
       [sensitive_named "volAuxDetSensitive2";
        sensitive_named "volAuxDetSensitive1"]
       [sensitive_named "volAuxDetSensitive2";
        sensitive_named "volAuxDetSensitive1"]
  /\ (exists sorted,
        SortAuxDetSensitive [sensitive_named "volAuxDetSensitive2";
                             sensitive_named "volAuxDetSensitive1"]
        = Ok sorted)
  /\ SortAuxDetSensitive [sensitive_named "volAuxDetSensitive2";
                          sensitive_named "vol1"]
     = Throw std_out_of_range.
Proof.
  destruct sort_error_conditions as [_ [_ [HP [_ [_ [_ [HA HS]]]]]]].
  destruct (HP [plane_at 5 0 0; plane_at 10 0 0] kPosX) as [P1 P2];
    [discriminate |].
  destruct (HA [auxdet_named "volAuxDet2"; auxdet_named "volAuxDet1"])
    as [_ [_ [A1 A2]]].
  destruct (HA [auxdet_named "volAuxDet2"; auxdet_named "vol1"])
    as [A3 _].
  destruct (HS [sensitive_named "volAuxDetSensitive2";
                sensitive_named "volAuxDetSensitive1"])
    as [_ [_ [S1 S2]]].
  destruct (HS [sensitive_named "volAuxDetSensitive2";
                sensitive_named "vol1"])
    as [S3 _].
  refine (conj P1 (conj P2 (conj (A1 _ _) (conj (A2 _) (conj (proj2 A3 _)
           (conj (S1 _ _) (conj (S2 _) (proj2 S3 _)))))))).
  - reflexivity.
  - intros ad [<- | [<- | []]]; simpl; lia.
  - split; [simpl; lia |]. exists (auxdet_named "vol1").
    split; [right; left; reflexivity | simpl; lia].
  - reflexivity.
  - intros ad [<- | [<- | []]]; simpl; lia.
  - split; [simpl; lia |]. exists (sensitive_named "vol1").
    split; [right; left; reflexivity | simpl; lia].
Defined.

(** C5 as stated fails for [SortAuxDets] and [SortAuxDetSensitive]:
    [substr(9, ...)] throws on a volume name shorter than 9 characters,
    and the exception leaves the sort. *)
Lemma SortAuxDets_short_name_counterexample :
  SortAuxDets [auxdet_named "volAD1"; auxdet_named "volAD2"]
  = Throw std_out_of_range
  /\ SortAuxDetSensitive [sensitive_named "volADS1"; sensitive_named "volADS2"]
     = Throw std_out_of_range.
Proof. split; reflexivity. Qed.

(** ** Two runs of a sort

    The order that a sort produces is a function of the outcomes of the
    comparisons: two collections whose elements compare alike, position
    by position, are rearranged alike. *)

Lemma Forall2_rev {A B : Type} (R : A -> B -> Prop) (l : list A)
  (l' : list B) :
  Forall2 R l l' -> Forall2 R (rev l) (rev l').
Proof.
  induction 1 as [| a b l l' Hab Hl IH]; simpl.
  - constructor.
  - apply Forall2_app; [exact IH | constructor; [exact Hab | constructor]].
Qed.

Section SortRelated.
Context {A B : Type} (R : A -> B -> Prop).
Variable compA : A -> A -> bool.
Variable compB : B -> B -> bool.
Hypothesis comp_related :
  forall a a' b b', R a b -> R a' b' -> compA a a' = compB b b'.

Lemma unguarded_linear_insert_related (val : A) (val' : B) (back : list A)
  (back' : list B) :
  R val val' -> Forall2 R back back' ->
  Forall2 R (unguarded_linear_insert compA val back)
    (unguarded_linear_insert compB val' back').
Proof.
  intros Hv. induction 1 as [| a b l l' Hab Hl IH]; simpl.
  - constructor; [exact Hv | constructor].
  - rewrite (comp_related val a val' b Hv Hab).
    destruct (compB val' b).
    + constructor; assumption.
    + constructor; [exact Hv |]. constructor; assumption.
Qed.

Lemma insertion_step_related (sorted : list A) (sorted' : list B) (val : A)
  (val' : B) :
  Forall2 R sorted sorted' -> R val val' ->
  Forall2 R (insertion_step compA sorted val)
    (insertion_step compB sorted' val').
Proof.
  intros Hs Hv. destruct Hs as [| a b l l' Hab Hl]; simpl.
  - constructor; [exact Hv | constructor].
  - rewrite (comp_related val a val' b Hv Hab).
    destruct (compB val' b).
    + constructor; [exact Hv |]. constructor; assumption.
    + apply Forall2_rev, unguarded_linear_insert_related; [exact Hv |].
      apply (Forall2_rev R (a :: l) (b :: l')). constructor; assumption.
Qed.

Lemma insertion_loop_related (rest : list A) (rest' : list B) :
  Forall2 R rest rest' ->
  forall sorted sorted', Forall2 R sorted sorted' ->
  Forall2 R (fold_left (insertion_step compA) rest sorted)
    (fold_left (insertion_step compB) rest' sorted').
Proof.
  induction 1 as [| a b l l' Hab Hl IH]; intros sorted sorted' Hs; simpl.
  - exact Hs.
  - apply IH, insertion_step_related; assumption.
Qed.

Lemma std_sort_related (l : list A) (l' : list B) :
  Forall2 R l l' -> Forall2 R (std_sort compA l) (std_sort compB l').
Proof.
  intros H. destruct H as [| a b l l' Hab Hl]; simpl.
  - constructor.
  - apply insertion_loop_related; [exact Hl |].
    constructor; [exact Hab | constructor].
Qed.

Lemma std_sort_reverse_related (l : list A) (l' : list B) :
  Forall2 R l l' ->
  Forall2 R (std_sort_reverse compA l) (std_sort_reverse compB l').
Proof.
  intros H. unfold std_sort_reverse.
  apply Forall2_rev, std_sort_related, Forall2_rev, H.
Qed.
End SortRelated.

Lemma Forall2_forallb {A : Type} (R : A -> A -> Prop) (f : A -> bool)
  (l l' : list A) :
  (forall a b, R a b -> f a = f b) ->
  Forall2 R l l' -> forallb f l = forallb f l'.
Proof.
  intros Hf. induction 1 as [| a b l l' Hab Hl IH]; simpl.
  - reflexivity.
  - rewrite (Hf a b Hab), IH. reflexivity.
Qed.

(** A sort by the numbers in the names, on two collections of the same
    names. *)
Lemma names_sort_related {A : Type} (R : A -> A -> Prop) (name : A -> string)
  (l l' : list A) :
  let comp a b := (name_number (name a) <? name_number (name b))%Z in
  let sort l :=
    if (List.length l <=? 1)%nat || forallb (fun a => name_fits (name a)) l
    then Ok (std_sort comp l) else Throw std_out_of_range in
  (forall a b, R a b -> name a = name b) ->
  Forall2 R l l' -> same_outcome R (sort l) (sort l').
Proof.
  intros comp sort HR H. unfold sort.
  rewrite <- (Forall2_length H).
  rewrite <- (Forall2_forallb R (fun a => name_fits (name a)) l l');
    [| intros a b Hab; rewrite (HR a b Hab); reflexivity | exact H].
  destruct ((List.length l <=? 1)%nat
            || forallb (fun a => name_fits (name a)) l); simpl.
  - apply (std_sort_related R comp comp); [| exact H].
    intros a a' b b' Hab Hab'. unfold comp.
    rewrite (HR a b Hab), (HR a' b' Hab'). reflexivity.
  - reflexivity.
Qed.

(** ** Sorting twice *)

Section KeyOrder.
Context {A : Type}.

Lemma Q_key_asym (k : A -> double) (a b : A) :
  Qltb (k a) (k b) = true -> Qltb (k b) (k a) = false.
Proof. intros H. bool_to_Q. lra. Qed.

Lemma Q_key_negtrans (k : A -> double) (a b c : A) :
  Qltb (k a) (k b) = false -> Qltb (k b) (k c) = false ->
  Qltb (k a) (k c) = false.
Proof. intros H1 H2. bool_to_Q. lra. Qed.

Lemma Z_key_asym (k : A -> Z) (a b : A) :
  (k a <? k b)%Z = true -> (k b <? k a)%Z = false.
Proof. intros H. apply Z.ltb_lt in H. apply Z.ltb_ge. lia. Qed.

Lemma Z_key_negtrans (k : A -> Z) (a b c : A) :
  (k a <? k b)%Z = false -> (k b <? k c)%Z = false ->
  (k a <? k c)%Z = false.
Proof.
  intros H1 H2. apply Z.ltb_ge in H1, H2. apply Z.ltb_ge. lia.
Qed.

(** A sort on one key, exact, sorted twice. *)
Lemma std_sort_Q_key_idempotent (k : A -> double) (l : list A) :
  let comp a b := Qltb (k a) (k b) in
  std_sort comp (std_sort comp l) = std_sort comp l.
Proof.
  intros comp.
  apply (std_sort_idempotent comp (fun _ => True)).
  - intros a b _ _. apply Q_key_asym.
  - intros a b c _ _ _. apply Q_key_negtrans.
  - apply Forall_forall. trivial.
Qed.

Lemma std_sort_Z_key_idempotent (k : A -> Z) (l : list A) :
  let comp a b := (k a <? k b)%Z in
  std_sort comp (std_sort comp l) = std_sort comp l.
Proof.
  intros comp.
  apply (std_sort_idempotent comp (fun _ => True)).
  - intros a b _ _. apply Z_key_asym.
  - intros a b c _ _ _. apply Z_key_negtrans.
  - apply Forall_forall. trivial.
Qed.
End KeyOrder.

(** A sort by names that completed, run again on its result. *)
Lemma names_sort_idempotent {A : Type} (name : A -> string) (l sorted : list A) :
  let comp a b := (name_number (name a) <? name_number (name b))%Z in
  (if (List.length l <=? 1)%nat || forallb (fun a => name_fits (name a)) l
   then Ok (std_sort comp l) else Throw std_out_of_range) = Ok sorted ->
  (if (List.length sorted <=? 1)%nat
      || forallb (fun a => name_fits (name a)) sorted
   then Ok (std_sort comp sorted) else Throw std_out_of_range) = Ok sorted.
Proof.
  intros comp H.
  destruct ((List.length l <=? 1)%nat
            || forallb (fun a => name_fits (name a)) l) eqn:E;
    [| discriminate H].
  injection H as <-.
  pose proof (std_sort_perm comp l) as P.
  replace ((List.length (std_sort comp l) <=? 1)%nat
           || forallb (fun a => name_fits (name a)) (std_sort comp l))
    with true.
  - f_equal. apply (std_sort_Z_key_idempotent (fun a => name_number (name a))).
  - symmetry. rewrite <- (Permutation_length P).
    apply orb_true_iff in E. apply orb_true_iff.
    destruct E as [E | E]; [left; exact E | right].
    rewrite forallb_forall in *. intros a Ha. apply E.
    apply (Permutation_in _ (Permutation_sym P) Ha).
Qed.

Lemma tol_transitive_opp {A : Type} (k : A -> double) (l : list A) :
  tol_transitive k l -> tol_transitive (fun a => - k a) l.
Proof.
  intros T a b c Ia Ib Ic. rewrite !beyond_tolerance_opp. apply T; assumption.
Qed.

Lemma sortWireStandard_negtrans (wgeo : list WireGeo.t) (a b c : WireGeo.t) :
  tol_transitive wire_z wgeo -> tol_transitive wire_y wgeo ->
  In a wgeo -> In b wgeo -> In c wgeo ->
  sortWireStandard a b = false -> sortWireStandard b c = false ->
  sortWireStandard a c = false.
Proof.
  intros Tz Ty. apply (tol_lex_negtrans wire_z wire_y wire_x wgeo); assumption.
Qed.

Lemma SortWires_idempotent (wgeo : list WireGeo.t) :
  tol_transitive wire_z wgeo -> tol_transitive wire_y wgeo ->
  SortWires (SortWires wgeo) = SortWires wgeo.
Proof.
  intros Tz Ty. unfold SortWires.
  apply (std_sort_idempotent sortWireStandard (fun w => In w wgeo)).
  - intros a b _ _. apply (tol_lex_asym wire_z wire_y wire_x).
  - intros a b c. apply sortWireStandard_negtrans; assumption.
  - apply Forall_forall. trivial.
Qed.

Lemma sortPlaneStandard_negtrans (pgeo : list PlaneGeo.t) (a b c : PlaneGeo.t) :
  tol_transitive plane_x pgeo -> tol_transitive plane_z pgeo ->
  In a pgeo -> In b pgeo -> In c pgeo ->
  sortPlaneStandard a b = false -> sortPlaneStandard b c = false ->
  sortPlaneStandard a c = false.
Proof.
  intros Tx Tz Ia Ib Ic. rewrite !sortPlaneStandard_tol_lex.
  apply (tol_lex_negtrans _ _ _ pgeo); try assumption.
  apply tol_transitive_opp, Tx.
Qed.

Lemma SortPlanes_idempotent (pgeo : list PlaneGeo.t)
  (driftDir : DriftDirection_t) :
  tol_transitive plane_x pgeo -> tol_transitive plane_z pgeo ->
  SortPlanes (fst (SortPlanes pgeo driftDir)) driftDir
  = SortPlanes pgeo driftDir.
Proof.
  intros Tx Tz. destruct driftDir; simpl.
  - reflexivity.
  - f_equal.
    apply (std_sort_reverse_idempotent sortPlaneStandard
             (fun p => In p pgeo)).
    + intros a b _ _. apply sortPlaneStandard_asym.
    + intros a b c. apply sortPlaneStandard_negtrans; assumption.
    + apply Forall_forall. trivial.
  - f_equal.
    apply (std_sort_idempotent sortPlaneStandard (fun p => In p pgeo)).
    + intros a b _ _. apply sortPlaneStandard_asym.
    + intros a b c. apply sortPlaneStandard_negtrans; assumption.
    + apply Forall_forall. trivial.
Qed.

Lemma beyond_tolerance_ext (a a' b b' : double) :
  a == a' -> b == b' -> beyond_tolerance a b = beyond_tolerance a' b'.
Proof.
  intros Ea Eb. apply Bool.eq_iff_eq_true. rewrite !beyond_tol.
  split; intros [H | H]; lra.
Qed.

Lemma tol_lex_ext {A : Type} (k1 k2 k3 : A -> double) (a a' b b' : A) :
  k1 a == k1 b -> k2 a == k2 b -> k3 a == k3 b ->
  k1 a' == k1 b' -> k2 a' == k2 b' -> k3 a' == k3 b' ->
  tol_lex k1 k2 k3 a a' = tol_lex k1 k2 k3 b b'.
Proof.
  intros E1 E2 E3 E1' E2' E3'. unfold tol_lex.
  rewrite (beyond_tolerance_ext _ _ _ _ E1 E1').
  rewrite (beyond_tolerance_ext _ _ _ _ E2 E2').
  rewrite (Qltb_ext _ _ _ _ E1 E1'), (Qltb_ext _ _ _ _ E2 E2').
  rewrite (Qltb_ext _ _ _ _ E3 E3'). reflexivity.
Qed.

(** Two collections of wires with the same centres, position by
    position. *)
Lemma SortWires_related (R : WireGeo.t -> WireGeo.t -> Prop)
  (wgeo1 wgeo2 : list WireGeo.t) :
  (forall a b, R a b ->
     wire_x a == wire_x b /\ wire_y a == wire_y b /\ wire_z a == wire_z b) ->
  Forall2 R wgeo1 wgeo2 -> Forall2 R (SortWires wgeo1) (SortWires wgeo2).
Proof.
  intros HR. apply std_sort_related.
  intros a a' b b' Hab Hab'.
  destruct (HR a b Hab) as [Ex [Ey Ez]].
  destruct (HR a' b' Hab') as [Ex' [Ey' Ez']].
  apply (tol_lex_ext wire_z wire_y wire_x); assumption.
Qed.

Lemma SortPlanes_related (R : PlaneGeo.t -> PlaneGeo.t -> Prop)
  (pgeo1 pgeo2 : list PlaneGeo.t) (driftDir : DriftDirection_t) :
  (forall a b, R a b ->
     plane_x a == plane_x b /\ plane_y a == plane_y b
     /\ plane_z a == plane_z b) ->
  Forall2 R pgeo1 pgeo2 ->
  Forall2 R (fst (SortPlanes pgeo1 driftDir)) (fst (SortPlanes pgeo2 driftDir))
  /\ snd (SortPlanes pgeo1 driftDir) = snd (SortPlanes pgeo2 driftDir).
Proof.
  intros HR H.
  assert (forall a a' b b', R a b -> R a' b' ->
            sortPlaneStandard a a' = sortPlaneStandard b b') as C.
  { intros a a' b b' Hab Hab'.
    destruct (HR a b Hab) as [Ex [Ey Ez]].
    destruct (HR a' b' Hab') as [Ex' [Ey' Ez']].
    rewrite !sortPlaneStandard_tol_lex.
    apply (tol_lex_ext (fun p => - plane_x p) plane_z plane_y);
      try assumption; cbv beta; lra. }
  destruct driftDir; simpl; (split; [| reflexivity]).
  - exact H.
  - apply (std_sort_reverse_related R _ _ C), H.
  - apply (std_sort_related R _ _ C), H.
Qed.

Lemma SortCryostats_related (R : CryostatGeo.t -> CryostatGeo.t -> Prop)
  (cgeo1 cgeo2 : list CryostatGeo.t) :
  (forall a b, R a b -> cryo_x a == cryo_x b) ->
  Forall2 R cgeo1 cgeo2 ->
  Forall2 R (SortCryostats cgeo1) (SortCryostats cgeo2).
Proof.
  intros HR. apply std_sort_related.
  intros a a' b b' Hab Hab'. unfold sortCryoStandard; cbv zeta.
  apply Qltb_ext; [apply (HR a b Hab) | apply (HR a' b' Hab')].
Qed.

Lemma SortTPCs_related (R : TPCGeo.t -> TPCGeo.t -> Prop)
  (tgeo1 tgeo2 : list TPCGeo.t) :
  (forall a b, R a b -> tpc_x a == tpc_x b) ->
  Forall2 R tgeo1 tgeo2 -> Forall2 R (SortTPCs tgeo1) (SortTPCs tgeo2).
Proof.
  intros HR. apply std_sort_related.
  intros a a' b b' Hab Hab'. unfold sortTPCStandard; cbv zeta.
  apply Qltb_ext; [apply (HR a b Hab) | apply (HR a' b' Hab')].
Qed.

Lemma SortAuxDets_related (R : AuxDetGeo.t -> AuxDetGeo.t -> Prop)
  (adgeo1 adgeo2 : list AuxDetGeo.t) :
  (forall a b, R a b -> AuxDetGeo.Name a = AuxDetGeo.Name b) ->
  Forall2 R adgeo1 adgeo2 ->
  same_outcome R (SortAuxDets adgeo1) (SortAuxDets adgeo2).
Proof.
  intros HR H. rewrite !SortAuxDets_spec.
  apply (names_sort_related R AuxDetGeo.Name); assumption.
Qed.

Lemma SortAuxDetSensitive_related
  (R : AuxDetSensitiveGeo.t -> AuxDetSensitiveGeo.t -> Prop)
  (adsgeo1 adsgeo2 : list AuxDetSensitiveGeo.t) :
  (forall a b, R a b -> AuxDetSensitiveGeo.Name a = AuxDetSensitiveGeo.Name b) ->
  Forall2 R adsgeo1 adsgeo2 ->
  same_outcome R (SortAuxDetSensitive adsgeo1) (SortAuxDetSensitive adsgeo2).
Proof.
  intros HR H. rewrite !SortAuxDetSensitive_spec.
  apply (names_sort_related R AuxDetSensitiveGeo.Name); assumption.
Qed.


Ltac tol_transitive_by_cases :=
  intros a b c Ia Ib Ic; simpl in Ia, Ib, Ic;
  repeat match goal with
    | H : _ \/ _ |- _ => destruct H as [H | H]
    | H : False |- _ => destruct H
    end;
  subst; vm_compute; congruence.

Ltac related_by_cases :=
  repeat (constructor; [cbv beta; repeat split; reflexivity |]);
  constructor.



(** ** Order of a whole collection

    Where being within the tolerance is transitive among the compared
    coordinates, the comparison is a strict weak order on the
    collection, and the sorted collection is in order as a whole: no
    element precedes an element placed before it. *)

(** X15.  Where being within the tolerance is transitive among the
    world Z and among the world Y of the centres of the wires,
    [SortWires] leaves the whole collection in order: no wire precedes,
    in the order Z, then Y, then X of the comparison, a wire placed
    before it. *)
Lemma SortWires_in_order (wgeo : list WireGeo.t) :
  tol_transitive wire_z wgeo -> tol_transitive wire_y wgeo ->
  StronglySorted (fun w1 w2 => ~ wire_precedes w2 w1) (SortWires wgeo).
Proof.
  intros Tz Ty.
  apply (StronglySorted_weaken (fun a b => sortWireStandard b a = false)).
  - intros a b H C. apply sortWireStandard_spec in C. congruence.
  - apply (std_sort_is_ordered sortWireStandard (fun w => In w wgeo)).
    + intros a b _ _. apply (tol_lex_asym wire_z wire_y wire_x).
    + intros a b c. apply sortWireStandard_negtrans; assumption.
    + apply Forall_forall. trivial.
Qed.

(** X16.  Where being within the tolerance is transitive among the
    world X and among the world Z of the local origins of the planes,
    [SortPlanes] leaves the whole collection in order: for drift towards
    negative X no plane precedes, in the order X descending, then Z,
    then Y, a plane placed before it, and for drift towards positive X
    none does in the mirrored order. *)
Lemma SortPlanes_in_order (pgeo : list PlaneGeo.t) :
  tol_transitive plane_x pgeo -> tol_transitive plane_z pgeo ->
  StronglySorted (fun p1 p2 => ~ plane_precedes_negX p2 p1)
    (fst (SortPlanes pgeo kNegX))
  /\ StronglySorted (fun p1 p2 => ~ plane_precedes_posX p2 p1)
       (fst (SortPlanes pgeo kPosX)).
Proof.
  intros Tx Tz. split.
  - apply (StronglySorted_weaken (fun a b => sortPlaneStandard b a = false)).
    + intros a b H C. apply sortPlaneStandard_spec in C. congruence.
    + apply (std_sort_is_ordered sortPlaneStandard (fun p => In p pgeo)).
      * intros a b _ _. apply sortPlaneStandard_asym.
      * intros a b c. apply sortPlaneStandard_negtrans; assumption.
      * apply Forall_forall. trivial.
  - rewrite SortPlanes_posX. unfold std_sort_reverse.
    apply (StronglySorted_weaken (fun a b => sortPlaneStandard a b = false)).
    + intros a b H C.
      apply plane_precedes_mirror, sortPlaneStandard_spec in C. congruence.
    + apply (StronglySorted_rev (fun a b => sortPlaneStandard b a = false)).
      apply (std_sort_is_ordered sortPlaneStandard (fun p => In p pgeo)).
      * intros a b _ _. apply sortPlaneStandard_asym.
      * intros a b c. apply sortPlaneStandard_negtrans; assumption.
      * apply Forall_forall. intros p Hp. apply in_rev. exact Hp.
Qed.

(** * Further properties *)

(** ** What a containment query returns *)

Lemma PositionToTPCptr_scan_Some (point : Point) (wiggle : double)
  (tpcs : list TPCGeo.t) (tpc : TPCGeo.t) :
  PositionToTPCptr_scan tpcs point wiggle = Some tpc ->
  exists before after,
    tpcs = before ++ tpc :: after
    /\ (forall t, In t before ->
                  TPCGeo.ContainsPosition t point wiggle = false)
    /\ TPCGeo.ContainsPosition tpc point wiggle = true.
Proof.
  induction tpcs as [| t tpcs IH]; simpl; intros H.
  - discriminate.
  - destruct (TPCGeo.ContainsPosition t point wiggle) eqn:E.
    + injection H as <-. exists [], tpcs. repeat split; trivial.
      intros t' [].
    + destruct (IH H) as [before [after [-> [Hb Ht]]]].
      exists (t :: before), after. repeat split; trivial.
      intros t' [<- | Ht']; auto.
Qed.

Lemma PositionToTPCptr_scan_None (point : Point) (wiggle : double)
  (tpcs : list TPCGeo.t) :
  PositionToTPCptr_scan tpcs point wiggle = None ->
  forall t, In t tpcs -> TPCGeo.ContainsPosition t point wiggle = false.
Proof.
  induction tpcs as [| t tpcs IH]; simpl; intros H t' Ht'.
  - contradiction.
  - destruct (TPCGeo.ContainsPosition t point wiggle) eqn:E;
      [discriminate |].
    destruct Ht' as [<- | Ht']; auto.
Qed.

(** X1.  Whatever [PositionToTPCptr] and [PositionToTPC] return is a TPC
    of the cryostat that contains the point and has no TPC containing
    the point before it; and they return the null pointer,
    respectively throw, only when no TPC of the cryostat contains the
    point. *)
Theorem PositionToTPC_result :
  forall c point wiggle,
    match PositionToTPCptr c point wiggle with
    | Some tpc =>
        PositionToTPC c point wiggle = Ok tpc
        /\ exists before after,
            CryostatGeo.TPCs c = before ++ tpc :: after
            /\ (forall t, In t before ->
                          TPCGeo.ContainsPosition t point wiggle = false)
            /\ TPCGeo.ContainsPosition tpc point wiggle = true
    | None =>
        (exists e, PositionToTPC c point wiggle = Throw e)
        /\ forall t, In t (CryostatGeo.TPCs c) ->
                     TPCGeo.ContainsPosition t point wiggle = false
    end.
Proof.
  intros c point wiggle. unfold PositionToTPC.
  destruct (PositionToTPCptr c point wiggle) as [tpc |] eqn:E.
  - split; [reflexivity |]. apply PositionToTPCptr_scan_Some. exact E.
  - split; [eexists; reflexivity |].
    apply PositionToTPCptr_scan_None. exact E.
Qed.

Lemma NearestAuxDet_from_Some (point : Point) (tolerance : double)
  (auxDets : list AuxDetGeo.t) :
  forall a0 a,
    NearestAuxDet_from a0 auxDets point tolerance = Some a ->
    exists before ad after,
      auxDets = before ++ ad :: after
      /\ a = (a0 + N.of_nat (List.length before))%N
      /\ (forall d, In d before ->
                    NearestAuxDet_accepts d point tolerance = false)
      /\ NearestAuxDet_accepts ad point tolerance = true.
Proof.
  induction auxDets as [| d auxDets IH]; simpl; intros a0 a H.
  - discriminate.
  - destruct (NearestAuxDet_accepts d point tolerance) eqn:E.
    + injection H as <-. exists [], d, auxDets. simpl.
      repeat split; trivial; [lia | intros d' []].
    + destruct (IH _ _ H) as [before [ad [after [-> [Ha [Hb Hd]]]]]].
      exists (d :: before), ad, after. simpl.
      repeat split; trivial; [lia |].
      intros d' [<- | Hd']; auto.
Qed.

Lemma NearestAuxDet_from_None (point : Point) (tolerance : double)
  (auxDets : list AuxDetGeo.t) :
  forall a0,
    NearestAuxDet_from a0 auxDets point tolerance = None ->
    forall d, In d auxDets -> NearestAuxDet_accepts d point tolerance = false.
Proof.
  induction auxDets as [| d auxDets IH]; simpl; intros a0 H d' Hd'.
  - contradiction.
  - destruct (NearestAuxDet_accepts d point tolerance) eqn:E;
      [discriminate |].
    destruct Hd' as [<- | Hd']; eauto.
Qed.

Lemma NearestAuxDet_cases :
  forall point auxDets tolerance,
    match NearestAuxDet point auxDets tolerance with
    | Ok a =>
        exists before ad after,
          auxDets = before ++ ad :: after
          /\ a = N.of_nat (List.length before)
          /\ nth_error auxDets (N.to_nat a) = Some ad
          /\ (forall d, In d before ->
                        NearestAuxDet_accepts d point tolerance = false)
          /\ NearestAuxDet_accepts ad point tolerance = true
    | Throw e =>
        forall d, In d auxDets ->
                  NearestAuxDet_accepts d point tolerance = false
    end.
Proof.
  intros point auxDets tolerance. unfold NearestAuxDet.
  destruct (NearestAuxDet_from 0 auxDets point tolerance) as [a |] eqn:E.
  - destruct (NearestAuxDet_from_Some _ _ _ _ _ E)
      as [before [ad [after [-> [Ha [Hb Hd]]]]]].
    exists before, ad, after. rewrite N.add_0_l in Ha.
    repeat split; trivial.
    rewrite Ha, Nat2N.id, nth_error_app2, Nat.sub_diag by lia. reflexivity.
  - apply (NearestAuxDet_from_None _ _ _ _ E).
Qed.

(** X2.  The index [NearestAuxDet] returns is that of an AuxDet of the
    vector whose test accepts the point, with no accepting AuxDet before
    it; and [NearestAuxDet] throws only when the test of every AuxDet
    rejects the point. *)
Theorem NearestAuxDet_result :
  forall point auxDets tolerance,
    match NearestAuxDet point auxDets tolerance with
    | Ok a =>
        exists before ad after,
          auxDets = before ++ ad :: after
          /\ a = N.of_nat (List.length before)
          /\ nth_error auxDets (N.to_nat a) = Some ad
          /\ (forall d, In d before ->
                        NearestAuxDet_accepts d point tolerance = false)
          /\ NearestAuxDet_accepts ad point tolerance = true
    | Throw e =>
        forall d, In d auxDets ->
                  NearestAuxDet_accepts d point tolerance = false
    end.
Proof. exact NearestAuxDet_cases. Qed.

Lemma NearestSensitiveAuxDet_from_Some (point : Point) (tolerance : double)
  (svs : list AuxDetSensitiveGeo.t) :
  forall a0 a,
    NearestSensitiveAuxDet_from a0 svs point tolerance = Some a ->
    exists before adsg after,
      svs = before ++ adsg :: after
      /\ a = (a0 + N.of_nat (List.length before))%N
      /\ (forall s, In s before ->
                    NearestSensitiveAuxDet_accepts s point tolerance = false)
      /\ NearestSensitiveAuxDet_accepts adsg point tolerance = true.
Proof.
  induction svs as [| s svs IH]; simpl; intros a0 a H.
  - discriminate.
  - destruct (NearestSensitiveAuxDet_accepts s point tolerance) eqn:E.
    + injection H as <-. exists [], s, svs. simpl.
      repeat split; trivial; [lia | intros s' []].
    + destruct (IH _ _ H) as [before [adsg [after [-> [Ha [Hb Hd]]]]]].
      exists (s :: before), adsg, after. simpl.
      repeat split; trivial; [lia |].
      intros s' [<- | Hs']; auto.
Qed.

Lemma NearestSensitiveAuxDet_from_None (point : Point) (tolerance : double)
  (svs : list AuxDetSensitiveGeo.t) :
  forall a0,
    NearestSensitiveAuxDet_from a0 svs point tolerance = None ->
    forall s, In s svs ->
              NearestSensitiveAuxDet_accepts s point tolerance = false.
Proof.
  induction svs as [| s svs IH]; simpl; intros a0 H s' Hs'.
  - contradiction.
  - destruct (NearestSensitiveAuxDet_accepts s point tolerance) eqn:E;
      [discriminate |].
    destruct Hs' as [<- | Hs']; eauto.
Qed.

(** X3.  [NearestSensitiveAuxDet] works in two stages and never goes
    back.  What it returns is the index of the first AuxDet whose test
    accepts the point, with the index of the first sensitive volume of
    that AuxDet whose test accepts the point.  It throws when no AuxDet
    accepts the point, and also when the first accepting AuxDet has no
    accepting sensitive volume, whatever the AuxDets after it hold; it
    never reads past the end of the vector. *)
Theorem NearestSensitiveAuxDet_result :
  forall point auxDets tolerance,
    match NearestSensitiveAuxDet point auxDets tolerance with
    | Ok (ad, a) =>
        exists before adg after sbefore adsg safter,
          auxDets = before ++ adg :: after
          /\ ad = N.of_nat (List.length before)
          /\ (forall d, In d before ->
                        NearestAuxDet_accepts d point tolerance = false)
          /\ NearestAuxDet_accepts adg point tolerance = true
          /\ AuxDetGeo.SensitiveVolumes adg = sbefore ++ adsg :: safter
          /\ a = N.of_nat (List.length sbefore)
          /\ (forall s, In s sbefore ->
                NearestSensitiveAuxDet_accepts s point tolerance = false)
          /\ NearestSensitiveAuxDet_accepts adsg point tolerance = true
    | Throw e =>
        (e = cet_exception "AuxDetChannelMapAlg"
               [Text "Can't find AuxDet for position (";
                Dbl (coord0 point); Text ","; Dbl (coord1 point);
                Text ","; Dbl (coord2 point); Text (")" ++ newline)]
         /\ forall d, In d auxDets ->
                      NearestAuxDet_accepts d point tolerance = false)
        \/ (e = cet_exception "Geometry"
                  [Text "Can't find AuxDetSensitive for position (";
                   Dbl (coord0 point); Text ","; Dbl (coord1 point);
                   Text ","; Dbl (coord2 point); Text (")" ++ newline)]
            /\ exists before adg after,
                auxDets = before ++ adg :: after
                /\ (forall d, In d before ->
                      NearestAuxDet_accepts d point tolerance = false)
                /\ NearestAuxDet_accepts adg point tolerance = true
                /\ forall s, In s (AuxDetGeo.SensitiveVolumes adg) ->
                     NearestSensitiveAuxDet_accepts s point tolerance = false)
    end.
Proof.
  intros point auxDets tolerance. unfold NearestSensitiveAuxDet.
  pose proof (NearestAuxDet_cases point auxDets tolerance) as R.
  destruct (NearestAuxDet point auxDets tolerance) as [ad | e] eqn:E;
    cbn [bind].
  - destruct R as [before [adg [after [Hl [Ha [Hn [Hb Hd]]]]]]].
    rewrite Hn.
    destruct (NearestSensitiveAuxDet_from 0 (AuxDetGeo.SensitiveVolumes adg)
                point tolerance) as [a |] eqn:Es.
    + destruct (NearestSensitiveAuxDet_from_Some _ _ _ _ _ Es)
        as [sbefore [adsg [safter [Hs [Hsa [Hsb Hsd]]]]]].
      rewrite N.add_0_l in Hsa.
      exists before, adg, after, sbefore, adsg, safter.
      repeat split; trivial.
    + right. split; [reflexivity |].
      exists before, adg, after. repeat split; trivial.
      apply (NearestSensitiveAuxDet_from_None _ _ _ _ Es).
  - left. split; [| exact R].
    unfold NearestAuxDet in E.
    destruct (NearestAuxDet_from 0 auxDets point tolerance);
      [discriminate |].
    injection E as <-. reflexivity.
Qed.

(** ** The tolerance of the containment test *)

Lemma upper_bound_monotone (c : fp) (x t t' : double) :
  t <= t' ->
  (Num x <=? c + Num t)%fp = true -> (Num x <=? c + Num t')%fp = true.
Proof.
  intros Ht H. destruct (fp_add_le_r c t t' Ht) as [-> | L].
  - discriminate H.
  - apply (fp_le_trans _ _ _ H L).
Qed.

Lemma lower_bound_monotone (c : fp) (x t t' : double) :
  t <= t' ->
  (Num x >=? c - Num t)%fp = true -> (Num x >=? c - Num t')%fp = true.
Proof.
  unfold fp_ge. intros Ht H. destruct (fp_sub_le_r c t t' Ht) as [-> | L].
  - discriminate H.
  - apply (fp_le_trans _ _ _ L H).
Qed.

Lemma NearestAuxDet_accepts_monotone (ad : AuxDetGeo.t) (point : Point)
  (tolerance tolerance' : double) :
  tolerance <= tolerance' ->
  NearestAuxDet_accepts ad point tolerance = true ->
  NearestAuxDet_accepts ad point tolerance' = true.
Proof.
  intros Ht. unfold NearestAuxDet_accepts; cbv zeta.
  rewrite !andb_true_iff.
  intros [[[[[H1 H2] H3] H4] H5] H6].
  repeat split;
    first [ apply (upper_bound_monotone _ _ _ _ Ht); assumption
          | apply (lower_bound_monotone _ _ _ _ Ht); assumption ].
Qed.

Lemma NearestAuxDet_from_monotone (point : Point)
  (tolerance tolerance' : double) (auxDets : list AuxDetGeo.t) :
  tolerance <= tolerance' ->
  forall a0 a,
    NearestAuxDet_from a0 auxDets point tolerance = Some a ->
    exists a', NearestAuxDet_from a0 auxDets point tolerance' = Some a'
               /\ (a0 <= a' <= a)%N.
Proof.
  intros Ht. induction auxDets as [| d auxDets IH]; simpl; intros a0 a H.
  - discriminate.
  - destruct (NearestAuxDet_accepts d point tolerance') eqn:E'.
    + exists a0. split; [reflexivity |].
      destruct (NearestAuxDet_accepts d point tolerance).
      * injection H as <-. lia.
      * destruct (NearestAuxDet_from_Some _ _ _ _ _ H)
          as [before [ad [after [_ [Ha _]]]]]. lia.
    + destruct (NearestAuxDet_accepts d point tolerance) eqn:E.
      * apply (NearestAuxDet_accepts_monotone _ _ _ _ Ht) in E. congruence.
      * destruct (IH _ _ H) as [a' [Ha' Hle]]. exists a'.
        split; [exact Ha' | lia].
Qed.

(** X4.  A larger tolerance never loses a match of [NearestAuxDet]: when
    it returns an index at one tolerance, it returns an index at every
    larger tolerance, and that index is the same or an earlier one. *)
Theorem NearestAuxDet_tolerance_monotone :
  forall point auxDets tolerance tolerance' a,
    tolerance <= tolerance' ->
    NearestAuxDet point auxDets tolerance = Ok a ->
    exists a', NearestAuxDet point auxDets tolerance' = Ok a' /\ (a' <= a)%N.
Proof.
  intros point auxDets tolerance tolerance' a Ht. unfold NearestAuxDet.
  destruct (NearestAuxDet_from 0 auxDets point tolerance) as [a1 |] eqn:E;
    [| discriminate].
  intros [= <-].
  destruct (NearestAuxDet_from_monotone _ _ _ _ Ht _ _ E) as [a' [-> Hle]].
  exists a'. split; [reflexivity | lia].
Qed.

Lemma NearestAuxDet_tolerance_monotone_witness :
  let far := AuxDetGeo.mk "volAuxDet0" (translate 3 0 0) 2 2 3 10 [] in
  let box := AuxDetGeo.mk "volAuxDet1" (fun p => p) 2 2 3 10 [] in
  NearestAuxDet origin [far; box] 0 = Ok 1%N
  /\ exists a', NearestAuxDet origin [far; box] 1 = Ok a' /\ (a' <= 1)%N.
Proof.
  intros far box.
  assert (NearestAuxDet origin [far; box] 0 = Ok 1%N) as H
    by (vm_compute; reflexivity).
  split; [exact H |].
  apply (NearestAuxDet_tolerance_monotone origin [far; box] 0 1 1%N);
    [vm_compute; discriminate | exact H].
Defined.

(** ** More on the channel mapping *)

Lemma ChannelToAuxDet_scan_Some (entries : std_map string)
  (detName : string) (idx : N) :
  ChannelToAuxDet_scan entries detName = Some idx ->
  exists before after,
    entries = before ++ (idx, detName) :: after
    /\ forall e, In e before -> snd e <> detName.
Proof.
  induction entries as [| [k n] entries IH]; simpl; intros H.
  - discriminate.
  - destruct (String.eqb_spec n detName) as [-> | Hne].
    + injection H as <-. exists [], entries. split; [reflexivity |].
      intros e [].
    + destruct (IH H) as [before [after [-> Hb]]].
      exists ((k, n) :: before), after. split; [reflexivity |].
      intros e [<- | He]; auto.
Qed.

(** X5.  Looking a name up inverts the name table: when the names of
    the table are pairwise different, [ChannelToAuxDet] called with the
    name of an entry returns the key of that entry. *)
Theorem ChannelToAuxDet_inverts_table :
  forall alg auxDets channel idx name,
    NoDup (map snd (fADGeoToName alg)) ->
    In (idx, name) (fADGeoToName alg) ->
    ChannelToAuxDet alg auxDets name channel = Ok idx.
Proof.
  intros alg auxDets channel idx name Hnd Hin. unfold ChannelToAuxDet.
  destruct (ChannelToAuxDet_scan (fADGeoToName alg) name) as [idx' |] eqn:E.
  - destruct (ChannelToAuxDet_scan_Some _ _ _ E) as [before [after [Hl Hb]]].
    rewrite Hl in Hnd, Hin.
    rewrite map_app in Hnd. simpl in Hnd.
    apply NoDup_remove_2 in Hnd.
    apply in_app_or in Hin. destruct Hin as [Hin | [Hin | Hin]].
    + exfalso. apply (Hb _ Hin). reflexivity.
    + injection Hin as ->. reflexivity.
    + exfalso. apply Hnd. apply in_or_app. right.
      apply (in_map snd) in Hin. exact Hin.
  - exfalso.
    assert (forall entries,
               ChannelToAuxDet_scan entries name = None ->
               ~ In (idx, name) entries) as Hnone.
    { induction entries as [| [k n] entries IH]; simpl; intros Hs.
      - intros [].
      - destruct (String.eqb_spec n name) as [-> | Hne]; [discriminate |].
        intros [[= _ Hn] | Hi]; [congruence | exact (IH Hs Hi)]. }
    exact (Hnone _ E Hin).
Qed.

Lemma ChannelToAuxDet_inverts_table_witness :
  let alg := mkAlg [(0, "AuxDetA"); (3, "AuxDetB"); (5, "AuxDetC")]%N%string
                   [] in
  ChannelToAuxDet alg [] "AuxDetC" 0 = Ok 5%N.
Proof.
  intros alg.
  apply (ChannelToAuxDet_inverts_table alg [] 0%N 5%N "AuxDetC").
  - simpl. repeat constructor; simpl; intuition discriminate.
  - simpl. auto.
Defined.

(** X6.  What [ChannelToSensitiveAuxDet] returns comes out of the two
    tables: the AuxDet index is the key of an entry of the name table
    with the requested name, the sensitive-channel table has a vector
    for that key, the channel is a position of that vector, and the
    sensitive-volume index is the second component stored there. *)
Theorem ChannelToSensitiveAuxDet_result :
  forall alg auxDets detName channel idx sv,
    ChannelToSensitiveAuxDet alg auxDets detName channel = Ok (idx, sv) ->
    In (idx, detName) (fADGeoToName alg)
    /\ exists v ch,
        map_find idx (fADGeoToChannelAndSV alg) = Some v
        /\ (channel < N.of_nat (List.length v))%N
        /\ nth_error v (N.to_nat channel) = Some (ch, sv).
Proof.
  intros alg auxDets detName channel idx sv.
  unfold ChannelToSensitiveAuxDet, ChannelToAuxDet.
  destruct (ChannelToAuxDet_scan (fADGeoToName alg) detName)
    as [idx' |] eqn:E; cbn [bind]; [| discriminate].
  destruct (map_find idx' (fADGeoToChannelAndSV alg)) as [v |] eqn:Ev;
    [| discriminate].
  destruct (channel <? N.of_nat (List.length v))%N eqn:El; [| discriminate].
  intros [= <- <-]. apply N.ltb_lt in El.
  destruct (ChannelToAuxDet_scan_Some _ _ _ E) as [before [after [Hl _]]].
  split.
  - rewrite Hl. apply in_or_app. right. left. reflexivity.
  - destruct (nth_error v (N.to_nat channel)) as [[ch sv'] |] eqn:En.
    + exists v, ch. repeat split; trivial.
      rewrite (nth_error_nth v (N.to_nat channel) (0, 0)%N En). exact En.
    + apply nth_error_None in En. lia.
Qed.

Lemma ChannelToSensitiveAuxDet_result_witness :
  let alg := mkAlg [(0, "AuxDetA"); (3, "AuxDetB")]%N%string
                   [(3, [(40, 7); (41, 9)])]%N in
  In (3%N, "AuxDetB"%string) (fADGeoToName alg)
  /\ exists v ch,
      map_find 3 (fADGeoToChannelAndSV alg) = Some v
      /\ (1 < N.of_nat (List.length v))%N
      /\ nth_error v (N.to_nat 1) = Some (ch, 9%N).
Proof.
  intros alg.
  apply (ChannelToSensitiveAuxDet_result alg [] "AuxDetB" 1%N 3%N 9%N).
  reflexivity.
Defined.

Lemma map_find_relabel (f : N -> N) (m : std_map (list (N * N))) (k : N) :
  map_find k (relabel_channels f m)
  = option_map (map (fun p => (f (fst p), snd p))) (map_find k m).
Proof.
  induction m as [| [k' v] m IH]; simpl.
  - reflexivity.
  - destruct (k' =? k)%N; [reflexivity | exact IH].
Qed.

(** X7.  [ChannelToSensitiveAuxDet] never reads the channel number that
    is stored with a sensitive-volume index: the vector is indexed by
    position, and storing other channel numbers changes no result and no
    exception. *)
Theorem ChannelToSensitiveAuxDet_ignores_stored_channel :
  forall f names table auxDets detName channel,
    ChannelToSensitiveAuxDet (mkAlg names (relabel_channels f table))
      auxDets detName channel
    = ChannelToSensitiveAuxDet (mkAlg names table) auxDets detName channel.
Proof.
  intros f names table auxDets detName channel.
  unfold ChannelToSensitiveAuxDet, ChannelToAuxDet; simpl.
  destruct (ChannelToAuxDet_scan names detName) as [idx |]; cbn [bind];
    [| reflexivity].
  rewrite map_find_relabel.
  destruct (map_find idx table) as [v |]; simpl; [| reflexivity].
  rewrite length_map.
  destruct (channel <? N.of_nat (List.length v))%N eqn:El; [| reflexivity].
  apply N.ltb_lt in El.
  destruct (nth_error v (N.to_nat channel)) as [p |] eqn:En.
  - rewrite (nth_error_nth v _ (0, 0)%N En).
    rewrite (nth_error_nth (map _ v) (N.to_nat channel) (0, 0)%N
               (map_nth_error _ _ _ En)).
    reflexivity.
  - apply nth_error_None in En. lia.
Qed.

(** X22.  The name table is a [std::map], read in ascending order of
    its keys: when several entries have the requested name,
    [ChannelToAuxDet] returns the lowest of their keys. *)
Theorem ChannelToAuxDet_lowest_key :
  forall alg auxDets detName channel idx,
    StronglySorted (fun e1 e2 => (fst e1 < fst e2)%N) (fADGeoToName alg) ->
    ChannelToAuxDet alg auxDets detName channel = Ok idx ->
    In (idx, detName) (fADGeoToName alg)
    /\ forall k, In (k, detName) (fADGeoToName alg) -> (idx <= k)%N.
Proof.
  intros alg auxDets detName channel idx Hs. unfold ChannelToAuxDet.
  destruct (ChannelToAuxDet_scan (fADGeoToName alg) detName)
    as [idx' |] eqn:E; [| discriminate].
  intros [= <-].
  destruct (ChannelToAuxDet_scan_Some _ _ _ E) as [before [after [Hl Hb]]].
  rewrite Hl in *. split.
  - apply in_or_app. right. left. reflexivity.
  - intros k Hk. apply in_app_or in Hk. destruct Hk as [Hk | [Hk | Hk]].
    + exfalso. apply (Hb _ Hk). reflexivity.
    + injection Hk as ->. lia.
    + apply StronglySorted_app_iff in Hs. destruct Hs as [_ [Hs _]].
      inversion Hs as [| ? ? _ Hf]; subst.
      rewrite Forall_forall in Hf. specialize (Hf _ Hk). simpl in Hf. lia.
Qed.

Lemma ChannelToAuxDet_lowest_key_witness :
  let alg := mkAlg [(0, "AuxDetA"); (3, "AuxDetB"); (5, "AuxDetB")]%N%string
                   [] in
  In (3%N, "AuxDetB"%string) (fADGeoToName alg)
  /\ forall k, In (k, "AuxDetB"%string) (fADGeoToName alg) -> (3 <= k)%N.
Proof.
  intros alg.
  apply (ChannelToAuxDet_lowest_key alg [] "AuxDetB" 0%N 3%N).
  - repeat constructor.
  - reflexivity.
Defined.

(** ** More on the optical detectors *)

Lemma GetClosestOpDet_from_first (point : Point) (opdets : list OpDetGeo.t) :
  forall (o ClosestDet : N) (ClosestDist : double),
    let r := GetClosestOpDet_from o opdets point ClosestDet ClosestDist in
    (r = ClosestDet
     /\ forall od, In od opdets ->
                   ClosestDist <= OpDetGeo.DistanceToPoint od point)
    \/ (exists before od after,
          opdets = before ++ od :: after
          /\ r = (o + N.of_nat (List.length before))%N
          /\ OpDetGeo.DistanceToPoint od point < ClosestDist
          /\ (forall x, In x before ->
                        OpDetGeo.DistanceToPoint od point
                        < OpDetGeo.DistanceToPoint x point)
          /\ (forall x, In x after ->
                        OpDetGeo.DistanceToPoint od point
                        <= OpDetGeo.DistanceToPoint x point)).
Proof.
  induction opdets as [| d rest IH]; intros o cd cdist; simpl.
  - left. split; [reflexivity | contradiction].
  - destruct (Qltb (OpDetGeo.DistanceToPoint d point) cdist) eqn:E;
      bool_to_Q.
    + destruct (IH (o + 1)%N o (OpDetGeo.DistanceToPoint d point))
        as [[Hr Hall] | [before [od [after [Hl [Hr [Hlt [Hb Ha]]]]]]]].
      * right. exists [], d, rest. simpl. repeat split; trivial.
        -- rewrite Hr. lia.
        -- contradiction.
      * right. exists (d :: before), od, after. simpl. repeat split.
        -- rewrite Hl. reflexivity.
        -- rewrite Hr. lia.
        -- apply (Qlt_trans _ _ _ Hlt E).
        -- intros x [<- | Hx]; auto.
        -- exact Ha.
    + destruct (IH (o + 1)%N cd cdist)
        as [[Hr Hall] | [before [od [after [Hl [Hr [Hlt [Hb Ha]]]]]]]].
      * left. split; [exact Hr |]. intros x [<- | Hx]; auto.
      * right. exists (d :: before), od, after. simpl. repeat split.
        -- rewrite Hl. reflexivity.
        -- rewrite Hr. lia.
        -- exact Hlt.
        -- intros x [<- | Hx]; [| auto].
           apply (Qlt_le_trans _ _ _ Hlt E).
        -- exact Ha.
Qed.

Lemma GetClosestOpDet_cases :
  forall c point,
    (GetClosestOpDet c point = UINT_MAX
     /\ forall od, In od (CryostatGeo.OpDets c) ->
                   DBL_MAX <= OpDetGeo.DistanceToPoint od point)
    \/ (exists before od after,
          CryostatGeo.OpDets c = before ++ od :: after
          /\ GetClosestOpDet c point = N.of_nat (List.length before)
          /\ OpDetGeo.DistanceToPoint od point < DBL_MAX
          /\ (forall x, In x before ->
                        OpDetGeo.DistanceToPoint od point
                        < OpDetGeo.DistanceToPoint x point)
          /\ (forall x, In x after ->
                        OpDetGeo.DistanceToPoint od point
                        <= OpDetGeo.DistanceToPoint x point)).
Proof.
  intros c point. unfold GetClosestOpDet.
  destruct (GetClosestOpDet_from_first point (CryostatGeo.OpDets c)
              0%N UINT_MAX DBL_MAX)
    as [H | [before [od [after [Hl [Hr H]]]]]].
  - left. exact H.
  - right. exists before, od, after. rewrite N.add_0_l in Hr.
    split; [exact Hl | split; [exact Hr | exact H]].
Qed.


(** X9.  [GetClosestOpDet] returns the largest [unsigned int] when no
    optical detector is closer to the point than the largest [double]
    (so when there is none at all); otherwise it returns the position of
    the first among the detectors at the least distance: every detector
    before it is further away, every detector after it at least as
    far. *)
Theorem GetClosestOpDet_first_nearest :
  forall c point,
    (GetClosestOpDet c point = UINT_MAX
     /\ forall od, In od (CryostatGeo.OpDets c) ->
                   DBL_MAX <= OpDetGeo.DistanceToPoint od point)
    \/ (exists before od after,
          CryostatGeo.OpDets c = before ++ od :: after
          /\ GetClosestOpDet c point = N.of_nat (List.length before)
          /\ OpDetGeo.DistanceToPoint od point < DBL_MAX
          /\ (forall x, In x before ->
                        OpDetGeo.DistanceToPoint od point
                        < OpDetGeo.DistanceToPoint x point)
          /\ (forall x, In x after ->
                        OpDetGeo.DistanceToPoint od point
                        <= OpDetGeo.DistanceToPoint x point)).
Proof. exact GetClosestOpDet_cases. Qed.

Lemma index_is_not_DBL_MAX (i : N) :
  (i <= UINT_MAX)%N -> Qeq_bool (inject_Z (Z.of_N i)) DBL_MAX = false.
Proof.
  intros H. destruct (Qeq_bool (inject_Z (Z.of_N i)) DBL_MAX) eqn:E;
    [| reflexivity].
  exfalso. apply Qeq_bool_iff in E. unfold DBL_MAX in E.
  rewrite inject_Z_injective in E.
  assert (Z.of_N UINT_MAX < 2 ^ 1024 - 2 ^ 971)%Z as B
    by (vm_compute; reflexivity).
  rewrite <- E in B. lia.
Qed.

(** X10.  In a cryostat whose number of optical detectors fits
    [unsigned int], [GetClosestOpDetPtr] never returns the null pointer:
    it returns a detector of the cryostat that is closer to the point
    than the largest [double] and at least as close as every other one,
    or, when there is no such detector, it throws [OpDetOutOfRange]. *)
Theorem GetClosestOpDetPtr_result :
  forall c point,
    (NOpDet c <= UINT_MAX)%N ->
    match GetClosestOpDetPtr c point with
    | Ok (Some od) =>
        In od (CryostatGeo.OpDets c)
        /\ OpDetGeo.DistanceToPoint od point < DBL_MAX
        /\ forall x, In x (CryostatGeo.OpDets c) ->
                     OpDetGeo.DistanceToPoint od point
                     <= OpDetGeo.DistanceToPoint x point
    | Ok None => False
    | Throw e =>
        e = cet_exception "OpDetOutOfRange"
              [Text "Request for non-existant OpDet "; Unsigned UINT_MAX]
        /\ forall x, In x (CryostatGeo.OpDets c) ->
                     DBL_MAX <= OpDetGeo.DistanceToPoint x point
    end.
Proof.
  intros c point Hn. unfold GetClosestOpDetPtr; cbv zeta.
  destruct (GetClosestOpDet_cases c point)
    as [[Hr Hall] | [before [od [after [Hl [Hr [Hlt [Hb Ha]]]]]]]].
  - rewrite Hr, index_is_not_DBL_MAX by lia.
    unfold OpDet; cbv zeta.
    replace (NOpDet c <=? UINT_MAX)%N with true
      by (symmetry; apply N.leb_le; exact Hn).
    cbn [bind]. split; [reflexivity | exact Hall].
  - assert (GetClosestOpDet c point < NOpDet c)%N as Hlt'.
    { rewrite Hr. unfold NOpDet. rewrite Hl, length_app. simpl. lia. }
    rewrite index_is_not_DBL_MAX by lia.
    unfold OpDet; cbv zeta.
    replace (NOpDet c <=? GetClosestOpDet c point)%N with false
      by (symmetry; apply N.leb_gt; exact Hlt').
    rewrite Hr, Nat2N.id, Hl, nth_error_app2, Nat.sub_diag by lia.
    cbn [nth_error bind]. split; [| split].
    + apply in_or_app. right. left. reflexivity.
    + exact Hlt.
    + intros x Hx. apply in_app_or in Hx.
      destruct Hx as [Hx | [<- | Hx]].
      * apply Qlt_le_weak, Hb, Hx.
      * apply Qle_refl.
      * apply Ha, Hx.
Qed.

Lemma GetClosestOpDetPtr_result_witness :
  let c := CryostatGeo.mk (fun p => p) []
             [OpDetGeo.mk (fun _ => 5); OpDetGeo.mk (fun _ => 3)] 0%N in
  match GetClosestOpDetPtr c origin with
  | Ok (Some od) =>
      In od (CryostatGeo.OpDets c)
      /\ OpDetGeo.DistanceToPoint od origin < DBL_MAX
      /\ forall x, In x (CryostatGeo.OpDets c) ->
                   OpDetGeo.DistanceToPoint od origin
                   <= OpDetGeo.DistanceToPoint x origin
  | Ok None => False
  | Throw e =>
      e = cet_exception "OpDetOutOfRange"
            [Text "Request for non-existant OpDet "; Unsigned UINT_MAX]
      /\ forall x, In x (CryostatGeo.OpDets c) ->
                   DBL_MAX <= OpDetGeo.DistanceToPoint x origin
  end.
Proof.
  intros c. apply (GetClosestOpDetPtr_result c origin).
  vm_compute. discriminate.
Defined.

(** ** Identifiers after sorting *)

Section TPCInterfaceFacts.
Variable TPC_UpdateAfterSorting : TPCGeo.t -> N * N -> TPCGeo.t.

Lemma UpdateAfterSorting_from_nth (fID : N) (tpcs : list TPCGeo.t) :
  forall tpc i,
    nth_error (UpdateAfterSorting_from TPC_UpdateAfterSorting fID tpc tpcs) i
    = option_map
        (fun t => TPC_UpdateAfterSorting t (fID, (tpc + N.of_nat i)%N))
        (nth_error tpcs i).
Proof.
  induction tpcs as [| t tpcs IH]; intros tpc i.
  - destruct i; reflexivity.
  - destruct i as [| i]; simpl.
    + rewrite N.add_0_r. reflexivity.
    + rewrite IH. replace (tpc + 1 + N.of_nat i)%N
        with (tpc + N.pos (Pos.of_succ_nat i))%N by lia.
      reflexivity.
Qed.

Lemma UpdateAfterSorting_from_length (fID tpc : N) (tpcs : list TPCGeo.t) :
  List.length (UpdateAfterSorting_from TPC_UpdateAfterSorting fID tpc tpcs)
  = List.length tpcs.
Proof.
  revert tpc. induction tpcs as [| t tpcs IH]; intros tpc; simpl;
    [| rewrite IH]; reflexivity.
Qed.

Hypothesis update_stores_ID :
  forall t id, TPCGeo.ID (TPC_UpdateAfterSorting t id) = id.

Lemma UpdateAfterSorting_from_IDs (fID : N) (tpcs : list TPCGeo.t) :
  forall tpc id,
    In id (map TPCGeo.ID
             (UpdateAfterSorting_from TPC_UpdateAfterSorting fID tpc tpcs)) ->
    fst id = fID /\ (tpc <= snd id)%N.
Proof.
  induction tpcs as [| t tpcs IH]; simpl; intros tpc id H.
  - contradiction.
  - destruct H as [<- | H].
    + rewrite update_stores_ID. simpl. split; [reflexivity | lia].
    + destruct (IH _ _ H). split; [assumption | lia].
Qed.

Lemma UpdateAfterSorting_from_NoDup (fID : N) (tpcs : list TPCGeo.t) :
  forall tpc,
    NoDup (map TPCGeo.ID
             (UpdateAfterSorting_from TPC_UpdateAfterSorting fID tpc tpcs)).
Proof.
  induction tpcs as [| t tpcs IH]; simpl; intros tpc.
  - constructor.
  - constructor; [| apply IH].
    rewrite update_stores_ID. intros H.
    apply UpdateAfterSorting_from_IDs in H. simpl in H. lia.
Qed.

Hypothesis update_keeps_shape :
  forall t id point wiggle,
    TPCGeo.ContainsPosition (TPC_UpdateAfterSorting t id) point wiggle
    = TPCGeo.ContainsPosition t point wiggle.

Lemma PositionToTPCptr_scan_updated (fID : N) (point : Point)
  (wiggle : double) (before : list TPCGeo.t) (tpc : TPCGeo.t)
  (after : list TPCGeo.t) :
  (forall t, In t before -> TPCGeo.ContainsPosition t point wiggle = false) ->
  TPCGeo.ContainsPosition tpc point wiggle = true ->
  forall n,
    PositionToTPCptr_scan
      (UpdateAfterSorting_from TPC_UpdateAfterSorting fID n
         (before ++ tpc :: after)) point wiggle
    = Some (TPC_UpdateAfterSorting tpc
              (fID, (n + N.of_nat (List.length before))%N)).
Proof.
  intros Hb Ht. induction before as [| t before IH]; intros n; simpl.
  - rewrite update_keeps_shape, Ht, N.add_0_r. reflexivity.
  - rewrite update_keeps_shape, (Hb t) by (left; reflexivity).
    rewrite IH by (intros t' Ht'; apply Hb; right; exact Ht').
    do 3 f_equal. lia.
Qed.

Lemma PositionToTPCptr_scan_updated_none (fID : N) (point : Point)
  (wiggle : double) (tpcs : list TPCGeo.t) :
  (forall t, In t tpcs -> TPCGeo.ContainsPosition t point wiggle = false) ->
  forall n,
    PositionToTPCptr_scan
      (UpdateAfterSorting_from TPC_UpdateAfterSorting fID n tpcs)
      point wiggle
    = None.
Proof.
  induction tpcs as [| t tpcs IH]; simpl; intros H n.
  - reflexivity.
  - rewrite update_keeps_shape, (H t) by (left; reflexivity).
    apply IH. intros t' Ht'. apply H. right. exact Ht'.
Qed.
End TPCInterfaceFacts.

(** X11.  [UpdateAfterSorting] gives the cryostat the ID it is called
    with and every TPC, in the order of the vector, the ID made of that
    cryostat ID and the position of the TPC; it keeps the number of TPCs
    and the optical detectors.  Where [TPCGeo::UpdateAfterSorting]
    stores the ID it is given, the TPC at position [i] then has the ID
    (cryostat ID, [i]) and the IDs of the TPCs are pairwise
    different. *)
Theorem UpdateAfterSorting_IDs :
  forall TPC_UpdateAfterSorting c cryoid,
    (forall t id, TPCGeo.ID (TPC_UpdateAfterSorting t id) = id) ->
    let c' := UpdateAfterSorting TPC_UpdateAfterSorting c cryoid in
    CryostatGeo.ID c' = cryoid
    /\ CryostatGeo.OpDets c' = CryostatGeo.OpDets c
    /\ List.length (CryostatGeo.TPCs c') = List.length (CryostatGeo.TPCs c)
    /\ (forall i,
          nth_error (CryostatGeo.TPCs c') i
          = option_map
              (fun t => TPC_UpdateAfterSorting t (cryoid, N.of_nat i))
              (nth_error (CryostatGeo.TPCs c) i))
    /\ (forall i t, nth_error (CryostatGeo.TPCs c') i = Some t ->
                    TPCGeo.ID t = (cryoid, N.of_nat i))
    /\ NoDup (map TPCGeo.ID (CryostatGeo.TPCs c')).
Proof.
  intros upd c cryoid Hid c'. unfold c', UpdateAfterSorting; simpl.
  split; [reflexivity |]. split; [reflexivity |].
  split; [apply UpdateAfterSorting_from_length |].
  assert (forall i,
             nth_error (UpdateAfterSorting_from upd cryoid 0
                          (CryostatGeo.TPCs c)) i
             = option_map (fun t => upd t (cryoid, N.of_nat i))
                 (nth_error (CryostatGeo.TPCs c) i)) as Hnth.
  { intros i. rewrite UpdateAfterSorting_from_nth. reflexivity. }
  split; [exact Hnth |]. split.
  - intros i t. rewrite Hnth.
    destruct (nth_error (CryostatGeo.TPCs c) i); simpl; [| discriminate].
    intros [= <-]. apply Hid.
  - apply UpdateAfterSorting_from_NoDup. exact Hid.
Qed.

Lemma UpdateAfterSorting_IDs_witness :
  let upd := fun t id =>
    TPCGeo.mk (TPCGeo.LocalToWorld t) (TPCGeo.ContainsPosition t) id in
  let t0 := TPCGeo.mk (fun p => p) (fun _ _ => false) (9, 9)%N in
  let c := CryostatGeo.mk (fun p => p) [t0; t0] [] 0%N in
  map TPCGeo.ID (CryostatGeo.TPCs (UpdateAfterSorting upd c 4))
  = [(4, 0); (4, 1)]%N
  /\ NoDup (map TPCGeo.ID (CryostatGeo.TPCs (UpdateAfterSorting upd c 4))).
Proof.
  intros upd t0 c.
  destruct (UpdateAfterSorting_IDs upd c 4%N) as [_ [_ [_ [_ [_ H]]]]].
  - reflexivity.
  - split; [reflexivity | exact H].
Defined.

(** X12.  After [UpdateAfterSorting], the point queries report the
    position of the TPC in the vector: where
    [TPCGeo::UpdateAfterSorting] stores the ID it is given and leaves
    the containment test as it is, [PositionToTPCID] gives the cryostat
    ID with the position of the first TPC containing the point and
    [FindTPCAtPosition] gives that position; when no TPC contains the
    point they give the invalid ID and [InvalidID]. *)
Theorem FindTPCAtPosition_after_update :
  forall InvalidID TPC_UpdateAfterSorting c cryoid point wiggle,
    (forall t id, TPCGeo.ID (TPC_UpdateAfterSorting t id) = id) ->
    (forall t id p w,
        TPCGeo.ContainsPosition (TPC_UpdateAfterSorting t id) p w
        = TPCGeo.ContainsPosition t p w) ->
    let c' := UpdateAfterSorting TPC_UpdateAfterSorting c cryoid in
    (forall before tpc after,
        CryostatGeo.TPCs c = before ++ tpc :: after ->
        (forall t, In t before ->
                   TPCGeo.ContainsPosition t point wiggle = false) ->
        TPCGeo.ContainsPosition tpc point wiggle = true ->
        PositionToTPCID c' point wiggle
        = Some (cryoid, N.of_nat (List.length before))
        /\ FindTPCAtPosition InvalidID c' point wiggle
           = N.of_nat (List.length before))
    /\ ((forall t, In t (CryostatGeo.TPCs c) ->
                   TPCGeo.ContainsPosition t point wiggle = false) ->
        PositionToTPCID c' point wiggle = None
        /\ FindTPCAtPosition InvalidID c' point wiggle = InvalidID).
Proof.
  intros InvalidID upd c cryoid point wiggle Hid Hshape c'. split.
  - intros before tpc after Hl Hb Ht.
    assert (PositionToTPCID c' point wiggle
            = Some (cryoid, N.of_nat (List.length before))) as H.
    { unfold PositionToTPCID, PositionToTPCptr, c', UpdateAfterSorting.
      simpl. rewrite Hl.
      rewrite (PositionToTPCptr_scan_updated upd Hshape cryoid point wiggle
                 before tpc after Hb Ht).
      rewrite Hid, N.add_0_l. reflexivity. }
    split; [exact H |]. unfold FindTPCAtPosition. rewrite H. reflexivity.
  - intros Hall.
    assert (PositionToTPCID c' point wiggle = None) as H.
    { unfold PositionToTPCID, PositionToTPCptr, c', UpdateAfterSorting.
      simpl.
      rewrite (PositionToTPCptr_scan_updated_none upd Hshape cryoid point
                 wiggle _ Hall).
      reflexivity. }
    split; [exact H |]. unfold FindTPCAtPosition. rewrite H. reflexivity.
Qed.

Lemma FindTPCAtPosition_after_update_witness :
  let upd := fun t id =>
    TPCGeo.mk (TPCGeo.LocalToWorld t) (TPCGeo.ContainsPosition t) id in
  let miss := TPCGeo.mk (fun p => p) (fun _ _ => false) (9, 9)%N in
  let hit := TPCGeo.mk (fun p => p) (fun _ _ => true) (9, 9)%N in
  let c := CryostatGeo.mk (fun p => p) [miss; hit; hit] [] 0%N in
  let none := CryostatGeo.mk (fun p => p) [miss] [] 0%N in
  PositionToTPCID (UpdateAfterSorting upd c 4) origin 1 = Some (4, 1)%N
  /\ FindTPCAtPosition 4294967295 (UpdateAfterSorting upd c 4) origin 1 = 1%N
  /\ PositionToTPCID (UpdateAfterSorting upd none 4) origin 1 = None
  /\ FindTPCAtPosition 4294967295 (UpdateAfterSorting upd none 4) origin 1
     = 4294967295%N.
Proof.
  intros upd miss hit c none.
  assert (forall t, In t [miss] -> TPCGeo.ContainsPosition t origin 1 = false)
    as Hmiss by (intros t [<- | []]; reflexivity).
  destruct (FindTPCAtPosition_after_update 4294967295%N upd c 4%N origin 1)
    as [H _]; [reflexivity | reflexivity |].
  destruct (H [miss] hit [hit] eq_refl Hmiss eq_refl) as [A B].
  destruct (FindTPCAtPosition_after_update 4294967295%N upd none 4%N origin 1)
    as [_ H']; [reflexivity | reflexivity |].
  destruct (H' Hmiss) as [C D].
  exact (conj A (conj B (conj C D))).
Defined.

(** ** The largest numbers of planes and of wires *)

Lemma MaxPlanes_from_spec (Nplanes : TPCGeo.t -> N) (tpcs : list TPCGeo.t) :
  forall m,
    let r := MaxPlanes_from Nplanes m tpcs in
    (m <= r)%N
    /\ (forall t, In t tpcs -> (Nplanes t <= r)%N)
    /\ (r = m \/ exists t, In t tpcs /\ Nplanes t = r).
Proof.
  induction tpcs as [| t tpcs IH]; intros m; simpl.
  - repeat split; [lia | contradiction | left; reflexivity].
  - destruct (N.ltb_spec m (Nplanes t)) as [Hlt | Hge].
    + destruct (IH (Nplanes t)) as [Hm [Hall Hat]].
      repeat split; [lia | |].
      * intros t' [<- | Ht']; auto.
      * right. destruct Hat as [-> | [t' [Ht' Hr]]]; eauto.
    + destruct (IH m) as [Hm [Hall Hat]].
      repeat split; [exact Hm | |].
      * intros t' [<- | Ht']; [lia | auto].
      * destruct Hat as [-> | [t' [Ht' Hr]]]; [left; reflexivity |].
        right. eauto.
Qed.

Lemma MaxWires_from_spec (TPC_MaxWires : TPCGeo.t -> N)
  (tpcs : list TPCGeo.t) :
  forall m,
    let r := MaxWires_from TPC_MaxWires m tpcs in
    (m <= r)%N
    /\ (forall t, In t tpcs -> (TPC_MaxWires t <= r)%N)
    /\ (r = m \/ exists t, In t tpcs /\ TPC_MaxWires t = r).
Proof.
  induction tpcs as [| t tpcs IH]; intros m; simpl.
  - repeat split; [lia | contradiction | left; reflexivity].
  - destruct (N.ltb_spec m (TPC_MaxWires t)) as [Hlt | Hge].
    + destruct (IH (TPC_MaxWires t)) as [Hm [Hall Hat]].
      repeat split; [lia | |].
      * intros t' [<- | Ht']; auto.
      * right. destruct Hat as [-> | [t' [Ht' Hr]]]; eauto.
    + destruct (IH m) as [Hm [Hall Hat]].
      repeat split; [exact Hm | |].
      * intros t' [<- | Ht']; [lia | auto].
      * destruct Hat as [-> | [t' [Ht' Hr]]]; [left; reflexivity |].
        right. eauto.
Qed.

(** X13.  [MaxPlanes] is the largest number of planes of a TPC of the
    cryostat, and [MaxWires] the largest of the TPCs' own [MaxWires]:
    no TPC has more, and the number is that of some TPC of the cryostat,
    or 0, which it is when the cryostat has no TPC. *)
Theorem MaxPlanes_MaxWires_largest :
  forall Nplanes TPC_MaxWires c,
    (forall t, In t (CryostatGeo.TPCs c) ->
               (Nplanes t <= MaxPlanes Nplanes c)%N)
    /\ (MaxPlanes Nplanes c = 0%N
        \/ exists t, In t (CryostatGeo.TPCs c)
                     /\ Nplanes t = MaxPlanes Nplanes c)
    /\ (CryostatGeo.TPCs c = [] -> MaxPlanes Nplanes c = 0%N)
    /\ (forall t, In t (CryostatGeo.TPCs c) ->
                  (TPC_MaxWires t <= MaxWires TPC_MaxWires c)%N)
    /\ (MaxWires TPC_MaxWires c = 0%N
        \/ exists t, In t (CryostatGeo.TPCs c)
                     /\ TPC_MaxWires t = MaxWires TPC_MaxWires c)
    /\ (CryostatGeo.TPCs c = [] -> MaxWires TPC_MaxWires c = 0%N).
Proof.
  intros Nplanes TPC_MaxWires c. unfold MaxPlanes, MaxWires.
  destruct (MaxPlanes_from_spec Nplanes (CryostatGeo.TPCs c) 0)
    as [_ [Hp1 Hp2]].
  destruct (MaxWires_from_spec TPC_MaxWires (CryostatGeo.TPCs c) 0)
    as [_ [Hw1 Hw2]].
  repeat split; trivial; intros ->; reflexivity.
Qed.

(** ** More on the sorted collections *)

Lemma StronglySorted_weaken_in {A : Type} (R R' : A -> A -> Prop)
  (l : list A) :
  (forall a b, In a l -> In b l -> R a b -> R' a b) ->
  StronglySorted R l -> StronglySorted R' l.
Proof.
  intros H Hs. induction Hs as [| a l Hs IH Hf]; constructor.
  - apply IH. intros x y Hx Hy. apply H; right; assumption.
  - rewrite Forall_forall in *. intros x Hx.
    apply H; [left; reflexivity | right; exact Hx | apply Hf, Hx].
Qed.

(** X14.  [SortCryostats] and [SortTPCs] leave their collection in
    ascending order of the world X of the local origin, as a whole:
    every element has an X less than or equal to that of every element
    after it. *)
Theorem SortCryostats_SortTPCs_ascending :
  (forall cgeo,
      StronglySorted (fun c1 c2 => cryo_x c1 <= cryo_x c2)
        (SortCryostats cgeo))
  /\ (forall tgeo,
        StronglySorted (fun t1 t2 => tpc_x t1 <= tpc_x t2) (SortTPCs tgeo)).
Proof.
  split.
  - intros cgeo.
    apply (StronglySorted_weaken (fun a b => sortCryoStandard b a = false)).
    + intros a b H. unfold sortCryoStandard in H. bool_to_Q. exact H.
    + apply (std_sort_is_ordered sortCryoStandard (fun _ => True)).
      * intros a b _ _. apply (Q_key_asym cryo_x).
      * intros a b c _ _ _. apply (Q_key_negtrans cryo_x).
      * apply Forall_forall. trivial.
  - intros tgeo.
    apply (StronglySorted_weaken (fun a b => sortTPCStandard b a = false)).
    + intros a b H. unfold sortTPCStandard in H. bool_to_Q. exact H.
    + apply (std_sort_is_ordered sortTPCStandard (fun _ => True)).
      * intros a b _ _. apply (Q_key_asym tpc_x).
      * intros a b c _ _ _. apply (Q_key_negtrans tpc_x).
      * apply Forall_forall. trivial.
Qed.

Lemma SortWires_in_order_witness :
  StronglySorted (fun w1 w2 => ~ wire_precedes w2 w1)
    (SortWires [wire_at 0 5 1; wire_at 0 3 1; wire_at 0 9 0]).
Proof.
  apply SortWires_in_order; tol_transitive_by_cases.
Defined.

Lemma SortPlanes_in_order_witness :
  StronglySorted (fun p1 p2 => ~ plane_precedes_negX p2 p1)
    (fst (SortPlanes [plane_at 5 0 0; plane_at 10 0 0] kNegX))
  /\ StronglySorted (fun p1 p2 => ~ plane_precedes_posX p2 p1)
       (fst (SortPlanes [plane_at 5 0 0; plane_at 10 0 0] kPosX)).
Proof.
  apply SortPlanes_in_order; tol_transitive_by_cases.
Defined.

(** X17.  For wires that are pairwise different with centres further
    apart in world Z than the tolerance, [SortWires] leaves the whole
    collection in strictly ascending order of Z. *)
Theorem SortWires_separated :
  forall wgeo,
    separated wire_z wgeo ->
    StronglySorted (fun w1 w2 => wire_z w1 < wire_z w2) (SortWires wgeo).
Proof.
  intros wgeo H.
  apply (std_sort_separated wire_z wire_y wire_x sortWireStandard);
    [reflexivity | exact H].
Qed.

(** X18.  For planes that are pairwise different with local origins
    further apart in world X than the tolerance, [SortPlanes] leaves the
    whole collection in strictly descending order of X for drift
    towards negative X and in strictly ascending order of X for drift
    towards positive X, and one result is the other read backwards. *)
Theorem SortPlanes_separated :
  forall pgeo,
    separated plane_x pgeo ->
    StronglySorted (fun p1 p2 => plane_x p2 < plane_x p1)
      (fst (SortPlanes pgeo kNegX))
    /\ StronglySorted (fun p1 p2 => plane_x p1 < plane_x p2)
         (fst (SortPlanes pgeo kPosX))
    /\ fst (SortPlanes pgeo kPosX) = rev (fst (SortPlanes pgeo kNegX)).
Proof.
  intros pgeo H. rewrite SortPlanes_negX, SortPlanes_posX.
  unfold std_sort_reverse.
  assert (forall l, separated plane_x l ->
            StronglySorted (fun p1 p2 => plane_x p2 < plane_x p1)
              (std_sort sortPlaneStandard l)) as Hdesc.
  { intros l Hl.
    apply (StronglySorted_weaken
             (fun a b => - plane_x a < - plane_x b)).
    - intros a b Hab. lra.
    - apply (std_sort_separated (fun p => - plane_x p) plane_z plane_y
               sortPlaneStandard).
      + exact sortPlaneStandard_tol_lex.
      + apply separated_opp, Hl. }
  assert (forall l, separated plane_x l ->
            StronglySorted (fun p1 p2 => plane_x p1 < plane_x p2)
              (rev (std_sort sortPlaneStandard l))) as Hasc.
  { intros l Hl.
    apply (StronglySorted_rev (fun p1 p2 => plane_x p2 < plane_x p1)).
    apply Hdesc, Hl. }
  split; [apply Hdesc, H |]. split.
  - apply Hasc, separated_rev, H.
  - apply (strictly_sorted_unique plane_x).
    + apply Hasc, separated_rev, H.
    + apply Hasc, H.
    + transitivity pgeo.
      * symmetry. apply (std_sort_reverse_perm sortPlaneStandard).
      * rewrite <- Permutation_rev. apply std_sort_perm.
Qed.

Lemma SortWires_separated_witness :
  StronglySorted (fun w1 w2 => wire_z w1 < wire_z w2)
    (SortWires [wire_at 0 0 2; wire_at 0 0 1]).
Proof.
  apply SortWires_separated. split.
  - constructor; [| constructor; [intros [] | constructor]].
    intros [H | []]. discriminate H.
  - intros a b [<- | [<- | []]] [<- | [<- | []]];
      try (left; reflexivity); right; vm_compute; reflexivity.
Defined.

Lemma SortPlanes_separated_witness :
  StronglySorted (fun p1 p2 => plane_x p2 < plane_x p1)
    (fst (SortPlanes [plane_at 5 0 0; plane_at 10 0 0] kNegX))
  /\ StronglySorted (fun p1 p2 => plane_x p1 < plane_x p2)
       (fst (SortPlanes [plane_at 5 0 0; plane_at 10 0 0] kPosX))
  /\ fst (SortPlanes [plane_at 5 0 0; plane_at 10 0 0] kPosX)
     = rev (fst (SortPlanes [plane_at 5 0 0; plane_at 10 0 0] kNegX)).
Proof.
  apply SortPlanes_separated. split.
  - constructor; [| constructor; [intros [] | constructor]].
    intros [H | []].
    apply (f_equal plane_x) in H. vm_compute in H. discriminate H.
  - intros a b [<- | [<- | []]] [<- | [<- | []]];
      try (left; reflexivity); right; vm_compute; reflexivity.
Defined.

(** ** More on the order of the auxiliary detectors *)

Lemma name_of_AuxDet_number (n : N) :
  (Z.of_N n <= INT_MAX)%Z ->
  name_fits ("volAuxDet" ++ decimal n) = true
  /\ name_number ("volAuxDet" ++ decimal n) = Z.of_N n.
Proof.
  intros H. split.
  - unfold name_fits. rewrite (length_append "volAuxDet" (decimal n)).
    reflexivity.
  - unfold name_number.
    change 9%nat with (String.length "volAuxDet").
    rewrite substring_skip, substring_all.
    + apply atoi_decimal, H.
    + rewrite length_append. lia.
Qed.

(** X19.  Where every volume name is "volAuxDet" followed by the
    decimal numeral of a number that fits an [int], the comparison of
    two AuxDets compares their numbers, and [SortAuxDets] completes and
    leaves the collection, permuted, in ascending order of the
    numbers. *)
Theorem SortAuxDets_by_number :
  forall adgeo (num : AuxDetGeo.t -> N),
    (forall ad, In ad adgeo ->
                AuxDetGeo.Name ad = ("volAuxDet" ++ decimal (num ad))%string
                /\ (Z.of_N (num ad) <= INT_MAX)%Z) ->
    (forall ad1 ad2, In ad1 adgeo -> In ad2 adgeo ->
                     sortAuxDetStandard ad1 ad2 = Ok (num ad1 <? num ad2)%N)
    /\ exists sorted,
        SortAuxDets adgeo = Ok sorted
        /\ Permutation adgeo sorted
        /\ StronglySorted (fun a b => (num a <= num b)%N) sorted.
Proof.
  intros adgeo num H. split.
  - intros ad1 ad2 H1 H2.
    destruct (H ad1 H1) as [E1 B1]. destruct (H ad2 H2) as [E2 B2].
    apply sortAuxDetStandard_suffix_order; assumption.
  - set (comp := fun a b : AuxDetGeo.t =>
                   (name_number (AuxDetGeo.Name a)
                    <? name_number (AuxDetGeo.Name b))%Z).
    exists (std_sort comp adgeo).
    split; [| split].
    + rewrite SortAuxDets_spec.
      replace (forallb (fun ad => name_fits (AuxDetGeo.Name ad)) adgeo)
        with true; [rewrite orb_true_r; reflexivity |].
      symmetry. apply forallb_forall. intros ad Had.
      destruct (H ad Had) as [-> B]. apply name_of_AuxDet_number, B.
    + apply std_sort_perm.
    + apply (StronglySorted_weaken_in (fun a b => comp b a = false)).
      * intros a b Ha Hb Hc.
        apply (Permutation_in _ (Permutation_sym (std_sort_perm comp adgeo)))
          in Ha, Hb.
        destruct (H a Ha) as [Ea Ba]. destruct (H b Hb) as [Eb Bb].
        unfold comp in Hc. rewrite Ea, Eb in Hc.
        destruct (name_of_AuxDet_number _ Ba) as [_ Na].
        destruct (name_of_AuxDet_number _ Bb) as [_ Nb].
        rewrite Na, Nb in Hc. apply Z.ltb_ge in Hc. lia.
      * apply (std_sort_is_ordered comp (fun _ => True)).
        -- intros a b _ _.
           apply (Z_key_asym (fun a => name_number (AuxDetGeo.Name a))).
        -- intros a b c _ _ _.
           apply (Z_key_negtrans (fun a => name_number (AuxDetGeo.Name a))).
        -- apply Forall_forall. trivial.
Qed.

Lemma SortAuxDets_by_number_witness :
  exists sorted,
    SortAuxDets [auxdet_named "volAuxDet12"; auxdet_named "volAuxDet3"]
    = Ok sorted
    /\ Permutation [auxdet_named "volAuxDet12"; auxdet_named "volAuxDet3"]
         sorted
    /\ StronglySorted
         (fun a b =>
            (Z.to_N (name_number (AuxDetGeo.Name a))
             <= Z.to_N (name_number (AuxDetGeo.Name b)))%N)
         sorted.
Proof.
  apply (SortAuxDets_by_number
           [auxdet_named "volAuxDet12"; auxdet_named "volAuxDet3"]
           (fun ad => Z.to_N (name_number (AuxDetGeo.Name ad)))).
  intros ad [<- | [<- | []]]; split; vm_compute; congruence.
Defined.

Lemma all_unordered_is_ordered {A : Type} (comp : A -> A -> bool)
  (l : list A) :
  (forall a b, In a l -> In b l -> comp a b = false) -> ordered comp l.
Proof.
  induction l as [| a l IH]; intros H; constructor.
  - apply IH. intros x y Hx Hy. apply H; right; assumption.
  - apply Forall_forall. intros x Hx.
    apply H; [right; exact Hx | left; reflexivity].
Qed.

(** X20.  [SortAuxDetSensitive] does not sort sensitive volumes named
    after the pattern "volAuxDetSensitive##": the comparison reads the
    number 0 out of every such name, and a collection of at most 16
    elements (where [std::sort] is the insertion sort) with such names
    is left exactly as it was given. *)
Theorem SortAuxDetSensitive_keeps_order :
  forall adsgeo,
    (List.length adsgeo <= 16)%nat ->
    (forall ad, In ad adsgeo ->
                exists s, AuxDetSensitiveGeo.Name ad
                          = ("volAuxDetSensitive" ++ s)%string) ->
    SortAuxDetSensitive adsgeo = Ok adsgeo.
Proof.
  intros adsgeo _ H. rewrite SortAuxDetSensitive_spec.
  assert (forall ad, In ad adsgeo ->
            name_fits (AuxDetSensitiveGeo.Name ad) = true
            /\ name_number (AuxDetSensitiveGeo.Name ad) = 0%Z) as Hn.
  { intros ad Had. destruct (H ad Had) as [s ->]. split.
    - unfold name_fits.
      rewrite (length_append "volAuxDetSensitive" s). reflexivity.
    - unfold name_number.
      change ("volAuxDetSensitive" ++ s)%string
        with ("volAuxDet" ++ ("Sensitive" ++ s))%string.
      change 9%nat with (String.length "volAuxDet").
      rewrite substring_skip, substring_all.
      + apply atoi_Sensitive.
      + rewrite !length_append. lia. }
  replace (forallb (fun ad => name_fits (AuxDetSensitiveGeo.Name ad)) adsgeo)
    with true
    by (symmetry; apply forallb_forall; intros ad Had; apply Hn, Had).
  rewrite orb_true_r. f_equal.
  apply std_sort_ordered, all_unordered_is_ordered.
  intros a b Ha Hb.
  destruct (Hn a Ha) as [_ ->]. destruct (Hn b Hb) as [_ ->]. reflexivity.
Qed.

Lemma SortAuxDetSensitive_keeps_order_witness :
  SortAuxDetSensitive
    [sensitive_named "volAuxDetSensitive3";
     sensitive_named "volAuxDetSensitive1";
     sensitive_named "volAuxDetSensitive2"]
  = Ok [sensitive_named "volAuxDetSensitive3";
        sensitive_named "volAuxDetSensitive1";
        sensitive_named "volAuxDetSensitive2"].
Proof.
  apply SortAuxDetSensitive_keeps_order; [simpl; lia |].
  intros ad [<- | [<- | [<- | []]]];
    [exists "3"%string | exists "1"%string | exists "2"%string];
    reflexivity.
Defined.

(** X21.  No comparison of the standard sorter orders two elements both
    ways, and none orders an element before itself: the comparisons are
    asymmetric, as [std::sort] requires, also those made with the
    tolerance. *)
Theorem comparisons_asymmetric :
  (forall c1 c2, sortCryoStandard c1 c2 = true ->
                 sortCryoStandard c2 c1 = false)
  /\ (forall t1 t2, sortTPCStandard t1 t2 = true ->
                    sortTPCStandard t2 t1 = false)
  /\ (forall p1 p2, sortPlaneStandard p1 p2 = true ->
                    sortPlaneStandard p2 p1 = false)
  /\ (forall w1 w2, sortWireStandard w1 w2 = true ->
                    sortWireStandard w2 w1 = false)
  /\ (forall ad1 ad2, sortAuxDetStandard ad1 ad2 = Ok true ->
                      sortAuxDetStandard ad2 ad1 = Ok false)
  /\ (forall ad1 ad2, sortAuxDetSensitiveStandard ad1 ad2 = Ok true ->
                      sortAuxDetSensitiveStandard ad2 ad1 = Ok false)
  /\ (forall p, sortPlaneStandard p p = false)
  /\ (forall w, sortWireStandard w w = false).
Proof.
  split; [exact (Q_key_asym cryo_x) |].
  split; [exact (Q_key_asym tpc_x) |].
  split; [exact sortPlaneStandard_asym |].
  split; [exact (tol_lex_asym wire_z wire_y wire_x) |].
  split; [| split; [| split]].
  - intros ad1 ad2. rewrite !sortAuxDetStandard_cases.
    rewrite (andb_comm (name_fits (AuxDetGeo.Name ad2))).
    destruct (_ && _); [| discriminate].
    intros [= H]. f_equal. revert H. apply Z_key_asym.
  - intros ad1 ad2. rewrite !sortAuxDetSensitiveStandard_cases.
    rewrite (andb_comm (name_fits (AuxDetSensitiveGeo.Name ad2))).
    destruct (_ && _); [| discriminate].
    intros [= H]. f_equal. revert H. apply Z_key_asym.
  - intros p. destruct (sortPlaneStandard p p) eqn:E; [| reflexivity].
    pose proof (sortPlaneStandard_asym p p E). congruence.
  - intros w. destruct (sortWireStandard w w) eqn:E; [| reflexivity].
    pose proof (tol_lex_asym wire_z wire_y wire_x w w E) as E'.
    change (sortWireStandard w w = false) in E'. congruence.
Qed.
